(** * ryujin: Riemann solver, equations of state, reductions, time stepping

  A shallow embedding of

  - [source/euler_aeos/equation_of_state_polytropic_gas.h],
  - [source/euler_aeos/equation_of_state_nasg_gas.h],
  - [source/euler_aeos/riemann_solver.template.h],
  - [source/time_integrator.h],
  - the extremum reduction of [grendel/postprocessor.template.h].

  The C++ type [Number] (a floating point scalar or a SIMD batch of
  them, every operation acting lane by lane) is idealised as a real
  number: one lane, no rounding.  Division, square root and power
  are the total functions of the standard library of reals; the places
  where the C++ operation has no value (a zero denominator, a negative
  radicand, a power of a non-positive base) are tracked separately by
  the checked evaluation in [Module Checked].  Where rounding decides a
  property, the Riemann solver is evaluated once more with
  [Number = double] in [Module Binary64]. *)

From Stdlib Require Floats.
From Stdlib Require Import Reals Lra Lia List Bool QArith Permutation.
Import ListNotations.

Local Open Scope R_scope.

(** ** Equations of state *)

Module EquationOfStateLibrary.

(** [class PolytropicGas]: one run time parameter [gamma_]. *)
Module PolytropicGas.
Record t : Type := Build { gamma_ : R }.

(** The constructor's default, [gamma_ = 7. / 5.]. *)
Definition default : t := Build (7 / 5).

Definition pressure_oracle (eos : t) (rho internal_energy : R) : R :=
  (gamma_ eos - 1) * internal_energy.

Definition sie_from_rho_p (eos : t) (rho pressure : R) : R :=
  let denom := rho * (gamma_ eos - 1) in
  pressure / denom.
End PolytropicGas.

(** [class NobleAbleStiffenedGas]: parameters [gamma_], [b_], [q_],
    [pinf_]. *)
Module NobleAbleStiffenedGas.
Record t : Type := Build { gamma_ : R; b_ : R; q_ : R; pinf_ : R }.

(** The constructor's defaults. *)
Definition default : t := Build (7 / 5) 0 0 0.

Definition pressure_oracle (eos : t) (rho internal_energy : R) : R :=
  let cov := 1 - b_ eos * rho in
  let num := internal_energy - q_ eos * rho in
  let den := cov in
  (gamma_ eos - 1) * num / den - gamma_ eos * pinf_ eos.

Definition sie_from_rho_p (eos : t) (rho pressure : R) : R :=
  let cov := 1 - b_ eos * rho in
  let num := pressure + gamma_ eos * pinf_ eos in
  let den := gamma_ eos - 1 in
  num / den * rho * cov + q_ eos.
End NobleAbleStiffenedGas.

(** The abstract base class [EquationOfState] with its two virtual
    member functions, as a closed variant with dispatch by tag. *)
Inductive EquationOfState : Type :=
| polytropic_gas (eos : PolytropicGas.t)
| noble_able_stiffened_gas (eos : NobleAbleStiffenedGas.t).

Definition pressure_oracle (eos : EquationOfState) (rho e : R) : R :=
  match eos with
  | polytropic_gas g => PolytropicGas.pressure_oracle g rho e
  | noble_able_stiffened_gas g =>
    NobleAbleStiffenedGas.pressure_oracle g rho e
  end.

Definition sie_from_rho_p (eos : EquationOfState) (rho p : R) : R :=
  match eos with
  | polytropic_gas g => PolytropicGas.sie_from_rho_p g rho p
  | noble_able_stiffened_gas g =>
    NobleAbleStiffenedGas.sie_from_rho_p g rho p
  end.

(** The covolume of a variant ([b_] for the stiffened gas, none for the
    polytropic gas); the physical domain is [1 - b rho > 0]. *)
Definition covolume (eos : EquationOfState) : R :=
  match eos with
  | polytropic_gas _ => 0
  | noble_able_stiffened_gas g => NobleAbleStiffenedGas.b_ g
  end.

End EquationOfStateLibrary.

(** ** Time stepping schemes and CFL recovery strategies *)

Inductive CFLRecoveryStrategy : Type :=
| none
| bang_bang_control.

Inductive TimeSteppingScheme : Type :=
| ssprk_33
| erk_33
| erk_43.

(** The Butcher tableau documented for each enumerator: the nodes
    (left column), the rows of stage coefficients (entries on and above
    the diagonal are zero and left out after the last non-zero entry of
    the documentation) and the final weights (the row below the line). *)
Record ButcherTableau : Type := {
  nodes : list Q;
  stage_coefficients : list (list Q);
  final_weights : list Q
}.

Definition butcher_tableau (scheme : TimeSteppingScheme) : ButcherTableau :=
  match scheme with
  | ssprk_33 =>
      {| nodes := [0; 1; 1 # 2];
         stage_coefficients := [[0]; [1; 0]; [1 # 4; 1 # 4; 0]];
         final_weights := [1 # 6; 1 # 6; 2 # 3] |}
  | erk_33 =>
      {| nodes := [0; 1 # 3; 2 # 3];
         stage_coefficients := [[0]; [1 # 3; 0]; [0; 2 # 3; 0]];
         final_weights := [1 # 4; 0; 3 # 4] |}
  | erk_43 =>
      {| nodes := [0; 1 # 4; 1 # 2; 3 # 4];
         stage_coefficients :=
           [[0]; [1 # 4; 0]; [0; 1 # 2; 0]; [0; 1 # 4; 1 # 2; 0]];
         final_weights := [0; 2 # 3; - (1 # 3); 2 # 3] |}
  end%Q.

(** Exact rational sum of a list of weights, in lowest terms. *)
Definition Qsum (l : list Q) : Q := Qred (fold_right Qplus 0%Q l).

Definition number_of_stages (scheme : TimeSteppingScheme) : nat :=
  length (final_weights (butcher_tableau scheme)).

(** ** SIMD helpers ([simd.h], deal.II's [vectorization.h]) *)

Definition Rltb (x y : R) : bool := if Rlt_dec x y then true else false.
Definition Rleb (x y : R) : bool := if Rle_dec x y then true else false.

(** [std::min(a, b)] is [(b < a) ? b : a], [std::max(a, b)] is
    [(a < b) ? b : a]. *)
Definition std_min (x y : R) : R := if Rltb y x then y else x.
Definition std_max (x y : R) : R := if Rltb x y then y else x.

Inductive SIMDComparison : Type :=
| equal
| not_equal
| greater_than
| greater_than_or_equal
| less_than
| less_than_or_equal.

Definition compare (predicate : SIMDComparison) (left right : R) : bool :=
  match predicate with
  | equal => if Req_dec_T left right then true else false
  | not_equal => if Req_dec_T left right then false else true
  | greater_than => Rltb right left
  | greater_than_or_equal => Rleb right left
  | less_than => Rltb left right
  | less_than_or_equal => Rleb left right
  end.

(** [dealii::compare_and_apply_mask<predicate>(left, right, true_value,
    false_value)]: both values are computed by the caller, the mask picks
    one of them. *)
Definition compare_and_apply_mask (predicate : SIMDComparison)
    (left right true_value false_value : R) : R :=
  if compare predicate left right then true_value else false_value.

(** Modelled from the spec: [positive_part] and [negative_part] of
    [simd.h], which is not part of the sources; the spec writes them
    [max(0, x)] and [max(0, -x)]. *)
Definition positive_part (number : R) : R := Rmax 0 number.
Definition negative_part (number : R) : R := Rmax 0 (- number).

(** Modelled from the spec: [ryujin::vec_pow] of [simd.h], which is not
    part of the sources: the lane-wise power [x^b] of a positive base. *)
Definition vec_pow (x b : R) : R := Rpower x b.

(** ** The Riemann solver of [namespace EulerAEOS] *)

(** [primitive_type], [std::array<Number, 5>] read through the
    structured binding [[rho, u, p, gamma, a]]. *)
Record primitive_type : Type := primitive {
  rho : R;
  u : R;
  p : R;
  gamma : R;
  a : R
}.

Module RiemannSolver.
Section RiemannSolver.

(** [hyperbolic_system.b_interp()], a run time constant of the
    hyperbolic system. *)
Variable b_interp : R.

Definition alpha (rho gamma a : R) : R :=
  let numerator := 2 * a * (1 - b_interp * rho) in
  let denominator := gamma - 1 in
  numerator / denominator.

Definition c (gamma_Z : R) : R :=
  let radicand := (3 * gamma_Z + 11) / (6 * (gamma_Z + 1)) in
  let false_value := sqrt radicand in
  let c_of_gamma :=
    compare_and_apply_mask less_than_or_equal gamma_Z (5 / 3) 1
      false_value in
  let true_value := (1 / 2) * sqrt 2 in
  compare_and_apply_mask greater_than_or_equal gamma_Z 3
    true_value c_of_gamma.

Definition p_star_RS_aeos (riemann_data_i riemann_data_j : primitive_type)
    : R :=
  let '(primitive rho_i u_i p_i gamma_i a_i) := riemann_data_i in
  let '(primitive rho_j u_j p_j gamma_j a_j) := riemann_data_j in
  let alpha_i := alpha rho_i gamma_i a_i in
  let alpha_j := alpha rho_j gamma_j a_j in
  let p_min := std_min p_i p_j in
  let p_max := std_max p_i p_j in
  let gamma_min := compare_and_apply_mask less_than p_i p_j gamma_i gamma_j in
  let gamma_max :=
    compare_and_apply_mask greater_than_or_equal p_i p_j gamma_i gamma_j in
  let alpha_min := compare_and_apply_mask less_than p_i p_j alpha_i alpha_j in
  let alpha_max :=
    compare_and_apply_mask greater_than_or_equal p_i p_j alpha_i alpha_j in
  let c_gamma_min := c gamma_min in
  let exp_min := 2 * gamma_min / (gamma_min - 1) in
  let exp_max := (gamma_max - 1) / (2 * gamma_max) in
  let numerator :=
    alpha_max * (1 - vec_pow (p_min / p_max) exp_max) - (u_j - u_i) in
  let denominator := c_gamma_min * alpha_min in
  let base := numerator / denominator + 1 in
  p_min * vec_pow base exp_min.

Definition p_star_SS_aeos (riemann_data_i riemann_data_j : primitive_type)
    : R :=
  let '(primitive rho_i u_i p_i gamma_i a_i) := riemann_data_i in
  let '(primitive rho_j u_j p_j gamma_j a_j) := riemann_data_j in
  let gamma_m := std_min gamma_i gamma_j in
  let alpha_hat_left := c gamma_i * alpha rho_i gamma_i a_i in
  let alpha_hat_right := c gamma_j * alpha rho_j gamma_j a_j in
  let exp := (gamma_m - 1) / (2 * gamma_m) in
  let exp_inv := 1 / exp in
  let numerator := alpha_hat_left + alpha_hat_right - (u_j - u_i) in
  let denominator :=
    alpha_hat_left * vec_pow p_i (- exp)
    + alpha_hat_right * vec_pow p_j (- exp) in
  let base := numerator / denominator in
  vec_pow base exp_inv.

Definition phi_of_p_max (riemann_data_i riemann_data_j : primitive_type)
    : R :=
  let '(primitive rho_i u_i p_i gamma_i a_i) := riemann_data_i in
  let '(primitive rho_j u_j p_j gamma_j a_j) := riemann_data_j in
  let p_max := std_max p_i p_j in
  let radicand_inverse_i :=
    (1 / 2) * rho_i / (1 - b_interp * rho_i)
    * ((gamma_i + 1) * p_max + (gamma_i - 1) * p_i) in
  let value_i := (p_max - p_i) / sqrt radicand_inverse_i in
  let radicand_jnverse_j :=
    (1 / 2) * rho_j / (1 - b_interp * rho_j)
    * ((gamma_j + 1) * p_max + (gamma_j - 1) * p_j) in
  let value_j := (p_max - p_j) / sqrt radicand_jnverse_j in
  value_i + value_j + u_j - u_i.

Definition lambda1_minus (riemann_data : primitive_type) (p_star : R) : R :=
  let '(primitive rho u p gamma a) := riemann_data in
  let factor := (1 / 2) * (gamma + 1) / gamma in
  let tmp := positive_part ((p_star - p) / p) in
  u - a * sqrt (1 + factor * tmp).

Definition lambda3_plus (riemann_data : primitive_type) (p_star : R) : R :=
  let '(primitive rho u p gamma a) := riemann_data in
  let factor := (1 / 2) * (gamma + 1) / gamma in
  let tmp := positive_part ((p_star - p) / p) in
  u + a * sqrt (1 + factor * tmp).

Definition compute_lambda (riemann_data_i riemann_data_j : primitive_type)
    (p_star : R) : R :=
  let nu_11 := lambda1_minus riemann_data_i p_star in
  let nu_32 := lambda3_plus riemann_data_j p_star in
  std_max (positive_part nu_32) (negative_part nu_11).

Definition compute (riemann_data_i riemann_data_j : primitive_type) : R :=
  let '(primitive rho_i u_i p_i gamma_i a_i) := riemann_data_i in
  let '(primitive rho_j u_j p_j gamma_j a_j) := riemann_data_j in
  let p_max := std_max p_i p_j in
  let phi_p_max := phi_of_p_max riemann_data_i riemann_data_j in
  let p_star_SS := p_star_SS_aeos riemann_data_i riemann_data_j in
  let p_star_RS := p_star_RS_aeos riemann_data_i riemann_data_j in
  let p_2 :=
    compare_and_apply_mask less_than phi_p_max 0 p_star_SS
      (std_min p_max p_star_RS) in
  compute_lambda riemann_data_i riemann_data_j p_2.

End RiemannSolver.
End RiemannSolver.

(** ** Checked evaluation of the Riemann solver

    The same statements, in the same order, with every division, square
    root and power returning [None] where the C++ operation has no real
    value: a zero denominator, a negative radicand, a base of a power
    that is not positive.  [None] is propagated to the result, so
    [compute] returning [Some v] says that every operation evaluated on
    the way, also those whose value the final mask discards, was
    defined. *)

Module Checked.

Definition bind {A B : Type} (m : option A) (k : A -> option B) : option B :=
  match m with
  | Some x => k x
  | None => None
  end.

Notation "x <- m ;; k" := (bind m (fun x => k))
  (at level 61, m at next level, right associativity).

Definition div (x y : R) : option R :=
  if Req_dec_T y 0 then None else Some (x / y).

Definition sqrt (x : R) : option R :=
  if Rle_dec 0 x then Some (R_sqrt.sqrt x) else None.

Definition vec_pow (x b : R) : option R :=
  if Rlt_dec 0 x then Some (Rpower x b) else None.

Section RiemannSolver.

Variable b_interp : R.

Definition alpha (rho gamma a : R) : option R :=
  let numerator := 2 * a * (1 - b_interp * rho) in
  let denominator := gamma - 1 in
  div numerator denominator.

Definition c (gamma_Z : R) : option R :=
  radicand <- div (3 * gamma_Z + 11) (6 * (gamma_Z + 1)) ;;
  false_value <- sqrt radicand ;;
  let c_of_gamma :=
    compare_and_apply_mask less_than_or_equal gamma_Z (5 / 3) 1 false_value in
  sqrt_2 <- sqrt 2 ;;
  let true_value := (1 / 2) * sqrt_2 in
  Some (compare_and_apply_mask greater_than_or_equal gamma_Z 3
          true_value c_of_gamma).

Definition p_star_RS_aeos (riemann_data_i riemann_data_j : primitive_type)
    : option R :=
  let '(primitive rho_i u_i p_i gamma_i a_i) := riemann_data_i in
  let '(primitive rho_j u_j p_j gamma_j a_j) := riemann_data_j in
  alpha_i <- alpha rho_i gamma_i a_i ;;
  alpha_j <- alpha rho_j gamma_j a_j ;;
  let p_min := std_min p_i p_j in
  let p_max := std_max p_i p_j in
  let gamma_min := compare_and_apply_mask less_than p_i p_j gamma_i gamma_j in
  let gamma_max :=
    compare_and_apply_mask greater_than_or_equal p_i p_j gamma_i gamma_j in
  let alpha_min := compare_and_apply_mask less_than p_i p_j alpha_i alpha_j in
  let alpha_max :=
    compare_and_apply_mask greater_than_or_equal p_i p_j alpha_i alpha_j in
  c_gamma_min <- c gamma_min ;;
  exp_min <- div (2 * gamma_min) (gamma_min - 1) ;;
  exp_max <- div (gamma_max - 1) (2 * gamma_max) ;;
  ratio <- div p_min p_max ;;
  power <- vec_pow ratio exp_max ;;
  let numerator := alpha_max * (1 - power) - (u_j - u_i) in
  let denominator := c_gamma_min * alpha_min in
  quotient <- div numerator denominator ;;
  let base := quotient + 1 in
  power_of_base <- vec_pow base exp_min ;;
  Some (p_min * power_of_base).

Definition p_star_SS_aeos (riemann_data_i riemann_data_j : primitive_type)
    : option R :=
  let '(primitive rho_i u_i p_i gamma_i a_i) := riemann_data_i in
  let '(primitive rho_j u_j p_j gamma_j a_j) := riemann_data_j in
  let gamma_m := std_min gamma_i gamma_j in
  c_i <- c gamma_i ;;
  alpha_i <- alpha rho_i gamma_i a_i ;;
  let alpha_hat_left := c_i * alpha_i in
  c_j <- c gamma_j ;;
  alpha_j <- alpha rho_j gamma_j a_j ;;
  let alpha_hat_right := c_j * alpha_j in
  exp <- div (gamma_m - 1) (2 * gamma_m) ;;
  exp_inv <- div 1 exp ;;
  let numerator := alpha_hat_left + alpha_hat_right - (u_j - u_i) in
  power_i <- vec_pow p_i (- exp) ;;
  power_j <- vec_pow p_j (- exp) ;;
  let denominator := alpha_hat_left * power_i + alpha_hat_right * power_j in
  base <- div numerator denominator ;;
  vec_pow base exp_inv.

Definition phi_of_p_max (riemann_data_i riemann_data_j : primitive_type)
    : option R :=
  let '(primitive rho_i u_i p_i gamma_i a_i) := riemann_data_i in
  let '(primitive rho_j u_j p_j gamma_j a_j) := riemann_data_j in
  let p_max := std_max p_i p_j in
  quotient_i <- div ((1 / 2) * rho_i) (1 - b_interp * rho_i) ;;
  let radicand_inverse_i :=
    quotient_i * ((gamma_i + 1) * p_max + (gamma_i - 1) * p_i) in
  root_i <- sqrt radicand_inverse_i ;;
  value_i <- div (p_max - p_i) root_i ;;
  quotient_j <- div ((1 / 2) * rho_j) (1 - b_interp * rho_j) ;;
  let radicand_jnverse_j :=
    quotient_j * ((gamma_j + 1) * p_max + (gamma_j - 1) * p_j) in
  root_j <- sqrt radicand_jnverse_j ;;
  value_j <- div (p_max - p_j) root_j ;;
  Some (value_i + value_j + u_j - u_i).

Definition lambda1_minus (riemann_data : primitive_type) (p_star : R)
    : option R :=
  let '(primitive rho u p gamma a) := riemann_data in
  factor <- div ((1 / 2) * (gamma + 1)) gamma ;;
  quotient <- div (p_star - p) p ;;
  let tmp := positive_part quotient in
  root <- sqrt (1 + factor * tmp) ;;
  Some (u - a * root).

Definition lambda3_plus (riemann_data : primitive_type) (p_star : R)
    : option R :=
  let '(primitive rho u p gamma a) := riemann_data in
  factor <- div ((1 / 2) * (gamma + 1)) gamma ;;
  quotient <- div (p_star - p) p ;;
  let tmp := positive_part quotient in
  root <- sqrt (1 + factor * tmp) ;;
  Some (u + a * root).

Definition compute_lambda (riemann_data_i riemann_data_j : primitive_type)
    (p_star : R) : option R :=
  nu_11 <- lambda1_minus riemann_data_i p_star ;;
  nu_32 <- lambda3_plus riemann_data_j p_star ;;
  Some (std_max (positive_part nu_32) (negative_part nu_11)).

Definition compute (riemann_data_i riemann_data_j : primitive_type)
    : option R :=
  let '(primitive rho_i u_i p_i gamma_i a_i) := riemann_data_i in
  let '(primitive rho_j u_j p_j gamma_j a_j) := riemann_data_j in
  let p_max := std_max p_i p_j in
  phi_p_max <- phi_of_p_max riemann_data_i riemann_data_j ;;
  p_star_SS <- p_star_SS_aeos riemann_data_i riemann_data_j ;;
  p_star_RS <- p_star_RS_aeos riemann_data_i riemann_data_j ;;
  let p_2 :=
    compare_and_apply_mask less_than phi_p_max 0 p_star_SS
      (std_min p_max p_star_RS) in
  compute_lambda riemann_data_i riemann_data_j p_2.

End RiemannSolver.
End Checked.

(** ** The Riemann solver in the words of the specification

    The star pressure selection and the final bound as the
    specification states them, to be compared with [RiemannSolver]. *)

Module SpecWords.

Definition lambda1_minus (s : primitive_type) (p_star : R) : R :=
  u s - a s * sqrt (1 + ((gamma s + 1) / (2 * gamma s))
                         * Rmax 0 ((p_star - p s) / p s)).

Definition lambda3_plus (s : primitive_type) (p_star : R) : R :=
  u s + a s * sqrt (1 + ((gamma s + 1) / (2 * gamma s))
                         * Rmax 0 ((p_star - p s) / p s)).

Definition compute_lambda (i j : primitive_type) (p_star : R) : R :=
  Rmax (Rmax 0 (lambda3_plus j p_star)) (Rmax 0 (- lambda1_minus i p_star)).

Definition p_2 (b_interp : R) (i j : primitive_type) : R :=
  if Rlt_dec (RiemannSolver.phi_of_p_max b_interp i j) 0
  then RiemannSolver.p_star_SS_aeos b_interp i j
  else Rmin (Rmax (p i) (p j)) (RiemannSolver.p_star_RS_aeos b_interp i j).

(** The piecewise correction coefficient. *)
Definition c (gamma : R) : R :=
  if Rle_dec gamma (5 / 3) then 1
  else if Rle_dec 3 gamma then sqrt 2 / 2
  else sqrt ((3 * gamma + 11) / (6 * (gamma + 1))).

End SpecWords.

(** The data model's invariants of a primitive state. *)
Definition admissible (s : primitive_type) : Prop :=
  0 < rho s /\ 0 < p s /\ 1 <= gamma s /\ 0 < a s.

(** A state with the sign of the velocity flipped. *)
Definition mirror (s : primitive_type) : primitive_type :=
  primitive (rho s) (- u s) (p s) (gamma s) (a s).

(** The closed interval on which the correction coefficient varies. *)
Definition transition_interval (x : R) : Prop := 5 / 3 <= x <= 3.

(** The bases of the two powers of [p_star_RS_aeos] and [p_star_SS_aeos]
    whose exponents are not fixed by the pressures alone. *)
Definition p_star_RS_base (b_interp : R) (i j : primitive_type) : R :=
  let alpha_i := RiemannSolver.alpha b_interp (rho i) (gamma i) (a i) in
  let alpha_j := RiemannSolver.alpha b_interp (rho j) (gamma j) (a j) in
  let p_min := std_min (p i) (p j) in
  let p_max := std_max (p i) (p j) in
  let gamma_min :=
    compare_and_apply_mask less_than (p i) (p j) (gamma i) (gamma j) in
  let gamma_max :=
    compare_and_apply_mask greater_than_or_equal (p i) (p j)
      (gamma i) (gamma j) in
  let alpha_min :=
    compare_and_apply_mask less_than (p i) (p j) alpha_i alpha_j in
  let alpha_max :=
    compare_and_apply_mask greater_than_or_equal (p i) (p j)
      alpha_i alpha_j in
  let exp_max := (gamma_max - 1) / (2 * gamma_max) in
  (alpha_max * (1 - vec_pow (p_min / p_max) exp_max) - (u j - u i))
  / (RiemannSolver.c gamma_min * alpha_min) + 1.

Definition p_star_SS_numerator (b_interp : R) (i j : primitive_type) : R :=
  RiemannSolver.c (gamma i)
  * RiemannSolver.alpha b_interp (rho i) (gamma i) (a i)
  + RiemannSolver.c (gamma j)
    * RiemannSolver.alpha b_interp (rho j) (gamma j) (a j)
  - (u j - u i).

(** Where every operation of [compute] has a value, for admissible
    states. *)
Definition well_defined (b_interp : R) (i j : primitive_type) : Prop :=
  gamma i <> 1 /\ gamma j <> 1
  /\ 0 < 1 - b_interp * rho i /\ 0 < 1 - b_interp * rho j
  /\ 0 < p_star_SS_numerator b_interp i j
  /\ 0 < p_star_RS_base b_interp i j.

(** ** Binary64 evaluation of the Riemann solver

    The statements of the solver once more with [Number = double]:
    every operation is the IEEE 754 binary64 operation, rounded to
    nearest, in the order in which the C++ expression evaluates, so that
    [x * y / z * w] is [((x * y) / z) * w] and the sum
    [value_i + value_j + u_j - u_i] of [phi_of_p_max] is
    [((value_i + value_j) + u_j) - u_i]. *)

Module Binary64.
Import PrimFloat.
Local Open Scope float_scope.

(** [primitive_type] with [Number = double]. *)
Record primitive_type : Set := primitive {
  rho : float;
  u : float;
  p : float;
  gamma : float;
  a : float
}.

(** [std::min(a, b)] is [(b < a) ? b : a], [std::max(a, b)] is
    [(a < b) ? b : a]. *)
Definition std_min (x y : float) : float := if y <? x then y else x.
Definition std_max (x y : float) : float := if x <? y then y else x.

Definition compare (predicate : SIMDComparison) (left right : float) : bool :=
  match predicate with
  | equal => left =? right
  | not_equal => negb (left =? right)
  | greater_than => right <? left
  | greater_than_or_equal => right <=? left
  | less_than => left <? right
  | less_than_or_equal => left <=? right
  end.

Definition compare_and_apply_mask (predicate : SIMDComparison)
    (left right true_value false_value : float) : float :=
  if compare predicate left right then true_value else false_value.

(** Modelled from the spec: [positive_part] and [negative_part] of
    [simd.h], which is not part of the sources; the spec writes them
    [max(0, x)] and [max(0, -x)]. *)
Definition positive_part (number : float) : float := std_max 0 number.
Definition negative_part (number : float) : float := std_max 0 (- number).

(** Modelled from the spec: the lane-wise power [x^b] at the exponents
    the solver forms for [gamma = 2], which are [1 / 4], [- 1 / 4] and
    [4] and no others.  Binary64 has no primitive power; at these
    exponents the power is two square roots, their reciprocal, or two
    squarings, each rounded to nearest: exact whenever the power is a
    binary64 number, and within a few units in the last place of the
    exact power otherwise.  At any other exponent the model has no
    value. *)
Definition quarter_power (x b : float) : float :=
  if b =? 0.25 then sqrt (sqrt x)
  else if b =? -0.25 then 1 / sqrt (sqrt x)
  else if b =? 4 then (x * x) * (x * x)
  else nan.

Section RiemannSolver.

(** [ryujin::vec_pow] of [simd.h], which is not part of the sources, is
    a parameter of the evaluation. *)
Variable vec_pow : float -> float -> float.

(** [hyperbolic_system.b_interp()]. *)
Variable b_interp : float.

Definition alpha (rho gamma a : float) : float :=
  let numerator := 2 * a * (1 - b_interp * rho) in
  let denominator := gamma - 1 in
  numerator / denominator.

Definition c (gamma_Z : float) : float :=
  let radicand := (3 * gamma_Z + 11) / (6 * (gamma_Z + 1)) in
  let false_value := sqrt radicand in
  let c_of_gamma :=
    compare_and_apply_mask less_than_or_equal gamma_Z (5 / 3) 1
      false_value in
  let true_value := 0.5 * sqrt 2 in
  compare_and_apply_mask greater_than_or_equal gamma_Z 3
    true_value c_of_gamma.

Definition p_star_RS_aeos (riemann_data_i riemann_data_j : primitive_type)
    : float :=
  let '(primitive rho_i u_i p_i gamma_i a_i) := riemann_data_i in
  let '(primitive rho_j u_j p_j gamma_j a_j) := riemann_data_j in
  let alpha_i := alpha rho_i gamma_i a_i in
  let alpha_j := alpha rho_j gamma_j a_j in
  let p_min := std_min p_i p_j in
  let p_max := std_max p_i p_j in
  let gamma_min := compare_and_apply_mask less_than p_i p_j gamma_i gamma_j in
  let gamma_max :=
    compare_and_apply_mask greater_than_or_equal p_i p_j gamma_i gamma_j in
  let alpha_min := compare_and_apply_mask less_than p_i p_j alpha_i alpha_j in
  let alpha_max :=
    compare_and_apply_mask greater_than_or_equal p_i p_j alpha_i alpha_j in
  let c_gamma_min := c gamma_min in
  let exp_min := 2 * gamma_min / (gamma_min - 1) in
  let exp_max := (gamma_max - 1) / (2 * gamma_max) in
  let numerator :=
    alpha_max * (1 - vec_pow (p_min / p_max) exp_max) - (u_j - u_i) in
  let denominator := c_gamma_min * alpha_min in
  let base := numerator / denominator + 1 in
  p_min * vec_pow base exp_min.

Definition p_star_SS_aeos (riemann_data_i riemann_data_j : primitive_type)
    : float :=
  let '(primitive rho_i u_i p_i gamma_i a_i) := riemann_data_i in
  let '(primitive rho_j u_j p_j gamma_j a_j) := riemann_data_j in
  let gamma_m := std_min gamma_i gamma_j in
  let alpha_hat_left := c gamma_i * alpha rho_i gamma_i a_i in
  let alpha_hat_right := c gamma_j * alpha rho_j gamma_j a_j in
  let exp := (gamma_m - 1) / (2 * gamma_m) in
  let exp_inv := 1 / exp in
  let numerator := alpha_hat_left + alpha_hat_right - (u_j - u_i) in
  let denominator :=
    alpha_hat_left * vec_pow p_i (- exp)
    + alpha_hat_right * vec_pow p_j (- exp) in
  let base := numerator / denominator in
  vec_pow base exp_inv.

Definition phi_of_p_max (riemann_data_i riemann_data_j : primitive_type)
    : float :=
  let '(primitive rho_i u_i p_i gamma_i a_i) := riemann_data_i in
  let '(primitive rho_j u_j p_j gamma_j a_j) := riemann_data_j in
  let p_max := std_max p_i p_j in
  let radicand_inverse_i :=
    0.5 * rho_i / (1 - b_interp * rho_i)
    * ((gamma_i + 1) * p_max + (gamma_i - 1) * p_i) in
  let value_i := (p_max - p_i) / sqrt radicand_inverse_i in
  let radicand_jnverse_j :=
    0.5 * rho_j / (1 - b_interp * rho_j)
    * ((gamma_j + 1) * p_max + (gamma_j - 1) * p_j) in
  let value_j := (p_max - p_j) / sqrt radicand_jnverse_j in
  value_i + value_j + u_j - u_i.

Definition lambda1_minus (riemann_data : primitive_type) (p_star : float)
    : float :=
  let '(primitive rho u p gamma a) := riemann_data in
  let factor := 0.5 * (gamma + 1) / gamma in
  let tmp := positive_part ((p_star - p) / p) in
  u - a * sqrt (1 + factor * tmp).

Definition lambda3_plus (riemann_data : primitive_type) (p_star : float)
    : float :=
  let '(primitive rho u p gamma a) := riemann_data in
  let factor := 0.5 * (gamma + 1) / gamma in
  let tmp := positive_part ((p_star - p) / p) in
  u + a * sqrt (1 + factor * tmp).

Definition compute_lambda (riemann_data_i riemann_data_j : primitive_type)
    (p_star : float) : float :=
  let nu_11 := lambda1_minus riemann_data_i p_star in
  let nu_32 := lambda3_plus riemann_data_j p_star in
  std_max (positive_part nu_32) (negative_part nu_11).

Definition compute (riemann_data_i riemann_data_j : primitive_type) : float :=
  let '(primitive rho_i u_i p_i gamma_i a_i) := riemann_data_i in
  let '(primitive rho_j u_j p_j gamma_j a_j) := riemann_data_j in
  let p_max := std_max p_i p_j in
  let phi_p_max := phi_of_p_max riemann_data_i riemann_data_j in
  let p_star_SS := p_star_SS_aeos riemann_data_i riemann_data_j in
  let p_star_RS := p_star_RS_aeos riemann_data_i riemann_data_j in
  let p_2 :=
    compare_and_apply_mask less_than phi_p_max 0 p_star_SS
      (std_min p_max p_star_RS) in
  compute_lambda riemann_data_i riemann_data_j p_2.

End RiemannSolver.

(** The data model's invariants of a primitive state, decided. *)
Definition admissible (s : primitive_type) : bool :=
  (0 <? rho s) && (0 <? p s) && (1 <=? gamma s) && (0 <? a s).

(** A state with the sign of the velocity flipped. *)
Definition mirror (s : primitive_type) : primitive_type :=
  primitive (rho s) (- u s) (p s) (gamma s) (a s).

End Binary64.

(** ** The extremum reduction of [Postprocessor::compute]

    Step 2 of [compute]: every thread folds the quantity of the nodes of
    its subrange into a private variable, merges it into the shared
    atomic with a compare-and-exchange loop, and the ranks combine their
    shared values with an MPI collective. *)

Module Reduction.

(** [Number] together with [std::numeric_limits<Number>::infinity()],
    the initial value of the lower bounds. *)
Inductive Number : Type :=
| finite (x : R)
| infinity.

(** [operator<]. *)
Definition less (x y : Number) : bool :=
  match x, y with
  | finite x', finite y' => Rltb x' y'
  | finite _, infinity => true
  | infinity, _ => false
  end.

Definition max (x y : Number) : Number := if less x y then y else x.
Definition min (x y : Number) : Number := if less y x then y else x.

(** The two kinds of reduction variable: [r_i_max], [v_i_max] and
    [r_i_min], [v_i_min]. *)
Inductive Extremum : Type :=
| upper
| lower.

(** The value the atomic and the private variable start from. *)
Definition initial (e : Extremum) : Number :=
  match e with
  | upper => finite 0
  | lower => infinity
  end.

(** [x_on_subrange = std::max(x_on_subrange, quantity)], resp.
    [std::min]. *)
Definition update (e : Extremum) (on_subrange quantity : Number) : Number :=
  match e with
  | upper => max on_subrange quantity
  | lower => min on_subrange quantity
  end.

(** The guard of the synchronisation loop: [temp < x_on_subrange],
    resp. [temp > x_on_subrange]. *)
Definition improves (e : Extremum) (temp on_subrange : Number) : bool :=
  match e with
  | upper => less temp on_subrange
  | lower => less on_subrange temp
  end.

(** The private fold of one thread over the quantities of its nodes. *)
Definition on_subrange (e : Extremum) (quantities : list Number) : Number :=
  fold_left (update e) quantities (initial e).

(** Where a thread is in
    [temp = x.load();
     while (temp < local && !x.compare_exchange_weak(temp, local));]. *)
Inductive position : Type :=
| before_load
| in_loop (temp : Number)
| done.

Record thread : Type := { value : Number; at_ : position }.

Record configuration : Type := { shared : Number; threads : list thread }.

(** One atomic action of one thread, the others interleaving freely.
    A failed [compare_exchange_weak] (the atomic differs from [temp], or
    the exchange fails spuriously) stores the current value of the
    atomic in [temp]. *)
Inductive step (e : Extremum) : configuration -> configuration -> Prop :=
| step_load : forall s before v after,
    step e
      {| shared := s;
         threads := before ++ {| value := v; at_ := before_load |} :: after |}
      {| shared := s;
         threads := before ++ {| value := v; at_ := in_loop s |} :: after |}
| step_leave : forall s before v temp after,
    improves e temp v = false ->
    step e
      {| shared := s;
         threads := before ++ {| value := v; at_ := in_loop temp |} :: after |}
      {| shared := s;
         threads := before ++ {| value := v; at_ := done |} :: after |}
| step_exchange : forall s before v after,
    improves e s v = true ->
    step e
      {| shared := s;
         threads := before ++ {| value := v; at_ := in_loop s |} :: after |}
      {| shared := v;
         threads := before ++ {| value := v; at_ := done |} :: after |}
| step_retry : forall s before v temp after,
    improves e temp v = true ->
    step e
      {| shared := s;
         threads := before ++ {| value := v; at_ := in_loop temp |} :: after |}
      {| shared := s;
         threads := before ++ {| value := v; at_ := in_loop s |} :: after |}.

Inductive run (e : Extremum) : configuration -> configuration -> Prop :=
| run_stop : forall c, run e c c
| run_step : forall c c' c'', step e c c' -> run e c' c'' -> run e c c''.

Definition start (e : Extremum) (locals : list Number) : configuration :=
  {| shared := initial e;
     threads := map (fun v => {| value := v; at_ := before_load |}) locals |}.

Definition finished (c : configuration) : Prop :=
  Forall (fun t => at_ t = done) (threads c).

(** The value of the atomic of one rank once all its threads have left
    the parallel region; [subranges] lists, thread by thread, the
    quantities in the order the thread visits them. *)
Definition rank_result (e : Extremum) (subranges : list (list Number))
    (r : Number) : Prop :=
  exists c,
    run e (start e (map (on_subrange e) subranges)) c
    /\ finished c /\ shared c = r.

(** [Utilities::MPI::max], resp. [min]: the contributions of the ranks
    combined pairwise along any tree, in any order. *)
Inductive collective (e : Extremum) : list Number -> Number -> Prop :=
| collective_one : forall x, collective e [x] x
| collective_merge : forall l1 l2 l x y,
    collective e l1 x -> collective e l2 y ->
    Permutation (l1 ++ l2) l ->
    collective e l (update e x y).

(** The whole reduction; [ranks] lists, rank by rank and thread by
    thread, the quantities of the nodes. *)
Definition reduction (e : Extremum) (ranks : list (list (list Number)))
    (r : Number) : Prop :=
  exists contributions,
    Forall2 (rank_result e) ranks contributions
    /\ collective e contributions r.

(** The plain maximum, resp. minimum, of a list of values. *)
Fixpoint extremum (e : Extremum) (values : list Number) : option Number :=
  match values with
  | [] => None
  | x :: rest =>
      match extremum e rest with
      | None => Some x
      | Some m => Some (update e x m)
      end
  end.

(** [x] is no better than [y]: not larger for an upper, not smaller for
    a lower bound. *)
Definition no_better (e : Extremum) (x y : Number) : Prop :=
  improves e y x = false.

(** [r] is one of [values] and none of them is better. *)
Definition is_extremum (e : Extremum) (values : list Number) (r : Number)
    : Prop :=
  In r values /\ Forall (fun v => no_better e v r) values.

(** [r] is the best of the start value [s] and of [values]. *)
Definition best_of (e : Extremum) (s : Number) (values : list Number)
    (r : Number) : Prop :=
  (r = s \/ In r values)
  /\ no_better e s r
  /\ Forall (fun v => no_better e v r) values.

(** What holds of every configuration a run from [start] reaches. *)
Definition invariant (e : Extremum) (s : Number) (locals : list Number)
    (c : configuration) : Prop :=
  (shared c = s \/ In (shared c) locals)
  /\ no_better e s (shared c)
  /\ map value (threads c) = locals
  /\ Forall (fun t => match at_ t with
                      | before_load => True
                      | in_loop temp => no_better e temp (shared c)
                      | done => no_better e (value t) (shared c)
                      end) (threads c).

(** A sequential schedule: the threads merge one after the other. *)
Definition merge_sequentially (e : Extremum) (locals : list Number) : Number :=
  fold_left (update e) locals (initial e).

End Reduction.

(** ** The time integrator

    [time_integrator.h] declares the run time options [cfl_min_],
    [cfl_max_], [cfl_recovery_strategy_] and [time_stepping_scheme_] and
    the member functions [step], [step_ssprk_33], [step_erk_33] and
    [step_erk_43]; their bodies are not part of the sources. *)

Module TimeIntegrator.

Record StepContext : Type := {
  cfl_min_ : R;
  cfl_max_ : R;
  cfl_recovery_strategy_ : CFLRecoveryStrategy;
  time_stepping_scheme_ : TimeSteppingScheme
}.

Section TimeIntegrator.

Variable vector_type : Type.

(** What one call of the advance operation returns: the advanced stage
    state, the step size admissible for the stage and the
    invariant-domain-violation flag. *)
Record advanced : Type := {
  U_out : vector_type;
  tau_actual : R;
  violated : bool
}.

(** Modelled from the spec: the advance operation of the hyperbolic
    module, [advance(U_in, tau_trial, cfl_trial)], a pure function of its
    arguments. *)
Variable advance : vector_type -> R -> R -> advanced.

(** Modelled from the spec: the state and the trial step size a scheme
    hands to its next stage, from the state [U] the step started from,
    the time [t] and the results of the earlier stages (the combination
    the stage coefficients of the tableau prescribe). *)
Variable stage_input :
  TimeSteppingScheme -> vector_type -> R -> list advanced -> vector_type * R.

(** Modelled from the spec: the final combination of a scheme, the new
    state and the step size of the whole step. *)
Variable final_combination :
  TimeSteppingScheme -> vector_type -> R -> list advanced -> vector_type * R.

(** One complete attempt at a step. *)
Record attempt : Type := {
  trial_cfl : R;
  started_from : vector_type;
  stages : list advanced;
  new_state : vector_type;
  step_size : R;
  violation : bool
}.

(** Modelled from the spec: the stages of a scheme, each one call of
    [advance] with the trial CFL number of the attempt. *)
Fixpoint run_stages (scheme : TimeSteppingScheme) (cfl : R)
    (U : vector_type) (t : R) (remaining : nat) (results : list advanced)
    : list advanced :=
  match remaining with
  | O => results
  | S remaining' =>
      let '(U_in, tau_trial) := stage_input scheme U t results in
      run_stages scheme cfl U t remaining'
        (results ++ [advance U_in tau_trial cfl])
  end.

(** Modelled from the spec: [step_ssprk_33], [step_erk_33] and
    [step_erk_43], the dispatch target of [step]: all stages of the
    scheme from [U], then the final combination; a violation in any
    stage is a violation of the attempt. *)
Definition single_step (scheme : TimeSteppingScheme) (cfl : R)
    (U : vector_type) (t : R) : attempt :=
  let results := run_stages scheme cfl U t (number_of_stages scheme) [] in
  let '(U_new, tau) := final_combination scheme U t results in
  {| trial_cfl := cfl;
     started_from := U;
     stages := results;
     new_state := U_new;
     step_size := tau;
     violation := existsb violated results |}.

(** What [step] leaves behind: the state stored in [U], the returned
    step size, whether the accepted state violates the invariant domain,
    whether a warning was emitted, and the attempts made, oldest
    first. *)
Record outcome : Type := {
  U_new : vector_type;
  tau : R;
  violation_observed : bool;
  warning : bool;
  attempts : list attempt
}.

Definition accept (last : attempt) (warn : bool) (all : list attempt)
    : outcome :=
  {| U_new := new_state last;
     tau := step_size last;
     violation_observed := violation last;
     warning := warn;
     attempts := all |}.

(** Modelled from the spec: [TimeIntegrator::step], the recovery
    protocol of section 4.4. *)
Definition step (context : StepContext) (U : vector_type) (t : R) : outcome :=
  let scheme := time_stepping_scheme_ context in
  let first := single_step scheme (cfl_max_ context) U t in
  match cfl_recovery_strategy_ context with
  | none => accept first false [first]
  | bang_bang_control =>
      if violation first then
        let second := single_step scheme (cfl_min_ context) U t in
        accept second (violation second) [first; second]
      else accept first false [first]
  end.

(** Every stage of an attempt is one call of [advance] with the trial
    CFL number of the attempt. *)
Definition stage_of (cfl : R) (r : advanced) : Prop :=
  exists U_in tau_trial, r = advance U_in tau_trial cfl.

(** An attempt is a whole step: it starts from the state it was given,
    runs every stage of the scheme, each with its trial CFL number. *)
Definition whole_step (scheme : TimeSteppingScheme) (U : vector_type)
    (t : R) (a : attempt) : Prop :=
  a = single_step scheme (trial_cfl a) U t
  /\ started_from a = U
  /\ length (stages a) = number_of_stages scheme
  /\ Forall (stage_of (trial_cfl a)) (stages a).

End TimeIntegrator.

Arguments U_out {vector_type}.
Arguments tau_actual {vector_type}.
Arguments violated {vector_type}.
Arguments trial_cfl {vector_type}.
Arguments started_from {vector_type}.
Arguments stages {vector_type}.
Arguments new_state {vector_type}.
Arguments step_size {vector_type}.
Arguments violation {vector_type}.
Arguments U_new {vector_type}.
Arguments tau {vector_type}.
Arguments violation_observed {vector_type}.
Arguments warning {vector_type}.
Arguments attempts {vector_type}.
Arguments accept {vector_type}.
Arguments stage_of {vector_type}.
Arguments whole_step {vector_type}.

(** A stub of the advance operation on a one-component state: a stage
    adds the trial CFL number to the state and reports a violation
    exactly for trial CFL numbers above one half. *)
Definition stub_advance (U_in tau_trial cfl_trial : R) : advanced R :=
  {| U_out := U_in + cfl_trial;
     tau_actual := cfl_trial;
     violated := Rltb (1 / 2) cfl_trial |}.

Definition stub_stage_input (scheme : TimeSteppingScheme) (U t : R)
    (results : list (advanced R)) : R * R :=
  (last (map U_out results) U, 0).

Definition stub_final_combination (scheme : TimeSteppingScheme) (U t : R)
    (results : list (advanced R)) : R * R :=
  (last (map U_out results) U, last (map tau_actual results) 0).

Definition stub_step (context : StepContext) (U t : R) : outcome R :=
  step R stub_advance stub_stage_input stub_final_combination context U t.

Definition stub_context (strategy : CFLRecoveryStrategy) : StepContext :=
  {| cfl_min_ := 1 / 4;
     cfl_max_ := 1;
     cfl_recovery_strategy_ := strategy;
     time_stepping_scheme_ := ssprk_33 |}.

End TimeIntegrator.

(** ** Order conditions of a Butcher tableau *)

(** Sum of the products of two lists of rationals, entry by entry up to
    the end of the shorter one. *)
Fixpoint Qdot (x y : list Q) : Q :=
  match x, y with
  | a :: x', b :: y' => (a * b + Qdot x' y')%Q
  | _, _ => 0%Q
  end.

(** The node of every stage is the sum of its row of coefficients. *)
Definition row_sums_match (t : ButcherTableau) : bool :=
  forallb (fun '(row, node) => Qeq_bool (fold_right Qplus 0%Q row) node)
    (combine (stage_coefficients t) (nodes t)).

(** No stage uses itself or a later stage: in row [i] (counted from 0)
    every entry from position [i] on is zero. *)
Fixpoint explicit_from (i : nat) (rows : list (list Q)) : bool :=
  match rows with
  | [] => true
  | row :: rest =>
      forallb (fun a => Qeq_bool a 0) (skipn i row)
      && explicit_from (S i) rest
  end.

(** The conditions for order one, two and three:
    [sum b = 1], [sum b c = 1/2], [sum b c^2 = 1/3] and
    [sum b (A c) = 1/6]. *)
Definition third_order (t : ButcherTableau) : bool :=
  let b := final_weights t in
  let c := nodes t in
  let A := stage_coefficients t in
  Qeq_bool (fold_right Qplus 0%Q b) 1
  && Qeq_bool (Qdot b c) (1 # 2)
  && Qeq_bool (Qdot b (map (fun x => x * x)%Q c)) (1 # 3)
  && Qeq_bool (Qdot b (map (fun row => Qdot row c) A)) (1 # 6).

(** ** [Tensor<1, dim, Number>] and [Point<dim>] *)

Module Tensor.

Definition t : Type := list R.

(** A value-initialised tensor. *)
Definition zero (dim : nat) : t := repeat 0 dim.

Fixpoint zip_with (f : R -> R -> R) (x y : t) : t :=
  match x, y with
  | a :: x', b :: y' => f a b :: zip_with f x' y'
  | _, _ => []
  end.

Definition add (x y : t) : t := zip_with Rplus x y.
Definition sub (x y : t) : t := zip_with Rminus x y.

(** [k * x] and [x * k] for a scalar [k]. *)
Definition scale (k : R) (x : t) : t := map (fun a => k * a) x.
Definition times (x : t) (k : R) : t := map (fun a => a * k) x.

(** [x * y], the contraction of two tensors of rank one. *)
Fixpoint dot (x y : t) : R :=
  match x, y with
  | a :: x', b :: y' => a * b + dot x' y'
  | _, _ => 0
  end.

Definition norm (x : t) : R := sqrt (dot x x).

End Tensor.

(** ** [Postprocessor]: the schlieren quantity and the output filter

    Of the quantities of [compute] the schlieren quantity [r_i] is
    modelled, from the density gradient to the exponential scale; the
    vorticity [v_i] goes through the same reduction and the same scale
    and is left out, its cross products being defined outside the
    sources. *)

Module Postprocessor.

(** What step 2 of [compute] reads at one node [i]: for every column
    but the diagonal the entry [c_ij] and the density [U_j[0]], the entry
    of [boundary_normal_map] if there is one (the normal, and whether the
    id is [Boundary::slip]), and the lumped mass [m_i]. *)
Record node : Type := {
  off_diagonal : list (Tensor.t * R);
  boundary : option (Tensor.t * bool);
  lumped_mass : R
}.

(** [sparsity_simd.row_length(i)]: the diagonal and the other columns. *)
Definition row_length (n : node) : nat := S (length (off_diagonal n)).

(** The loop over the columns: [grad_rho_i += c_ij * U_j[0]]. *)
Definition accumulate_gradient (dim : nat) (columns : list (Tensor.t * R))
    : Tensor.t :=
  fold_left (fun grad_rho_i '(c_ij, rho_j) =>
               Tensor.add grad_rho_i (Tensor.times c_ij rho_j))
    columns (Tensor.zero dim).

(** "Fix up boundaries". *)
Definition fix_up_boundary (bnm : option (Tensor.t * bool))
    (grad_rho_i : Tensor.t) : Tensor.t :=
  match bnm with
  | None => grad_rho_i
  | Some (normal, id_is_slip) =>
      if id_is_slip
      then Tensor.sub grad_rho_i
             (Tensor.scale (1 * Tensor.dot grad_rho_i normal) normal)
      else Tensor.zero (length grad_rho_i)
  end.

(** [quantities[0]] of a node that is not skipped. *)
Definition schlieren (dim : nat) (n : node) : R :=
  let grad_rho_i :=
    fix_up_boundary (boundary n) (accumulate_gradient dim (off_diagonal n)) in
  Tensor.norm grad_rho_i / lumped_mass n.

(** The quantities one thread feeds into its private extrema: those of
    the nodes of its subrange that are not constrained
    ([row_length == 1] is skipped), in the order of the loop. *)
Definition quantities_on_subrange (dim : nat) (subrange : list node)
    : list Reduction.Number :=
  map (fun n => Reduction.finite (schlieren dim n))
    (filter (fun n => negb (Nat.eqb (row_length n) 1)) subrange).

(** The body of the loop of step 2 for [r_i]: the private maximum and
    minimum after one more node. *)
Definition visit (dim : nat)
    (on_subrange : Reduction.Number * Reduction.Number) (n : node)
    : Reduction.Number * Reduction.Number :=
  if Nat.eqb (row_length n) 1 then on_subrange
  else
    let quantity := Reduction.finite (schlieren dim n) in
    (Reduction.max (fst on_subrange) quantity,
     Reduction.min (snd on_subrange) quantity).

Definition visit_subrange (dim : nat) (subrange : list node)
    : Reduction.Number * Reduction.Number :=
  fold_left (visit dim) subrange
    (Reduction.initial Reduction.upper, Reduction.initial Reduction.lower).

(** Step 3: [r_i = 1 - exp (- beta * (r_i - r_i_min)
    / (r_i_max - r_i_min))]. *)
Definition normalize (beta r_i r_i_min r_i_max : R) : R :=
  1 - exp (- beta * (r_i - r_i_min) / (r_i_max - r_i_min)).

(** Step 3 with the division checked. *)
Definition normalize_checked (beta r_i r_i_min r_i_max : R) : option R :=
  Checked.bind
    (Checked.div (- beta * (r_i - r_i_min)) (r_i_max - r_i_min))
    (fun quotient => Some (1 - exp quotient)).

(** A cell as the output filter of [write_out_vtu] sees it. *)
Record cell : Type := {
  is_active : bool;
  is_artificial : bool;
  vertices : list Tensor.t
}.

(** An entry of [output_planes_]: [origin, normal, tolerance]. *)
Record plane : Type := {
  origin : Tensor.t;
  normal : Tensor.t;
  tolerance : R
}.

Definition distance (pl : plane) (vertex : Tensor.t) : R :=
  Tensor.dot (Tensor.sub vertex (origin pl)) (normal pl).

(** The loop over the vertices of a cell for one plane, from the
    counters [above] and [below]. *)
Fixpoint scan_vertices (pl : plane) (vs : list Tensor.t)
    (above below : nat) : bool :=
  match vs with
  | [] => false
  | vertex :: rest =>
      let above :=
        if Rltb (- tolerance pl) (distance pl vertex)
        then S above else above in
      let below :=
        if Rltb (distance pl vertex) (tolerance pl)
        then S below else below in
      if Nat.ltb 0 above && Nat.ltb 0 below then true
      else scan_vertices pl rest above below
  end.

(** The loop over the planes. *)
Fixpoint scan_planes (planes : list plane) (c : cell) : bool :=
  match planes with
  | [] => false
  | pl :: rest =>
      if scan_vertices pl (vertices c) 0 0 then true
      else scan_planes rest c
  end.

(** The function handed to [set_cell_selection]. *)
Definition cell_selection (output_planes_ : list plane) (c : cell) : bool :=
  if negb (is_active c) || is_artificial c then false
  else if Nat.eqb (length output_planes_) 0 then true
  else scan_planes output_planes_ c.

(** A vertex lies above the lower face of the slab of a plane, resp.
    below its upper face. *)
Definition above_lower_face (pl : plane) (vertex : Tensor.t) : Prop :=
  - tolerance pl < distance pl vertex.

Definition below_upper_face (pl : plane) (vertex : Tensor.t) : Prop :=
  distance pl vertex < tolerance pl.

(** The slab of a plane crosses a cell: some vertex lies above its lower
    face and some vertex below its upper face. *)
Definition crosses (pl : plane) (c : cell) : Prop :=
  (exists v, In v (vertices c) /\ above_lower_face pl v)
  /\ (exists v, In v (vertices c) /\ below_upper_face pl v).

End Postprocessor.

(** * Theorems *)

(** ** Equations of state *)

Module EquationOfStateFacts.
Import EquationOfStateLibrary.

Lemma polytropic_pressure_of_sie (eos : PolytropicGas.t) (rho p : R) :
  rho <> 0 -> PolytropicGas.gamma_ eos <> 1 ->
  PolytropicGas.pressure_oracle eos rho
    (rho * PolytropicGas.sie_from_rho_p eos rho p) = p.
Proof.
  intros Hrho Hgamma.
  unfold PolytropicGas.pressure_oracle, PolytropicGas.sie_from_rho_p.
  field. split; [lra | assumption].
Qed.

Lemma polytropic_sie_of_pressure (eos : PolytropicGas.t) (rho e_vol : R) :
  rho <> 0 -> PolytropicGas.gamma_ eos <> 1 ->
  rho * PolytropicGas.sie_from_rho_p eos rho
          (PolytropicGas.pressure_oracle eos rho e_vol) = e_vol.
Proof.
  intros Hrho Hgamma.
  unfold PolytropicGas.pressure_oracle, PolytropicGas.sie_from_rho_p.
  field. split; [lra | assumption].
Qed.

(** What the two member functions of the stiffened gas compose to: the
    pressure comes back multiplied by the square of the density. *)
Lemma nasg_pressure_of_sie (eos : NobleAbleStiffenedGas.t) (rho p : R) :
  NobleAbleStiffenedGas.gamma_ eos <> 1 ->
  1 - NobleAbleStiffenedGas.b_ eos * rho <> 0 ->
  NobleAbleStiffenedGas.pressure_oracle eos rho
    (rho * NobleAbleStiffenedGas.sie_from_rho_p eos rho p)
  = rho * rho * (p + NobleAbleStiffenedGas.gamma_ eos
                     * NobleAbleStiffenedGas.pinf_ eos)
    - NobleAbleStiffenedGas.gamma_ eos * NobleAbleStiffenedGas.pinf_ eos.
Proof.
  intros Hgamma Hcov.
  unfold NobleAbleStiffenedGas.pressure_oracle,
    NobleAbleStiffenedGas.sie_from_rho_p.
  cbv zeta. field. split; [lra | assumption].
Qed.

(** C5, at the failing input: the stiffened gas with [gamma = 7/5] and
    [b = q = pinf = 0], density 2 and pressure 1 (inside the physical
    domain, [p > 0] and [1 - b rho = 1 > 0]).  The pressure computed from
    the energy computed from pressure 1 is 4, and the volumetric energy
    computed from the pressure computed from the volumetric energy 1 is
    4 as well: [sie_from_rho_p] multiplies by the density where the
    inverse of [pressure_oracle] divides by it.  The polytropic gas
    returns the pressure 1 it was given. *)
Theorem nasg_round_trip_at_density_two :
  let eos := noble_able_stiffened_gas NobleAbleStiffenedGas.default in
  0 < 1 /\ 0 < 1 - covolume eos * 2
  /\ pressure_oracle eos 2 (2 * sie_from_rho_p eos 2 1) = 4
  /\ pressure_oracle eos 2 (2 * sie_from_rho_p eos 2 1) <> 1
  /\ 2 * sie_from_rho_p eos 2 (pressure_oracle eos 2 1) = 4
  /\ pressure_oracle (polytropic_gas PolytropicGas.default) 2
       (2 * sie_from_rho_p (polytropic_gas PolytropicGas.default) 2 1) = 1.
Proof.
  cbv zeta. simpl.
  unfold NobleAbleStiffenedGas.pressure_oracle,
    NobleAbleStiffenedGas.sie_from_rho_p,
    PolytropicGas.pressure_oracle, PolytropicGas.sie_from_rho_p.
  simpl.
  assert (H : (7 / 5 - 1) * (2 * ((1 + 7 / 5 * 0) / (7 / 5 - 1) * 2
                                   * (1 - 0 * 2) + 0) - 0 * 2)
              / (1 - 0 * 2) - 7 / 5 * 0 = 4) by (field; lra).
  assert (H' : (7 / 5 - 1) * (2 * (1 / (2 * (7 / 5 - 1)))) = 1)
    by (field; lra).
  assert (H'' : 2 * (((7 / 5 - 1) * (1 - 0 * 2) / (1 - 0 * 2) - 7 / 5 * 0
                      + 7 / 5 * 0) / (7 / 5 - 1) * 2 * (1 - 0 * 2) + 0) = 4)
    by (field; lra).
  rewrite H, H', H''. repeat split; lra.
Qed.

(** C10: with the extra parameters [b = 0], [q = 0], [pinf = 0] the
    pressure oracle of the Noble-Abel stiffened gas is the one of the
    polytropic gas with the same [gamma], namely
    [(gamma - 1) * e_vol], for every density and every volumetric
    internal energy. *)
Theorem nasg_pressure_oracle_degenerates (gamma rho e_vol : R) :
  NobleAbleStiffenedGas.pressure_oracle
    (NobleAbleStiffenedGas.Build gamma 0 0 0) rho e_vol
  = PolytropicGas.pressure_oracle (PolytropicGas.Build gamma) rho e_vol
  /\ PolytropicGas.pressure_oracle (PolytropicGas.Build gamma) rho e_vol
     = (gamma - 1) * e_vol.
Proof.
  unfold NobleAbleStiffenedGas.pressure_oracle,
    PolytropicGas.pressure_oracle.
  simpl. split; [field; lra | reflexivity].
Qed.

End EquationOfStateFacts.

(** ** Butcher tableaux *)

(** C9: for each of the three schemes the final weights of the tableau
    sum to exactly one, in exact rational arithmetic:
    [1/6 + 1/6 + 2/3], [1/4 + 0 + 3/4] and [0 + 2/3 - 1/3 + 2/3]. *)
Theorem final_weights_sum_to_one :
  (forall scheme, Qsum (final_weights (butcher_tableau scheme)) = 1%Q)
  /\ final_weights (butcher_tableau ssprk_33) = [1 # 6; 1 # 6; 2 # 3]%Q
  /\ final_weights (butcher_tableau erk_33) = [1 # 4; 0; 3 # 4]%Q
  /\ final_weights (butcher_tableau erk_43)
     = [0; 2 # 3; - (1 # 3); 2 # 3]%Q.
Proof.
  split; [intros []; reflexivity | repeat split].
Qed.

(** ** The correction coefficient [c] *)

Ltac unmask :=
  unfold compare_and_apply_mask, compare, std_min, std_max, Rltb, Rleb in *;
  repeat match goal with
    | |- context [Rlt_dec ?x ?y] => destruct (Rlt_dec x y)
    | |- context [Rle_dec ?x ?y] => destruct (Rle_dec x y)
    end.

Module CorrectionCoefficient.
Import RiemannSolver.

Lemma c_in_words (gamma : R) : c gamma = SpecWords.c gamma.
Proof. unfold c, SpecWords.c. unmask; lra. Qed.

Lemma half_sqrt_2 : sqrt 2 / 2 = sqrt (1 / 2).
Proof.
  symmetry. apply sqrt_lem_1.
  - lra.
  - pose proof (sqrt_pos 2). lra.
  - pose proof (sqrt_sqrt 2 ltac:(lra)). nra.
Qed.

Lemma radicand_split (x : R) :
  -1 < x -> (3 * x + 11) / (6 * (x + 1)) = 1 / 2 + 4 / (3 * (x + 1)).
Proof. intros Hx. field. lra. Qed.

Lemma radicand_decreasing (x y : R) :
  -1 < x -> x <= y ->
  (3 * y + 11) / (6 * (y + 1)) <= (3 * x + 11) / (6 * (x + 1)).
Proof.
  intros Hx Hxy. rewrite !radicand_split by lra.
  apply Rplus_le_compat_l. unfold Rdiv. apply Rmult_le_compat_l; [lra |].
  apply Rinv_le_contravar; lra.
Qed.

Lemma radicand_above_half (x : R) :
  -1 < x -> 1 / 2 <= (3 * x + 11) / (6 * (x + 1)).
Proof.
  intros Hx. rewrite radicand_split by lra.
  assert (0 < 4 / (3 * (x + 1))) by (apply Rdiv_lt_0_compat; lra). lra.
Qed.

Lemma radicand_at_five_thirds : (3 * (5 / 3) + 11) / (6 * (5 / 3 + 1)) = 1.
Proof. field. Qed.

Lemma radicand_at_three : (3 * 3 + 11) / (6 * (3 + 1)) = 5 / 6.
Proof. field. Qed.

Lemma sqrt_le_one (x : R) : x <= 1 -> sqrt x <= 1.
Proof.
  intros Hx. apply Rle_trans with (sqrt 1).
  - apply sqrt_le_1_alt. exact Hx.
  - rewrite sqrt_1. apply Rle_refl.
Qed.

Lemma c_on_transition (x : R) :
  5 / 3 <= x < 3 -> c x = sqrt ((3 * x + 11) / (6 * (x + 1))).
Proof.
  intros [Hl Hu]. rewrite c_in_words. unfold SpecWords.c.
  destruct (Rle_dec x (5 / 3)) as [Hx | Hx].
  - assert (x = 5 / 3) by lra. subst x.
    rewrite radicand_at_five_thirds, sqrt_1. reflexivity.
  - destruct (Rle_dec 3 x); [lra | reflexivity].
Qed.

Lemma c_nonincreasing (x y : R) : x <= y -> c y <= c x.
Proof.
  intros Hxy. rewrite !c_in_words. unfold SpecWords.c.
  destruct (Rle_dec y (5 / 3)) as [Hy | Hy].
  - destruct (Rle_dec x (5 / 3)); lra.
  - destruct (Rle_dec x (5 / 3)) as [Hx | Hx].
    + destruct (Rle_dec 3 y).
      * rewrite half_sqrt_2. apply sqrt_le_one. lra.
      * apply sqrt_le_one.
        pose proof (radicand_decreasing (5 / 3) y ltac:(lra) ltac:(lra)) as H.
        rewrite radicand_at_five_thirds in H. exact H.
    + destruct (Rle_dec 3 y); destruct (Rle_dec 3 x); try lra.
      * rewrite half_sqrt_2. apply sqrt_le_1_alt.
        apply radicand_above_half. lra.
      * apply sqrt_le_1_alt. apply radicand_decreasing; lra.
Qed.

Lemma interpolant_continuous (x : R) :
  -1 < x ->
  continuity_pt (fun y => sqrt ((3 * y + 11) / (6 * (y + 1)))) x.
Proof.
  intros Hx.
  apply (continuity_pt_comp (fun y => (3 * y + 11) / (6 * (y + 1))) sqrt).
  - apply derivable_continuous_pt. reg. lra.
  - apply continuity_pt_sqrt.
    pose proof (radicand_above_half x Hx). lra.
Qed.

Lemma c_continuous_before_three (x : R) :
  5 / 3 <= x < 3 -> continue_in c transition_interval x.
Proof.
  intros Hx eps Heps.
  destruct (interpolant_continuous x ltac:(lra) eps Heps) as [alp [Halp H]].
  exists (Rmin alp (3 - x)). split.
  - apply Rmin_glb_lt; lra.
  - intros y [[Hy Hne] Hdist]. simpl in Hdist |- *.
    assert (Hd1 : Rdist y x < alp)
      by (eapply Rlt_le_trans; [exact Hdist | apply Rmin_l]).
    assert (Hd2 : Rdist y x < 3 - x)
      by (eapply Rlt_le_trans; [exact Hdist | apply Rmin_r]).
    assert (Hy3 : y < 3).
    { unfold Rdist in Hd2. pose proof (Rle_abs (y - x)). lra. }
    destruct Hy as [Hyl _].
    rewrite (c_on_transition y), (c_on_transition x) by lra.
    apply (H y). split; [split; [exact I | exact Hne] | exact Hd1].
Qed.

Lemma c_left_limit_at_three :
  limit1_in c (fun y => 5 / 3 <= y < 3) (sqrt (5 / 6)) 3.
Proof.
  intros eps Heps.
  destruct (interpolant_continuous 3 ltac:(lra) eps Heps) as [alp [Halp H]].
  exists alp. split; [exact Halp |].
  intros y [Hy Hdist]. simpl in Hdist |- *.
  rewrite (c_on_transition y) by lra.
  rewrite <- radicand_at_three.
  apply (H y). split; [split; [exact I | lra] | exact Hdist].
Qed.

Lemma c_jumps_at_three : ~ continue_in c transition_interval 3.
Proof.
  intros Hc.
  assert (Hgap : sqrt (1 / 2) < sqrt (5 / 6)) by (apply sqrt_lt_1; lra).
  destruct (Hc (sqrt (5 / 6) - sqrt (1 / 2)) ltac:(lra)) as [alp [Halp H]].
  set (y := 3 - Rmin (alp / 2) 1).
  assert (Hm1 : Rmin (alp / 2) 1 <= alp / 2) by apply Rmin_l.
  assert (Hm2 : Rmin (alp / 2) 1 <= 1) by apply Rmin_r.
  assert (Hm3 : 0 < Rmin (alp / 2) 1) by (apply Rmin_glb_lt; lra).
  assert (Hy : 5 / 3 <= y < 3) by (unfold y; lra).
  specialize (H y). simpl in H.
  assert (Hd : Rdist (c y) (c 3) < sqrt (5 / 6) - sqrt (1 / 2)).
  { apply H. split; [split; [unfold transition_interval; lra | lra] |].
    unfold Rdist, y. rewrite Rabs_left; lra. }
  assert (Hc3 : c 3 = sqrt (1 / 2)).
  { rewrite c_in_words. unfold SpecWords.c.
    destruct (Rle_dec 3 (5 / 3)); [lra |].
    destruct (Rle_dec 3 3); [apply half_sqrt_2 | lra]. }
  assert (Hcy : sqrt (5 / 6) <= c y).
  { rewrite (c_on_transition y Hy). apply sqrt_le_1_alt.
    pose proof (radicand_decreasing y 3 ltac:(lra) ltac:(lra)) as Hr.
    rewrite radicand_at_three in Hr. exact Hr. }
  unfold Rdist in Hd. rewrite Hc3 in Hd.
  rewrite Rabs_right in Hd; lra.
Qed.

End CorrectionCoefficient.

(** C4, as stated, fails on its continuity clause: [c] is not continuous
    on the closed interval from 5/3 to 3, its value at 3 lies below its
    limit from the left. *)
Lemma c_not_continuous_on_transition_interval :
  ~ (forall x, transition_interval x ->
               continue_in RiemannSolver.c transition_interval x).
Proof.
  intros H. apply CorrectionCoefficient.c_jumps_at_three.
  apply H. unfold transition_interval. lra.
Qed.

(** C4, amended: [c] is 1 up to 5/3, [sqrt 2 / 2] from 3 on and
    [sqrt ((3 gamma + 11) / (6 (gamma + 1)))] in between, so that
    [c (5/3) = 1] and [c 3 = sqrt 2 / 2]; it is monotone non-increasing
    on the interval from 5/3 to 3 and continuous at every point of that
    interval except its right end point 3, where its limit from the left
    is [sqrt (5/6)]. *)
Theorem c_piecewise_with_jump :
  (forall gamma, gamma <= 5 / 3 -> RiemannSolver.c gamma = 1)
  /\ (forall gamma, 3 <= gamma -> RiemannSolver.c gamma = sqrt 2 / 2)
  /\ (forall gamma, 5 / 3 < gamma < 3 ->
        RiemannSolver.c gamma
        = sqrt ((3 * gamma + 11) / (6 * (gamma + 1))))
  /\ RiemannSolver.c (5 / 3) = 1
  /\ RiemannSolver.c 3 = sqrt 2 / 2
  /\ (forall x y, 5 / 3 <= x -> x <= y -> y <= 3 ->
        RiemannSolver.c y <= RiemannSolver.c x)
  /\ (forall x, 5 / 3 <= x < 3 ->
        continue_in RiemannSolver.c transition_interval x)
  /\ limit1_in RiemannSolver.c (fun y => 5 / 3 <= y < 3) (sqrt (5 / 6)) 3.
Proof.
  assert (Hlow : forall gamma, gamma <= 5 / 3 -> RiemannSolver.c gamma = 1).
  { intros gamma Hg. rewrite CorrectionCoefficient.c_in_words.
    unfold SpecWords.c. destruct (Rle_dec gamma (5 / 3)); [reflexivity | lra]. }
  assert (Hhigh : forall gamma, 3 <= gamma ->
                    RiemannSolver.c gamma = sqrt 2 / 2).
  { intros gamma Hg. rewrite CorrectionCoefficient.c_in_words.
    unfold SpecWords.c. destruct (Rle_dec gamma (5 / 3)); [lra |].
    destruct (Rle_dec 3 gamma); [reflexivity | lra]. }
  repeat split.
  - exact Hlow.
  - exact Hhigh.
  - intros gamma Hg. apply CorrectionCoefficient.c_on_transition. lra.
  - apply Hlow. lra.
  - apply Hhigh. lra.
  - intros x y _ Hxy _. apply CorrectionCoefficient.c_nonincreasing, Hxy.
  - exact CorrectionCoefficient.c_continuous_before_three.
  - exact CorrectionCoefficient.c_left_limit_at_three.
Qed.

Lemma c_piecewise_with_jump_witness :
  RiemannSolver.c 1 = 1
  /\ RiemannSolver.c 4 = sqrt 2 / 2
  /\ RiemannSolver.c 2 = sqrt ((3 * 2 + 11) / (6 * (2 + 1)))
  /\ RiemannSolver.c 3 <= RiemannSolver.c 2
  /\ continue_in RiemannSolver.c transition_interval 2.
Proof.
  destruct c_piecewise_with_jump as (H1 & H2 & H3 & _ & _ & H6 & H7 & _).
  split; [apply (H1 1); lra |].
  split; [apply (H2 4); lra |].
  split; [apply (H3 2); lra |].
  split; [apply (H6 2 3); lra |].
  apply (H7 2); lra.
Defined.

(** ** The final bound and the selection of the star pressure *)

Module RiemannSolverFacts.
Import RiemannSolver.

Lemma std_max_Rmax (x y : R) : std_max x y = Rmax x y.
Proof. unfold Rmax. unmask; lra. Qed.

Lemma std_min_Rmin (x y : R) : std_min x y = Rmin x y.
Proof. unfold Rmin. unmask; lra. Qed.

Lemma factor_in_words (gamma : R) :
  1 / 2 * (gamma + 1) / gamma = (gamma + 1) / (2 * gamma).
Proof. unfold Rdiv. rewrite Rinv_mult. ring. Qed.

Lemma lambda1_minus_in_words (s : primitive_type) (p_star : R) :
  lambda1_minus s p_star = SpecWords.lambda1_minus s p_star.
Proof.
  destruct s. unfold lambda1_minus, SpecWords.lambda1_minus, positive_part.
  simpl. rewrite factor_in_words. reflexivity.
Qed.

Lemma lambda3_plus_in_words (s : primitive_type) (p_star : R) :
  lambda3_plus s p_star = SpecWords.lambda3_plus s p_star.
Proof.
  destruct s. unfold lambda3_plus, SpecWords.lambda3_plus, positive_part.
  simpl. rewrite factor_in_words. reflexivity.
Qed.

Lemma compute_lambda_in_words (i j : primitive_type) (p_star : R) :
  compute_lambda i j p_star = SpecWords.compute_lambda i j p_star.
Proof.
  unfold compute_lambda, SpecWords.compute_lambda.
  rewrite std_max_Rmax, lambda1_minus_in_words, lambda3_plus_in_words.
  reflexivity.
Qed.

Lemma compute_selects (b_interp : R) (i j : primitive_type) :
  compute b_interp i j = compute_lambda i j (SpecWords.p_2 b_interp i j).
Proof.
  destruct i as [rho_i u_i p_i gamma_i a_i], j as [rho_j u_j p_j gamma_j a_j].
  unfold compute, SpecWords.p_2. simpl p.
  rewrite <- std_max_Rmax, <- std_min_Rmin.
  unfold compare_and_apply_mask, compare, Rltb.
  destruct (Rlt_dec _ 0); reflexivity.
Qed.

Lemma compute_lambda_nonnegative (i j : primitive_type) (p_star : R) :
  0 <= compute_lambda i j p_star.
Proof.
  rewrite compute_lambda_in_words. unfold SpecWords.compute_lambda.
  eapply Rle_trans; [| apply Rmax_l]. apply Rmax_l.
Qed.

End RiemannSolverFacts.

(** C2: [compute] is [compute_lambda] at the star pressure [p_2] that is
    [p_star_SS] when [phi_of_p_max] is negative and the minimum of
    [max (p_i, p_j)] and [p_star_RS] otherwise; [compute_lambda] is the
    larger of [max (0, lambda3_plus j)] and [max (0, - lambda1_minus i)],
    with the two characteristic speeds as the specification writes them;
    the result is never negative. *)
Theorem compute_is_compute_lambda_at_p_2
    (b_interp : R) (i j : primitive_type) :
  RiemannSolver.compute b_interp i j
  = SpecWords.compute_lambda i j (SpecWords.p_2 b_interp i j)
  /\ (forall p_star,
        RiemannSolver.compute_lambda i j p_star
        = Rmax (Rmax 0 (RiemannSolver.lambda3_plus j p_star))
               (Rmax 0 (- RiemannSolver.lambda1_minus i p_star)))
  /\ (forall s p_star,
        RiemannSolver.lambda1_minus s p_star
        = u s - a s * sqrt (1 + (gamma s + 1) / (2 * gamma s)
                                 * Rmax 0 ((p_star - p s) / p s)))
  /\ (forall s p_star,
        RiemannSolver.lambda3_plus s p_star
        = u s + a s * sqrt (1 + (gamma s + 1) / (2 * gamma s)
                                 * Rmax 0 ((p_star - p s) / p s)))
  /\ 0 <= RiemannSolver.compute b_interp i j.
Proof.
  repeat split.
  - rewrite RiemannSolverFacts.compute_selects.
    apply RiemannSolverFacts.compute_lambda_in_words.
  - intros p_star. rewrite RiemannSolverFacts.compute_lambda_in_words.
    unfold SpecWords.compute_lambda.
    rewrite <- RiemannSolverFacts.lambda1_minus_in_words,
      <- RiemannSolverFacts.lambda3_plus_in_words. reflexivity.
  - intros s p_star. apply RiemannSolverFacts.lambda1_minus_in_words.
  - intros s p_star. apply RiemannSolverFacts.lambda3_plus_in_words.
  - rewrite RiemannSolverFacts.compute_selects.
    apply RiemannSolverFacts.compute_lambda_nonnegative.
Qed.

(** ** Mirror symmetry *)

Module MirrorSymmetry.
Import RiemannSolver.

Lemma std_max_comm (x y : R) : std_max x y = std_max y x.
Proof. unmask; lra. Qed.

Lemma std_min_comm (x y : R) : std_min x y = std_min y x.
Proof. unmask; lra. Qed.

Lemma phi_of_p_max_mirror (b_interp : R) (i j : primitive_type) :
  phi_of_p_max b_interp i j = phi_of_p_max b_interp (mirror j) (mirror i).
Proof.
  destruct i as [rho_i u_i p_i gamma_i a_i], j as [rho_j u_j p_j gamma_j a_j].
  unfold phi_of_p_max, mirror. simpl.
  rewrite (std_max_comm p_j p_i). ring.
Qed.

Lemma p_star_SS_aeos_mirror (b_interp : R) (i j : primitive_type) :
  p_star_SS_aeos b_interp i j = p_star_SS_aeos b_interp (mirror j) (mirror i).
Proof.
  destruct i as [rho_i u_i p_i gamma_i a_i], j as [rho_j u_j p_j gamma_j a_j].
  unfold p_star_SS_aeos, mirror. simpl.
  rewrite (std_min_comm gamma_j gamma_i).
  f_equal. f_equal; ring.
Qed.

(** The rarefaction-shock estimate picks its quantities by comparing the
    pressures; with distinct pressures the choice does not depend on the
    order of the two states. *)
Lemma p_star_RS_aeos_mirror (b_interp : R) (i j : primitive_type) :
  p i <> p j ->
  p_star_RS_aeos b_interp i j = p_star_RS_aeos b_interp (mirror j) (mirror i).
Proof.
  destruct i as [rho_i u_i p_i gamma_i a_i], j as [rho_j u_j p_j gamma_j a_j].
  simpl. intros Hp.
  unfold p_star_RS_aeos, mirror. simpl.
  rewrite (std_max_comm p_j p_i), (std_min_comm p_j p_i).
  unfold compare_and_apply_mask, compare, Rltb, Rleb.
  destruct (Rlt_dec p_i p_j); destruct (Rlt_dec p_j p_i);
    destruct (Rle_dec p_j p_i); destruct (Rle_dec p_i p_j); try lra;
    (f_equal; f_equal; f_equal; f_equal; ring).
Qed.

Lemma compute_lambda_mirror (i j : primitive_type) (p_star : R) :
  compute_lambda i j p_star = compute_lambda (mirror j) (mirror i) p_star.
Proof.
  destruct i as [rho_i u_i p_i gamma_i a_i], j as [rho_j u_j p_j gamma_j a_j].
  unfold compute_lambda, lambda1_minus, lambda3_plus, mirror,
    positive_part, negative_part. simpl.
  rewrite !RiemannSolverFacts.std_max_Rmax.
  rewrite (Rmax_comm (Rmax 0 (u_j + _))). f_equal; f_equal; ring.
Qed.

Lemma positive_part_below (q p : R) :
  0 < p -> q <= p -> positive_part ((q - p) / p) = 0.
Proof.
  intros Hp Hq. unfold positive_part. apply Rmax_left.
  unfold Rdiv. replace 0 with (0 * / p) by ring.
  apply Rmult_le_compat_r; [left; apply Rinv_0_lt_compat, Hp | lra].
Qed.

(** On both sides of a star pressure below both pressures there is a
    rarefaction: the bound no longer depends on the star pressure. *)
Lemma compute_lambda_below (i j : primitive_type) (q q' : R) :
  0 < p i -> 0 < p j ->
  q <= p i -> q <= p j -> q' <= p i -> q' <= p j ->
  compute_lambda i j q = compute_lambda i j q'.
Proof.
  destruct i as [rho_i u_i p_i gamma_i a_i], j as [rho_j u_j p_j gamma_j a_j].
  simpl. intros Hpi Hpj Hqi Hqj Hqi' Hqj'.
  unfold compute_lambda, lambda1_minus, lambda3_plus.
  rewrite !positive_part_below by assumption. reflexivity.
Qed.

Lemma compute_mirror (b_interp : R) (i j : primitive_type) :
  0 < p i -> 0 < p j ->
  compute b_interp i j = compute b_interp (mirror j) (mirror i).
Proof.
  intros Hpi Hpj.
  rewrite !RiemannSolverFacts.compute_selects.
  rewrite <- compute_lambda_mirror.
  unfold SpecWords.p_2.
  rewrite <- phi_of_p_max_mirror, <- p_star_SS_aeos_mirror.
  destruct (Rlt_dec (phi_of_p_max b_interp i j) 0); [reflexivity |].
  replace (p (mirror j)) with (p j) by (destruct j; reflexivity).
  replace (p (mirror i)) with (p i) by (destruct i; reflexivity).
  destruct (Req_dec (p i) (p j)) as [Heq | Hne].
  - apply compute_lambda_below; try assumption.
    + eapply Rle_trans; [apply Rmin_l |]. rewrite Heq, Rmax_left; lra.
    + eapply Rle_trans; [apply Rmin_l |]. rewrite Heq, Rmax_left; lra.
    + eapply Rle_trans; [apply Rmin_l |]. rewrite Heq, Rmax_left; lra.
    + eapply Rle_trans; [apply Rmin_l |]. rewrite Heq, Rmax_left; lra.
  - rewrite <- p_star_RS_aeos_mirror by assumption.
    rewrite (Rmax_comm (p j)). reflexivity.
Qed.

End MirrorSymmetry.

(** ** Identical states and monotonicity in the star pressure *)

Module Bounds.
Import RiemannSolver.

(** Two identical states at rest: the bound is the sound speed. *)
Lemma compute_identical_states (b_interp rho p gamma a : R) :
  0 < p -> 0 <= a ->
  compute b_interp (primitive rho 0 p gamma a) (primitive rho 0 p gamma a)
  = a.
Proof.
  intros Hp Ha.
  rewrite RiemannSolverFacts.compute_selects.
  set (s := primitive rho 0 p gamma a).
  assert (Hbelow : SpecWords.p_2 b_interp s s <= p).
  { unfold SpecWords.p_2.
    assert (Hphi : phi_of_p_max b_interp s s = 0).
    { unfold s, phi_of_p_max, std_max, Rltb.
      destruct (Rlt_dec p p); [lra |]. unfold Rdiv.
      replace (p - p) with 0 by ring. ring. }
    rewrite Hphi. destruct (Rlt_dec 0 0); [lra |].
    eapply Rle_trans; [apply Rmin_l |]. simpl.
    rewrite Rmax_left; lra. }
  rewrite (MirrorSymmetry.compute_lambda_below s s _ p)
    by (simpl; lra).
  unfold s, compute_lambda, lambda1_minus, lambda3_plus.
  rewrite MirrorSymmetry.positive_part_below by lra.
  rewrite Rmult_0_r, Rplus_0_r, sqrt_1.
  rewrite RiemannSolverFacts.std_max_Rmax.
  unfold positive_part, negative_part.
  replace (- (0 - a * 1)) with a by ring.
  replace (0 + a * 1) with a by ring.
  rewrite (Rmax_right 0 a) by lra. apply Rmax_left. lra.
Qed.

Lemma positive_part_monotone (x y : R) :
  x <= y -> positive_part x <= positive_part y.
Proof. intros H. unfold positive_part. apply Rle_max_compat_l, H. Qed.

Lemma inflation_monotone (p gamma q q' : R) :
  0 < p -> 0 < gamma -> q <= q' ->
  sqrt (1 + 1 / 2 * (gamma + 1) / gamma * positive_part ((q - p) / p))
  <= sqrt (1 + 1 / 2 * (gamma + 1) / gamma * positive_part ((q' - p) / p)).
Proof.
  intros Hp Hg Hq. apply sqrt_le_1_alt. apply Rplus_le_compat_l.
  apply Rmult_le_compat_l.
  - apply Rlt_le, Rdiv_lt_0_compat; lra.
  - apply positive_part_monotone. unfold Rdiv.
    apply Rmult_le_compat_r; [apply Rlt_le, Rinv_0_lt_compat, Hp | lra].
Qed.

(** A larger star pressure gives a larger bound: an estimate of the star
    pressure from above gives a bound from above. *)
Lemma compute_lambda_monotone (i j : primitive_type) (q q' : R) :
  admissible i -> admissible j -> q <= q' ->
  compute_lambda i j q <= compute_lambda i j q'.
Proof.
  destruct i as [rho_i u_i p_i gamma_i a_i], j as [rho_j u_j p_j gamma_j a_j].
  unfold admissible. simpl.
  intros (Hri & Hpi & Hgi & Hai) (Hrj & Hpj & Hgj & Haj) Hq.
  unfold compute_lambda, lambda1_minus, lambda3_plus.
  rewrite !RiemannSolverFacts.std_max_Rmax.
  pose proof (inflation_monotone p_i gamma_i q q' Hpi ltac:(lra) Hq) as Hi.
  pose proof (inflation_monotone p_j gamma_j q q' Hpj ltac:(lra) Hq) as Hj.
  apply Rmax_lub.
  - eapply Rle_trans; [| apply Rmax_l].
    apply positive_part_monotone. apply Rplus_le_compat_l.
    apply Rmult_le_compat_l; lra.
  - eapply Rle_trans; [| apply Rmax_r].
    unfold negative_part. apply Rle_max_compat_l.
    assert (a_i * sqrt (1 + 1 / 2 * (gamma_i + 1) / gamma_i
                            * positive_part ((q - p_i) / p_i))
            <= a_i * sqrt (1 + 1 / 2 * (gamma_i + 1) / gamma_i
                               * positive_part ((q' - p_i) / p_i)))
      by (apply Rmult_le_compat_l; lra).
    lra.
Qed.

(** Whatever star pressure is selected, the bound is at least the two
    acoustic speeds [u_j + a_j] and [a_i - u_i] of the undisturbed
    states. *)
Lemma compute_at_least_acoustic (b_interp : R) (i j : primitive_type) :
  admissible i -> admissible j ->
  u j + a j <= compute b_interp i j /\ a i - u i <= compute b_interp i j.
Proof.
  intros Hi Hj.
  rewrite RiemannSolverFacts.compute_selects.
  set (p_2 := SpecWords.p_2 b_interp i j).
  set (q := Rmin p_2 (Rmin (p i) (p j))).
  assert (Hq : q <= p_2) by apply Rmin_l.
  assert (Hqi : q <= p i)
    by (eapply Rle_trans; [apply Rmin_r | apply Rmin_l]).
  assert (Hqj : q <= p j)
    by (eapply Rle_trans; [apply Rmin_r | apply Rmin_r]).
  pose proof (compute_lambda_monotone i j q p_2 Hi Hj Hq) as Hmono.
  destruct i as [rho_i u_i p_i gamma_i a_i], j as [rho_j u_j p_j gamma_j a_j].
  destruct Hi as (_ & Hpi & _ & _), Hj as (_ & Hpj & _ & _).
  simpl in *.
  assert (Hval : compute_lambda (primitive rho_i u_i p_i gamma_i a_i)
                   (primitive rho_j u_j p_j gamma_j a_j) q
                 = Rmax (Rmax 0 (u_j + a_j)) (Rmax 0 (- (u_i - a_i)))).
  { unfold compute_lambda, lambda1_minus, lambda3_plus.
    rewrite !MirrorSymmetry.positive_part_below by assumption.
    rewrite !Rmult_0_r, !Rplus_0_r, sqrt_1, !Rmult_1_r.
    apply RiemannSolverFacts.std_max_Rmax. }
  rewrite Hval in Hmono.
  pose proof (Rmax_l (Rmax 0 (u_j + a_j)) (Rmax 0 (- (u_i - a_i)))).
  pose proof (Rmax_r (Rmax 0 (u_j + a_j)) (Rmax 0 (- (u_i - a_i)))).
  pose proof (Rmax_r 0 (u_j + a_j)).
  pose proof (Rmax_r 0 (- (u_i - a_i))).
  split; lra.
Qed.

End Bounds.

(** ** Rounding in [phi_of_p_max] *)

Module Rounding.
Import PrimFloat.

(** C6, as stated, fails in the arithmetic of the code: in binary64,
    with [b_interp = 0], for the primitive states
    [I = (rho 2, u 1/7, p 1, gamma 2, a 1)] and
    [J = (rho 1/8, u -2, p 1/16, gamma 2, a 1)] the sum of
    [phi_of_p_max (I, J)], [((0 + 15/7) + (-2)) - 1/7], rounds to
    [-2^-54], and the sum of [phi_of_p_max (J', I')],
    [((15/7 + 0) + (-1/7)) - (-2)], rounds to [0].  The test
    [phi_p_max < 0] of [compute] therefore selects the two-shock star
    pressure for [(I, J)] and the rarefaction-shock one, capped at
    [p_max], for [(J', I')], and the two results differ: about 1.738
    against 1.5. *)
Lemma compute_not_mirror_symmetric_in_binary64 :
  (let i := Binary64.primitive 2 (1 / 7) 1 2 1 in
   let j := Binary64.primitive 0.125 (-2) 0.0625 2 1 in
   Binary64.admissible i = true /\ Binary64.admissible j = true
   /\ Binary64.phi_of_p_max 0 i j = -0x1p-54
   /\ Binary64.phi_of_p_max 0 (Binary64.mirror j) (Binary64.mirror i) = 0
   /\ Binary64.p_star_SS_aeos Binary64.quarter_power 0 i j
      = 0x1.24d1470e10256p+0
   /\ Binary64.std_min 1
        (Binary64.p_star_RS_aeos Binary64.quarter_power 0
           (Binary64.mirror j) (Binary64.mirror i)) = 1
   /\ Binary64.compute Binary64.quarter_power 0 i j
      = 0x1.bd096819b7748p+0
   /\ Binary64.compute Binary64.quarter_power 0
        (Binary64.mirror j) (Binary64.mirror i) = 1.5
   /\ Binary64.compute Binary64.quarter_power 0 i j
      <> Binary64.compute Binary64.quarter_power 0
           (Binary64.mirror j) (Binary64.mirror i))%float.
Proof.
  cbv zeta.
  repeat split; try (vm_compute; reflexivity).
  intros H.
  apply (f_equal (fun x => PrimFloat.ltb 1.5 x)) in H.
  vm_compute in H. discriminate H.
Qed.

End Rounding.

(** C6, amended: in exact arithmetic, for primitive states [I] and [J]
    (positive density, pressure and sound speed, [gamma] at least one)
    [compute (I, J)] equals [compute (J', I')], where [J'] and [I'] are
    [J] and [I] with the sign of the velocity flipped. *)
Theorem compute_mirror_symmetry (b_interp : R) (i j : primitive_type) :
  admissible i -> admissible j ->
  RiemannSolver.compute b_interp i j
  = RiemannSolver.compute b_interp (mirror j) (mirror i).
Proof.
  intros (_ & Hpi & _) (_ & Hpj & _).
  apply MirrorSymmetry.compute_mirror; assumption.
Qed.

(** ** Where [compute] is defined *)

Module Definedness.

Lemma div_some (x y : R) : y <> 0 -> Checked.div x y = Some (x / y).
Proof.
  intros Hy. unfold Checked.div.
  destruct (Req_dec_T y 0); [contradiction | reflexivity].
Qed.

Lemma div_inv (x y v : R) :
  Checked.div x y = Some v -> y <> 0 /\ v = x / y.
Proof.
  unfold Checked.div. destruct (Req_dec_T y 0); [discriminate |].
  intros H. injection H as <-. split; [assumption | reflexivity].
Qed.

Lemma sqrt_some (x : R) : 0 <= x -> Checked.sqrt x = Some (sqrt x).
Proof.
  intros Hx. unfold Checked.sqrt.
  destruct (Rle_dec 0 x); [reflexivity | contradiction].
Qed.

Lemma sqrt_inv (x v : R) : Checked.sqrt x = Some v -> 0 <= x /\ v = sqrt x.
Proof.
  unfold Checked.sqrt. destruct (Rle_dec 0 x); [| discriminate].
  intros H. injection H as <-. split; [assumption | reflexivity].
Qed.

Lemma vec_pow_some (x b : R) :
  0 < x -> Checked.vec_pow x b = Some (vec_pow x b).
Proof.
  intros Hx. unfold Checked.vec_pow.
  destruct (Rlt_dec 0 x); [reflexivity | contradiction].
Qed.

Lemma vec_pow_inv (x b v : R) :
  Checked.vec_pow x b = Some v -> 0 < x /\ v = vec_pow x b.
Proof.
  unfold Checked.vec_pow. destruct (Rlt_dec 0 x); [| discriminate].
  intros H. injection H as <-. split; [assumption | reflexivity].
Qed.

Lemma bind_inv {A B : Type} (m : option A) (k : A -> option B) (v : B) :
  Checked.bind m k = Some v -> exists x, m = Some x /\ k x = Some v.
Proof.
  destruct m as [x |]; simpl; [| discriminate].
  intros H. exists x. split; [reflexivity | exact H].
Qed.

Lemma bind_some {A B : Type} (m : option A) (k : A -> option B) (x : A) :
  m = Some x -> Checked.bind m k = k x.
Proof. intros ->. reflexivity. Qed.

(** Positivity of the quantities the denominators are built from. *)

Lemma c_positive (gamma_Z : R) : -1 < gamma_Z -> 0 < RiemannSolver.c gamma_Z.
Proof.
  intros Hg. rewrite CorrectionCoefficient.c_in_words. unfold SpecWords.c.
  destruct (Rle_dec gamma_Z (5 / 3)); [lra |].
  destruct (Rle_dec 3 gamma_Z).
  - pose proof Rlt_sqrt2_0. lra.
  - apply sqrt_lt_R0.
    pose proof (CorrectionCoefficient.radicand_above_half gamma_Z Hg). lra.
Qed.

Lemma alpha_positive (b_interp rho gamma a : R) :
  0 < a -> 1 < gamma -> 0 < 1 - b_interp * rho ->
  0 < RiemannSolver.alpha b_interp rho gamma a.
Proof.
  intros Ha Hg Hcov. unfold RiemannSolver.alpha.
  apply Rdiv_lt_0_compat; [| lra].
  apply Rmult_lt_0_compat; lra.
Qed.

Lemma vec_pow_positive (x b : R) : 0 < vec_pow x b.
Proof. unfold vec_pow, Rpower. apply exp_pos. Qed.

(** The checked functions, one by one. *)

Lemma alpha_some (b_interp rho gamma a : R) :
  gamma <> 1 ->
  Checked.alpha b_interp rho gamma a
  = Some (RiemannSolver.alpha b_interp rho gamma a).
Proof.
  intros Hg. unfold Checked.alpha, RiemannSolver.alpha.
  apply div_some. lra.
Qed.

Lemma alpha_inv (b_interp rho gamma a v : R) :
  Checked.alpha b_interp rho gamma a = Some v -> gamma <> 1.
Proof.
  unfold Checked.alpha. intros H. apply div_inv in H. lra.
Qed.

Lemma c_some (gamma_Z : R) :
  -1 < gamma_Z -> Checked.c gamma_Z = Some (RiemannSolver.c gamma_Z).
Proof.
  intros Hg. unfold Checked.c, RiemannSolver.c.
  rewrite div_some by lra. simpl.
  rewrite sqrt_some
    by (pose proof (CorrectionCoefficient.radicand_above_half gamma_Z Hg);
        lra).
  simpl. rewrite sqrt_some by lra. reflexivity.
Qed.

Lemma radicand_inverse_positive (b_interp rho p gamma p_max : R) :
  0 < rho -> 0 < p -> 1 <= gamma -> 0 < p_max ->
  0 < 1 - b_interp * rho ->
  0 < 1 / 2 * rho / (1 - b_interp * rho)
      * ((gamma + 1) * p_max + (gamma - 1) * p).
Proof.
  intros Hrho Hp Hg Hpmax Hcov.
  apply Rmult_lt_0_compat.
  - apply Rdiv_lt_0_compat; lra.
  - assert (0 <= (gamma - 1) * p) by (apply Rmult_le_pos; lra).
    assert (0 < (gamma + 1) * p_max) by (apply Rmult_lt_0_compat; lra).
    lra.
Qed.

Lemma std_max_positive (x y : R) : 0 < x -> 0 < y -> 0 < std_max x y.
Proof. intros Hx Hy. unmask; lra. Qed.

Lemma std_min_positive (x y : R) : 0 < x -> 0 < y -> 0 < std_min x y.
Proof. intros Hx Hy. unmask; lra. Qed.

Lemma phi_of_p_max_some (b_interp : R) (i j : primitive_type) :
  admissible i -> admissible j ->
  0 < 1 - b_interp * rho i -> 0 < 1 - b_interp * rho j ->
  Checked.phi_of_p_max b_interp i j
  = Some (RiemannSolver.phi_of_p_max b_interp i j).
Proof.
  destruct i as [rho_i u_i p_i gamma_i a_i], j as [rho_j u_j p_j gamma_j a_j].
  unfold admissible. simpl.
  intros (Hri & Hpi & Hgi & Hai) (Hrj & Hpj & Hgj & Haj) Hci Hcj.
  pose proof (std_max_positive p_i p_j Hpi Hpj) as Hmax.
  pose proof (radicand_inverse_positive b_interp rho_i p_i gamma_i _
                Hri Hpi Hgi Hmax Hci) as Hradi.
  pose proof (radicand_inverse_positive b_interp rho_j p_j gamma_j _
                Hrj Hpj Hgj Hmax Hcj) as Hradj.
  unfold Checked.phi_of_p_max, RiemannSolver.phi_of_p_max.
  rewrite (div_some _ (1 - b_interp * rho_i)) by lra. simpl.
  rewrite sqrt_some by lra. simpl.
  rewrite div_some by (apply Rgt_not_eq, sqrt_lt_R0, Hradi). simpl.
  rewrite (div_some _ (1 - b_interp * rho_j)) by lra. simpl.
  rewrite sqrt_some by lra. simpl.
  rewrite div_some by (apply Rgt_not_eq, sqrt_lt_R0, Hradj). simpl.
  reflexivity.
Qed.

Lemma lambda1_minus_some (s : primitive_type) (p_star : R) :
  admissible s ->
  Checked.lambda1_minus s p_star
  = Some (RiemannSolver.lambda1_minus s p_star).
Proof.
  destruct s as [rho u p gamma a]. unfold admissible. simpl.
  intros (Hr & Hp & Hg & Ha).
  unfold Checked.lambda1_minus, RiemannSolver.lambda1_minus.
  rewrite !div_some by lra. simpl.
  rewrite sqrt_some; [reflexivity |].
  assert (0 <= 1 / 2 * (gamma + 1) / gamma)
    by (apply Rlt_le, Rdiv_lt_0_compat; lra).
  assert (0 <= positive_part ((p_star - p) / p))
    by (unfold positive_part; apply Rmax_l).
  assert (0 <= 1 / 2 * (gamma + 1) / gamma * positive_part ((p_star - p) / p))
    by (apply Rmult_le_pos; assumption).
  lra.
Qed.

Lemma lambda3_plus_some (s : primitive_type) (p_star : R) :
  admissible s ->
  Checked.lambda3_plus s p_star
  = Some (RiemannSolver.lambda3_plus s p_star).
Proof.
  destruct s as [rho u p gamma a]. unfold admissible. simpl.
  intros (Hr & Hp & Hg & Ha).
  unfold Checked.lambda3_plus, RiemannSolver.lambda3_plus.
  rewrite !div_some by lra. simpl.
  rewrite sqrt_some; [reflexivity |].
  assert (0 <= 1 / 2 * (gamma + 1) / gamma)
    by (apply Rlt_le, Rdiv_lt_0_compat; lra).
  assert (0 <= positive_part ((p_star - p) / p))
    by (unfold positive_part; apply Rmax_l).
  assert (0 <= 1 / 2 * (gamma + 1) / gamma * positive_part ((p_star - p) / p))
    by (apply Rmult_le_pos; assumption).
  lra.
Qed.

Lemma compute_lambda_some (i j : primitive_type) (p_star : R) :
  admissible i -> admissible j ->
  Checked.compute_lambda i j p_star
  = Some (RiemannSolver.compute_lambda i j p_star).
Proof.
  intros Hi Hj. unfold Checked.compute_lambda.
  rewrite lambda1_minus_some, lambda3_plus_some by assumption.
  reflexivity.
Qed.

Lemma alpha_none (b_interp rho a : R) : Checked.alpha b_interp rho 1 a = None.
Proof.
  unfold Checked.alpha, Checked.div.
  destruct (Req_dec_T (1 - 1) 0) as [_ | H]; [reflexivity | lra].
Qed.

Lemma covolume_positive (b_interp rho K : R) :
  0 < rho -> 0 < K -> 1 - b_interp * rho <> 0 ->
  0 <= 1 / 2 * rho / (1 - b_interp * rho) * K ->
  0 < 1 - b_interp * rho.
Proof.
  intros Hrho HK Hne Hrad.
  destruct (Rlt_dec 0 (1 - b_interp * rho)) as [H | H]; [exact H | exfalso].
  assert (Hneg : 0 < - (1 - b_interp * rho)) by lra.
  assert (Hq : 0 < 1 / 2 * rho / - (1 - b_interp * rho))
    by (apply Rdiv_lt_0_compat; lra).
  assert (Heq : 1 / 2 * rho / (1 - b_interp * rho)
                = - (1 / 2 * rho / - (1 - b_interp * rho)))
    by (field; lra).
  rewrite Heq in Hrad.
  assert (0 < 1 / 2 * rho / - (1 - b_interp * rho) * K)
    by (apply Rmult_lt_0_compat; assumption).
  lra.
Qed.

Lemma phi_of_p_max_inv (b_interp : R) (i j : primitive_type) (v : R) :
  admissible i -> admissible j ->
  Checked.phi_of_p_max b_interp i j = Some v ->
  0 < 1 - b_interp * rho i /\ 0 < 1 - b_interp * rho j.
Proof.
  destruct i as [rho_i u_i p_i gamma_i a_i], j as [rho_j u_j p_j gamma_j a_j].
  unfold admissible. simpl.
  intros (Hri & Hpi & Hgi & Hai) (Hrj & Hpj & Hgj & Haj) H.
  pose proof (std_max_positive p_i p_j Hpi Hpj) as Hmax.
  assert (HKi : 0 < (gamma_i + 1) * std_max p_i p_j + (gamma_i - 1) * p_i).
  { assert (0 <= (gamma_i - 1) * p_i) by (apply Rmult_le_pos; lra).
    assert (0 < (gamma_i + 1) * std_max p_i p_j)
      by (apply Rmult_lt_0_compat; lra).
    lra. }
  assert (HKj : 0 < (gamma_j + 1) * std_max p_i p_j + (gamma_j - 1) * p_j).
  { assert (0 <= (gamma_j - 1) * p_j) by (apply Rmult_le_pos; lra).
    assert (0 < (gamma_j + 1) * std_max p_i p_j)
      by (apply Rmult_lt_0_compat; lra).
    lra. }
  unfold Checked.phi_of_p_max in H.
  apply bind_inv in H as (qi & Hqi & H). apply div_inv in Hqi as [Hci ->].
  apply bind_inv in H as (ri & Hroot_i & H).
  apply sqrt_inv in Hroot_i as [Hradi _].
  apply bind_inv in H as (vi & _ & H).
  apply bind_inv in H as (qj & Hqj & H). apply div_inv in Hqj as [Hcj ->].
  apply bind_inv in H as (rj & Hroot_j & H).
  apply sqrt_inv in Hroot_j as [Hradj _].
  split.
  - exact (covolume_positive b_interp rho_i _ Hri HKi Hci Hradi).
  - exact (covolume_positive b_interp rho_j _ Hrj HKj Hcj Hradj).
Qed.

(** With the covolume factors positive and both [gamma] above one, the
    only operation of the two-shock estimate that can be undefined is its
    last power. *)
Lemma p_star_SS_aeos_last_power (b_interp : R) (i j : primitive_type) :
  admissible i -> admissible j ->
  gamma i <> 1 -> gamma j <> 1 ->
  0 < 1 - b_interp * rho i -> 0 < 1 - b_interp * rho j ->
  exists denominator exp_inv,
    0 < denominator
    /\ Checked.p_star_SS_aeos b_interp i j
       = Checked.vec_pow (p_star_SS_numerator b_interp i j / denominator)
           exp_inv
    /\ RiemannSolver.p_star_SS_aeos b_interp i j
       = vec_pow (p_star_SS_numerator b_interp i j / denominator) exp_inv.
Proof.
  destruct i as [rho_i u_i p_i gamma_i a_i], j as [rho_j u_j p_j gamma_j a_j].
  unfold admissible. simpl.
  intros (Hri & Hpi & Hgi & Hai) (Hrj & Hpj & Hgj & Haj) Hni Hnj Hci Hcj.
  pose proof (c_positive gamma_i ltac:(lra)) as Hcgi.
  pose proof (c_positive gamma_j ltac:(lra)) as Hcgj.
  pose proof (alpha_positive b_interp rho_i gamma_i a_i Hai ltac:(lra) Hci)
    as Hali.
  pose proof (alpha_positive b_interp rho_j gamma_j a_j Haj ltac:(lra) Hcj)
    as Halj.
  assert (Hm : 1 < std_min gamma_i gamma_j) by (unmask; lra).
  set (exp := (std_min gamma_i gamma_j - 1) / (2 * std_min gamma_i gamma_j)).
  assert (Hexp : 0 < exp) by (apply Rdiv_lt_0_compat; lra).
  exists (RiemannSolver.c gamma_i
            * RiemannSolver.alpha b_interp rho_i gamma_i a_i
            * vec_pow p_i (- exp)
          + RiemannSolver.c gamma_j
            * RiemannSolver.alpha b_interp rho_j gamma_j a_j
            * vec_pow p_j (- exp)), (1 / exp).
  split; [| split].
  - pose proof (vec_pow_positive p_i (- exp)).
    pose proof (vec_pow_positive p_j (- exp)).
    apply Rplus_lt_0_compat;
      (apply Rmult_lt_0_compat; [apply Rmult_lt_0_compat |]; assumption).
  - unfold Checked.p_star_SS_aeos.
    rewrite !c_some by lra. simpl.
    rewrite !alpha_some by assumption. simpl.
    rewrite div_some by lra. simpl. fold exp.
    rewrite div_some by lra. simpl.
    rewrite !vec_pow_some by assumption. simpl.
    rewrite div_some; [reflexivity |].
    pose proof (vec_pow_positive p_i (- exp)).
    pose proof (vec_pow_positive p_j (- exp)).
    apply Rgt_not_eq.
    apply Rplus_lt_0_compat;
      (apply Rmult_lt_0_compat; [apply Rmult_lt_0_compat |]; assumption).
  - reflexivity.
Qed.

Lemma p_star_SS_aeos_some (b_interp : R) (i j : primitive_type) :
  admissible i -> admissible j ->
  gamma i <> 1 -> gamma j <> 1 ->
  0 < 1 - b_interp * rho i -> 0 < 1 - b_interp * rho j ->
  0 < p_star_SS_numerator b_interp i j ->
  Checked.p_star_SS_aeos b_interp i j
  = Some (RiemannSolver.p_star_SS_aeos b_interp i j).
Proof.
  intros Hi Hj Hni Hnj Hci Hcj Hnum.
  destruct (p_star_SS_aeos_last_power b_interp i j Hi Hj Hni Hnj Hci Hcj)
    as (den & e & Hden & -> & ->).
  apply vec_pow_some. apply Rdiv_lt_0_compat; assumption.
Qed.

Lemma gamma_not_one_of_SS (b_interp : R) (i j : primitive_type) (v : R) :
  admissible i -> admissible j ->
  Checked.p_star_SS_aeos b_interp i j = Some v ->
  gamma i <> 1 /\ gamma j <> 1.
Proof.
  destruct i as [rho_i u_i p_i gamma_i a_i], j as [rho_j u_j p_j gamma_j a_j].
  unfold admissible. simpl.
  intros (Hri & Hpi & Hgi & Hai) (Hrj & Hpj & Hgj & Haj) H.
  unfold Checked.p_star_SS_aeos in H.
  rewrite !c_some in H by lra. simpl in H.
  apply bind_inv in H as (ali & Hali & H). apply alpha_inv in Hali.
  apply bind_inv in H as (alj & Halj & H). apply alpha_inv in Halj.
  split; assumption.
Qed.

Lemma p_star_SS_aeos_inv (b_interp : R) (i j : primitive_type) (v : R) :
  admissible i -> admissible j ->
  0 < 1 - b_interp * rho i -> 0 < 1 - b_interp * rho j ->
  Checked.p_star_SS_aeos b_interp i j = Some v ->
  gamma i <> 1 /\ gamma j <> 1 /\ 0 < p_star_SS_numerator b_interp i j.
Proof.
  intros Hi Hj Hci Hcj H.
  destruct (gamma_not_one_of_SS b_interp i j v Hi Hj H) as [Hni Hnj].
  split; [assumption | split; [assumption |]].
  destruct (p_star_SS_aeos_last_power b_interp i j Hi Hj Hni Hnj Hci Hcj)
    as (den & e & Hden & Heq & _).
  rewrite Heq in H. apply vec_pow_inv in H as [Hbase _].
  replace (p_star_SS_numerator b_interp i j)
    with (p_star_SS_numerator b_interp i j / den * den) by (field; lra).
  apply Rmult_lt_0_compat; assumption.
Qed.

(** Likewise for the rarefaction-shock estimate. *)
Lemma p_star_RS_aeos_last_power (b_interp : R) (i j : primitive_type) :
  admissible i -> admissible j ->
  gamma i <> 1 -> gamma j <> 1 ->
  0 < 1 - b_interp * rho i -> 0 < 1 - b_interp * rho j ->
  exists exp_min,
    Checked.p_star_RS_aeos b_interp i j
    = Checked.bind (Checked.vec_pow (p_star_RS_base b_interp i j) exp_min)
        (fun power => Some (std_min (p i) (p j) * power))
    /\ RiemannSolver.p_star_RS_aeos b_interp i j
       = std_min (p i) (p j) * vec_pow (p_star_RS_base b_interp i j) exp_min.
Proof.
  destruct i as [rho_i u_i p_i gamma_i a_i], j as [rho_j u_j p_j gamma_j a_j].
  unfold admissible. simpl.
  intros (Hri & Hpi & Hgi & Hai) (Hrj & Hpj & Hgj & Haj) Hni Hnj Hci Hcj.
  pose proof (c_positive gamma_i ltac:(lra)) as Hcgi.
  pose proof (c_positive gamma_j ltac:(lra)) as Hcgj.
  pose proof (alpha_positive b_interp rho_i gamma_i a_i Hai ltac:(lra) Hci)
    as Hali.
  pose proof (alpha_positive b_interp rho_j gamma_j a_j Haj ltac:(lra) Hcj)
    as Halj.
  pose proof (std_max_positive p_i p_j Hpi Hpj) as Hmax.
  pose proof (std_min_positive p_i p_j Hpi Hpj) as Hmin.
  assert (Hratio : 0 < std_min p_i p_j / std_max p_i p_j)
    by (apply Rdiv_lt_0_compat; assumption).
  exists (2 * compare_and_apply_mask less_than p_i p_j gamma_i gamma_j
          / (compare_and_apply_mask less_than p_i p_j gamma_i gamma_j - 1)).
  unfold Checked.p_star_RS_aeos, RiemannSolver.p_star_RS_aeos,
    p_star_RS_base.
  simpl.
  rewrite !alpha_some by assumption. simpl.
  unfold compare_and_apply_mask, compare, Rltb, Rleb.
  destruct (Rlt_dec p_i p_j); destruct (Rle_dec p_j p_i); try lra.
  - rewrite c_some by lra. simpl.
    rewrite (div_some _ (gamma_i - 1)) by lra. simpl.
    rewrite (div_some _ (2 * gamma_j)) by lra. simpl.
    rewrite (div_some _ (std_max p_i p_j)) by lra. simpl.
    rewrite vec_pow_some by assumption. simpl.
    rewrite div_some
      by (apply Rgt_not_eq, Rmult_lt_0_compat; assumption).
    simpl. split; reflexivity.
  - rewrite c_some by lra. simpl.
    rewrite (div_some _ (gamma_j - 1)) by lra. simpl.
    rewrite (div_some _ (2 * gamma_i)) by lra. simpl.
    rewrite (div_some _ (std_max p_i p_j)) by lra. simpl.
    rewrite vec_pow_some by assumption. simpl.
    rewrite div_some
      by (apply Rgt_not_eq, Rmult_lt_0_compat; assumption).
    simpl. split; reflexivity.
Qed.

Lemma p_star_RS_aeos_some (b_interp : R) (i j : primitive_type) :
  admissible i -> admissible j ->
  gamma i <> 1 -> gamma j <> 1 ->
  0 < 1 - b_interp * rho i -> 0 < 1 - b_interp * rho j ->
  0 < p_star_RS_base b_interp i j ->
  Checked.p_star_RS_aeos b_interp i j
  = Some (RiemannSolver.p_star_RS_aeos b_interp i j).
Proof.
  intros Hi Hj Hni Hnj Hci Hcj Hbase.
  destruct (p_star_RS_aeos_last_power b_interp i j Hi Hj Hni Hnj Hci Hcj)
    as (e & -> & ->).
  rewrite vec_pow_some by assumption. reflexivity.
Qed.

Lemma p_star_RS_aeos_inv (b_interp : R) (i j : primitive_type) (v : R) :
  admissible i -> admissible j ->
  gamma i <> 1 -> gamma j <> 1 ->
  0 < 1 - b_interp * rho i -> 0 < 1 - b_interp * rho j ->
  Checked.p_star_RS_aeos b_interp i j = Some v ->
  0 < p_star_RS_base b_interp i j.
Proof.
  intros Hi Hj Hni Hnj Hci Hcj H.
  destruct (p_star_RS_aeos_last_power b_interp i j Hi Hj Hni Hnj Hci Hcj)
    as (e & Heq & _).
  rewrite Heq in H. apply bind_inv in H as (pw & Hpw & _).
  apply vec_pow_inv in Hpw as [Hbase _]. exact Hbase.
Qed.

Lemma compute_some (b_interp : R) (i j : primitive_type) :
  admissible i -> admissible j -> well_defined b_interp i j ->
  Checked.compute b_interp i j = Some (RiemannSolver.compute b_interp i j).
Proof.
  intros Hi Hj (Hni & Hnj & Hci & Hcj & Hss & Hrs).
  pose proof (phi_of_p_max_some b_interp i j Hi Hj Hci Hcj) as Hphi.
  pose proof (p_star_SS_aeos_some b_interp i j Hi Hj Hni Hnj Hci Hcj Hss)
    as HSS.
  pose proof (p_star_RS_aeos_some b_interp i j Hi Hj Hni Hnj Hci Hcj Hrs)
    as HRS.
  destruct i as [rho_i u_i p_i gamma_i a_i], j as [rho_j u_j p_j gamma_j a_j].
  unfold Checked.compute, RiemannSolver.compute.
  rewrite Hphi, HSS, HRS. simpl.
  apply compute_lambda_some; assumption.
Qed.

Lemma compute_inv (b_interp : R) (i j : primitive_type) (v : R) :
  admissible i -> admissible j ->
  Checked.compute b_interp i j = Some v -> well_defined b_interp i j.
Proof.
  intros Hi Hj H.
  assert (H' : exists phi ss rs,
             Checked.phi_of_p_max b_interp i j = Some phi
             /\ Checked.p_star_SS_aeos b_interp i j = Some ss
             /\ Checked.p_star_RS_aeos b_interp i j = Some rs).
  { destruct i as [rho_i u_i p_i gamma_i a_i],
      j as [rho_j u_j p_j gamma_j a_j].
    unfold Checked.compute in H.
    apply bind_inv in H as (phi & Hphi & H).
    apply bind_inv in H as (ss & Hss & H).
    apply bind_inv in H as (rs & Hrs & H).
    exists phi, ss, rs. repeat split; assumption. }
  destruct H' as (phi & ss & rs & Hphi & Hss & Hrs).
  destruct (phi_of_p_max_inv b_interp i j phi Hi Hj Hphi) as [Hci Hcj].
  destruct (p_star_SS_aeos_inv b_interp i j ss Hi Hj Hci Hcj Hss)
    as (Hni & Hnj & Hnum).
  pose proof (p_star_RS_aeos_inv b_interp i j rs Hi Hj Hni Hnj Hci Hcj Hrs).
  unfold well_defined. repeat split; assumption.
Qed.

Lemma compute_none_at_gamma_one (b_interp : R) (i j : primitive_type) :
  gamma i = 1 -> Checked.compute b_interp i j = None.
Proof.
  destruct i as [rho_i u_i p_i gamma_i a_i], j as [rho_j u_j p_j gamma_j a_j].
  simpl. intros ->.
  unfold Checked.compute.
  match goal with
  | |- Checked.bind ?m _ = None => destruct m; [simpl | reflexivity]
  end.
  unfold Checked.p_star_SS_aeos.
  destruct (Checked.c 1); [simpl | reflexivity].
  rewrite alpha_none. reflexivity.
Qed.

End Definedness.

(** C3, as stated, fails: two equal states with density, pressure and
    sound speed one and [gamma = 1], which the data model admits, make
    [alpha] divide by [gamma - 1 = 0]. *)
Lemma compute_undefined_at_gamma_one :
  let s := primitive 1 0 1 1 1 in
  admissible s /\ Checked.compute 0 s s = None.
Proof.
  split.
  - unfold admissible. simpl. lra.
  - apply Definedness.compute_none_at_gamma_one. reflexivity.
Qed.

(** C3, amended: for two states with positive density, pressure and
    sound speed and [gamma] at least one, every division of [compute]
    has a non-zero denominator, every square root a non-negative
    radicand and every power a positive base exactly when, for both
    states, [gamma] differs from one and the covolume factor
    [1 - b_interp rho] is positive, and the bases of the last powers of
    the two-shock and of the rarefaction-shock estimate are positive;
    the checked evaluation then returns the value of [compute]. *)
Theorem compute_defined_iff_well_defined
    (b_interp : R) (i j : primitive_type) :
  admissible i -> admissible j ->
  ((exists v, Checked.compute b_interp i j = Some v)
   <-> well_defined b_interp i j)
  /\ (well_defined b_interp i j ->
      Checked.compute b_interp i j
      = Some (RiemannSolver.compute b_interp i j)).
Proof.
  intros Hi Hj. split; [split |].
  - intros [v Hv]. exact (Definedness.compute_inv b_interp i j v Hi Hj Hv).
  - intros Hw. eexists.
    exact (Definedness.compute_some b_interp i j Hi Hj Hw).
  - exact (Definedness.compute_some b_interp i j Hi Hj).
Qed.

Lemma reference_states_well_defined :
  let s := primitive 1 0 1 (3 / 2) 1 in
  admissible s /\ well_defined 0 s s.
Proof.
  assert (Hc : RiemannSolver.c (3 / 2) = 1).
  { rewrite CorrectionCoefficient.c_in_words. unfold SpecWords.c.
    destruct (Rle_dec (3 / 2) (5 / 3)); [reflexivity | lra]. }
  assert (Ha : RiemannSolver.alpha 0 1 (3 / 2) 1 = 4)
    by (unfold RiemannSolver.alpha; field).
  split.
  - unfold admissible. simpl. lra.
  - unfold well_defined, p_star_SS_numerator, p_star_RS_base. simpl.
    rewrite Ha, Hc.
    unfold compare_and_apply_mask, compare, std_min, std_max, Rltb, Rleb.
    destruct (Rlt_dec 1 1); [lra |].
    destruct (Rle_dec 1 1); [| lra].
    rewrite Hc.
    assert (Hp : vec_pow (1 / 1) ((3 / 2 - 1) / (2 * (3 / 2))) = 1).
    { unfold vec_pow, Rpower. replace (1 / 1) with 1 by field.
      rewrite ln_1, Rmult_0_r. apply exp_0. }
    rewrite Hp.
    replace ((4 * (1 - 1) - (0 - 0)) / (1 * 4) + 1) with 1 by field.
    repeat split; lra.
Qed.

Lemma compute_defined_iff_well_defined_witness :
  let s := primitive 1 0 1 (3 / 2) 1 in
  Checked.compute 0 s s = Some (RiemannSolver.compute 0 s s).
Proof.
  exact (proj2 (compute_defined_iff_well_defined 0 _ _
                  (proj1 reference_states_well_defined)
                  (proj1 reference_states_well_defined))
           (proj2 reference_states_well_defined)).
Defined.

Lemma compute_mirror_symmetry_witness :
  let i := primitive 1 0 1 (7 / 5) 1 in
  let j := primitive (1 / 8) 0 (1 / 10) (7 / 5) 1 in
  RiemannSolver.compute 0 i j
  = RiemannSolver.compute 0 (mirror j) (mirror i).
Proof.
  apply (compute_mirror_symmetry 0 (primitive 1 0 1 (7 / 5) 1)
           (primitive (1 / 8) 0 (1 / 10) (7 / 5) 1));
    unfold admissible; simpl; lra.
Defined.

(** ** The recovery protocol of [TimeIntegrator::step] *)

Module RecoveryProtocol.
Import TimeIntegrator.

Section Protocol.

Variable vector_type : Type.
Variable advance : vector_type -> R -> R -> advanced vector_type.
Variable stage_input :
  TimeSteppingScheme -> vector_type -> R -> list (advanced vector_type)
  -> vector_type * R.
Variable final_combination :
  TimeSteppingScheme -> vector_type -> R -> list (advanced vector_type)
  -> vector_type * R.

Abbreviation run_stages := (run_stages vector_type advance stage_input).
Abbreviation single_step :=
  (single_step vector_type advance stage_input final_combination).
Abbreviation step := (step vector_type advance stage_input final_combination).
Abbreviation stage_of := (stage_of advance).
Abbreviation whole_step :=
  (whole_step advance stage_input final_combination).

Lemma run_stages_length scheme cfl U t remaining results :
  length (run_stages scheme cfl U t remaining results)
  = (remaining + length results)%nat.
Proof.
  revert results. induction remaining as [| n IH]; intros results; simpl.
  - reflexivity.
  - destruct (stage_input scheme U t results) as [U_in tau_trial].
    rewrite IH, length_app. simpl. lia.
Qed.

Lemma run_stages_calls scheme cfl U t remaining results :
  Forall (stage_of cfl) results ->
  Forall (stage_of cfl) (run_stages scheme cfl U t remaining results).
Proof.
  revert results. induction remaining as [| n IH]; intros results H; simpl.
  - exact H.
  - destruct (stage_input scheme U t results) as [U_in tau_trial].
    apply IH. apply Forall_app. split; [exact H |].
    constructor; [| constructor]. exists U_in, tau_trial. reflexivity.
Qed.

Lemma single_step_fields scheme cfl U t :
  let a := single_step scheme cfl U t in
  trial_cfl a = cfl /\ started_from a = U
  /\ stages a = run_stages scheme cfl U t (number_of_stages scheme) []
  /\ violation a = existsb violated (stages a).
Proof.
  unfold TimeIntegrator.single_step.
  destruct (final_combination scheme U t _) as [U_new tau]. simpl.
  repeat split.
Qed.

Lemma single_step_whole scheme cfl U t :
  whole_step scheme U t (single_step scheme cfl U t).
Proof.
  destruct (single_step_fields scheme cfl U t) as (Hcfl & HU & Hst & _).
  unfold TimeIntegrator.whole_step. rewrite Hcfl, HU, Hst.
  split; [reflexivity | split; [reflexivity | split]].
  - rewrite run_stages_length. simpl. lia.
  - apply run_stages_calls. constructor.
Qed.

Lemma step_none context U t :
  cfl_recovery_strategy_ context = none ->
  let first :=
    single_step (time_stepping_scheme_ context) (cfl_max_ context) U t in
  step context U t = accept first false [first].
Proof. intros H. unfold TimeIntegrator.step. rewrite H. reflexivity. Qed.

Lemma step_bang_bang_retry context U t :
  cfl_recovery_strategy_ context = bang_bang_control ->
  let first :=
    single_step (time_stepping_scheme_ context) (cfl_max_ context) U t in
  let second :=
    single_step (time_stepping_scheme_ context) (cfl_min_ context) U t in
  violation first = true ->
  step context U t
  = accept second (violation second) [first; second].
Proof.
  intros H first second Hv. unfold TimeIntegrator.step. rewrite H.
  fold first. rewrite Hv. reflexivity.
Qed.

Lemma step_bang_bang_success context U t :
  cfl_recovery_strategy_ context = bang_bang_control ->
  let first :=
    single_step (time_stepping_scheme_ context) (cfl_max_ context) U t in
  violation first = false ->
  step context U t = accept first false [first].
Proof.
  intros H first Hv. unfold TimeIntegrator.step. rewrite H.
  fold first. rewrite Hv. reflexivity.
Qed.

Lemma step_attempts_whole context U t :
  Forall (whole_step (time_stepping_scheme_ context) U t)
    (attempts (step context U t)).
Proof.
  unfold TimeIntegrator.step.
  destruct (cfl_recovery_strategy_ context).
  - simpl. repeat constructor; apply single_step_whole.
  - destruct (violation _); simpl;
      repeat constructor; apply single_step_whole.
Qed.

(** What [step] returns is the result of one of its attempts. *)
Lemma step_accepts_an_attempt context U t :
  exists accepted,
    In accepted (attempts (step context U t))
    /\ U_new (step context U t) = new_state accepted
    /\ tau (step context U t) = step_size accepted
    /\ violation_observed (step context U t) = violation accepted.
Proof.
  unfold TimeIntegrator.step.
  destruct (cfl_recovery_strategy_ context).
  - eexists. simpl. repeat split. left. reflexivity.
  - destruct (violation _); eexists; simpl; repeat split.
    + right. left. reflexivity.
    + left. reflexivity.
Qed.

End Protocol.

Lemma stub_violates_at_cfl_max :
  violation
    (single_step R stub_advance stub_stage_input stub_final_combination
       ssprk_33 1 0 0) = true.
Proof.
  unfold single_step. simpl. unfold Rltb.
  destruct (Rlt_dec (1 / 2) 1); [reflexivity | lra].
Qed.

Lemma stub_admissible_at_cfl_min :
  violation
    (single_step R stub_advance stub_stage_input stub_final_combination
       ssprk_33 (1 / 4) 0 0) = false.
Proof.
  unfold single_step. simpl. unfold Rltb.
  destruct (Rlt_dec (1 / 2) (1 / 4)); [lra | reflexivity].
Qed.

End RecoveryProtocol.



(** ** The extremum reduction *)

Module ReductionFacts.
Import Reduction.

Lemma Rltb_irrefl (x : R) : Rltb x x = false.
Proof. unfold Rltb. destruct (Rlt_dec x x); [lra | reflexivity]. Qed.

Lemma update_improves (e : Extremum) (x y : Number) :
  update e x y = if improves e x y then y else x.
Proof. destruct e; reflexivity. Qed.

Lemma no_better_refl (e : Extremum) (x : Number) : no_better e x x.
Proof.
  unfold no_better. destruct e, x; simpl; auto using Rltb_irrefl.
Qed.

Lemma no_better_trans (e : Extremum) (x y z : Number) :
  no_better e x y -> no_better e y z -> no_better e x z.
Proof.
  unfold no_better.
  destruct e, x as [x |], y as [y |], z as [z |]; simpl;
    unfold Rltb; repeat destruct (Rlt_dec _ _);
    intros; try reflexivity; try discriminate; lra.
Qed.

Lemma no_better_antisym (e : Extremum) (x y : Number) :
  no_better e x y -> no_better e y x -> x = y.
Proof.
  unfold no_better.
  destruct e, x as [x |], y as [y |]; simpl;
    unfold Rltb; repeat destruct (Rlt_dec _ _);
    intros; try reflexivity; try discriminate; f_equal; lra.
Qed.

Lemma improves_no_better (e : Extremum) (x y : Number) :
  improves e x y = true -> no_better e x y.
Proof.
  unfold no_better.
  destruct e, x as [x |], y as [y |]; simpl;
    unfold Rltb; repeat destruct (Rlt_dec _ _);
    intros; try reflexivity; try discriminate; lra.
Qed.

Lemma update_choice (e : Extremum) (x y : Number) :
  update e x y = x \/ update e x y = y.
Proof. rewrite update_improves. destruct (improves e x y); auto. Qed.

Lemma update_no_better_l (e : Extremum) (x y : Number) :
  no_better e x (update e x y).
Proof.
  rewrite update_improves. destruct (improves e x y) eqn:H.
  - apply improves_no_better, H.
  - apply no_better_refl.
Qed.

Lemma update_no_better_r (e : Extremum) (x y : Number) :
  no_better e y (update e x y).
Proof.
  rewrite update_improves. destruct (improves e x y) eqn:H.
  - apply no_better_refl.
  - exact H.
Qed.

Lemma update_least (e : Extremum) (x y z : Number) :
  no_better e x z -> no_better e y z -> no_better e (update e x y) z.
Proof. intros Hx Hy. destruct (update_choice e x y) as [-> | ->]; auto. Qed.

Lemma update_comm (e : Extremum) (x y : Number) :
  update e x y = update e y x.
Proof.
  apply (no_better_antisym e); apply update_least;
    auto using update_no_better_l, update_no_better_r.
Qed.

Lemma update_assoc (e : Extremum) (x y z : Number) :
  update e x (update e y z) = update e (update e x y) z.
Proof.
  apply (no_better_antisym e); repeat apply update_least;
    eauto using update_no_better_l, update_no_better_r, no_better_trans.
Qed.

(** The private fold of a thread and the sequential merge. *)

Lemma fold_left_best (e : Extremum) (values : list Number) (s : Number) :
  best_of e s values (fold_left (update e) values s).
Proof.
  revert s. induction values as [| v values IH]; intros s; simpl.
  - repeat split; [left; reflexivity | apply no_better_refl | constructor].
  - destruct (IH (update e s v)) as (Hin & Hs & Hall).
    repeat split.
    + destruct Hin as [-> | Hin]; [| right; right; exact Hin].
      destruct (update_choice e s v) as [-> | ->]; [left | right; left];
        reflexivity.
    + eapply no_better_trans; [apply update_no_better_l | exact Hs].
    + constructor; [| exact Hall].
      eapply no_better_trans; [apply update_no_better_r | exact Hs].
Qed.

Lemma best_of_unique (e : Extremum) (s : Number) (values : list Number)
    (r r' : Number) :
  best_of e s values r -> best_of e s values r' -> r = r'.
Proof.
  intros (Hin & Hs & Hall) (Hin' & Hs' & Hall').
  rewrite Forall_forall in Hall, Hall'.
  apply (no_better_antisym e).
  - destruct Hin as [-> | Hin]; auto.
  - destruct Hin' as [-> | Hin']; auto.
Qed.

(** The compare-and-exchange loop under any interleaving. *)

Lemma invariant_start (e : Extremum) (locals : list Number) :
  invariant e (initial e) locals (start e locals).
Proof.
  unfold invariant, start. simpl. repeat split.
  - left. reflexivity.
  - apply no_better_refl.
  - rewrite map_map. simpl. apply map_id.
  - apply Forall_map. simpl. apply Forall_forall. intros; exact I.
Qed.

Lemma invariant_step (e : Extremum) (s0 : Number) (locals : list Number)
    (c c' : configuration) :
  step e c c' -> invariant e s0 locals c -> invariant e s0 locals c'.
Proof.
  intros Hstep. destruct Hstep as
    [s before v after | s before v temp after Hguard
    | s before v after Hguard | s before v temp after Hguard];
    unfold invariant; simpl; intros (Hin & Hs0 & Hmap & Hall);
    rewrite map_app in *; simpl in *;
    apply Forall_app in Hall as [Hbefore Hrest];
    inversion Hrest as [| t ts Ht Hafter]; subst t ts; simpl in Ht.
  - repeat split; try assumption.
    apply Forall_app. split; [assumption |].
    constructor; [simpl; apply no_better_refl | assumption].
  - repeat split; try assumption.
    apply Forall_app. split; [assumption |].
    constructor; [simpl | assumption].
    eapply no_better_trans; [exact Hguard | exact Ht].
  - assert (Hsv : no_better e s v) by (apply improves_no_better, Hguard).
    assert (Hlift : forall l,
               Forall (fun t => match at_ t with
                                | before_load => True
                                | in_loop temp => no_better e temp s
                                | done => no_better e (value t) s
                                end) l ->
               Forall (fun t => match at_ t with
                                | before_load => True
                                | in_loop temp => no_better e temp v
                                | done => no_better e (value t) v
                                end) l).
    { intros l. apply Forall_impl. intros t.
      destruct (at_ t); eauto using no_better_trans. }
    repeat split.
    + right. rewrite <- Hmap. apply in_or_app. right. left. reflexivity.
    + eapply no_better_trans; [exact Hs0 | exact Hsv].
    + assumption.
    + apply Forall_app. split; [apply Hlift; assumption |].
      constructor; [simpl; apply no_better_refl | apply Hlift; assumption].
  - repeat split; try assumption.
    apply Forall_app. split; [assumption |].
    constructor; [simpl; apply no_better_refl | assumption].
Qed.

Lemma invariant_run (e : Extremum) (s0 : Number) (locals : list Number)
    (c c' : configuration) :
  run e c c' -> invariant e s0 locals c -> invariant e s0 locals c'.
Proof.
  induction 1 as [c | c c' c'' Hstep _ IH]; intros Hinv.
  - exact Hinv.
  - apply IH. exact (invariant_step e s0 locals c c' Hstep Hinv).
Qed.

Lemma invariant_finished (e : Extremum) (s0 : Number) (locals : list Number)
    (c : configuration) :
  invariant e s0 locals c -> finished c -> best_of e s0 locals (shared c).
Proof.
  intros (Hin & Hs0 & Hmap & Hall) Hfin. repeat split; try assumption.
  rewrite <- Hmap. apply Forall_map.
  unfold finished in Hfin. rewrite Forall_forall in *.
  intros t Ht. specialize (Hall t Ht). rewrite (Hfin t Ht) in Hall.
  exact Hall.
Qed.

Lemma run_trans (e : Extremum) (c c' c'' : configuration) :
  run e c c' -> run e c' c'' -> run e c c''.
Proof.
  induction 1 as [c | c c1 c' Hstep _ IH]; intros H.
  - exact H.
  - eapply run_step; [exact Hstep | apply IH, H].
Qed.

(** The schedule in which the threads merge one after the other, each
    exchange succeeding at once. *)
Lemma sequential_schedule (e : Extremum) (locals : list Number) :
  forall (s : Number) (before : list thread),
    Forall (fun t => at_ t = done) before ->
    exists c,
      run e
        {| shared := s;
           threads :=
             before
             ++ map (fun v => {| value := v; at_ := before_load |}) locals |}
        c
      /\ finished c.
Proof.
  induction locals as [| v locals IH]; intros s before Hbefore; simpl.
  - eexists. split; [apply run_stop |].
    unfold finished. simpl. rewrite app_nil_r. exact Hbefore.
  - assert (Hdone : Forall (fun t => at_ t = done)
                      (before ++ [{| value := v; at_ := done |}])).
    { apply Forall_app. split; [exact Hbefore |].
      constructor; [reflexivity | constructor]. }
    destruct (improves e s v) eqn:Hguard.
    + destruct (IH v _ Hdone) as (c & Hrun & Hfin).
      exists c. split; [| exact Hfin].
      eapply run_step; [apply step_load |].
      eapply run_step; [apply step_exchange, Hguard |].
      rewrite <- app_assoc in Hrun. exact Hrun.
    + destruct (IH s _ Hdone) as (c & Hrun & Hfin).
      exists c. split; [| exact Hfin].
      eapply run_step; [apply step_load |].
      eapply run_step; [apply step_leave, Hguard |].
      rewrite <- app_assoc in Hrun. exact Hrun.
Qed.

Lemma rank_result_best (e : Extremum) (subranges : list (list Number))
    (r : Number) :
  rank_result e subranges r ->
  best_of e (initial e) (map (on_subrange e) subranges) r.
Proof.
  intros (c & Hrun & Hfin & <-).
  apply invariant_finished; [| exact Hfin].
  eapply invariant_run; [exact Hrun | apply invariant_start].
Qed.

Lemma rank_result_sequential (e : Extremum) (subranges : list (list Number))
    (r : Number) :
  rank_result e subranges r ->
  r = merge_sequentially e (map (on_subrange e) subranges).
Proof.
  intros H. apply rank_result_best in H.
  eapply best_of_unique; [exact H | apply fold_left_best].
Qed.

Lemma rank_result_exists (e : Extremum) (subranges : list (list Number)) :
  exists r, rank_result e subranges r.
Proof.
  destruct (sequential_schedule e (map (on_subrange e) subranges)
              (initial e) [] (Forall_nil _)) as (c & Hrun & Hfin).
  exists (shared c), c. repeat split; assumption.
Qed.

(** One rank, in terms of the quantities of its nodes. *)
Lemma rank_result_values (e : Extremum) (subranges : list (list Number))
    (r : Number) :
  rank_result e subranges r -> best_of e (initial e) (concat subranges) r.
Proof.
  intros H. apply rank_result_best in H. destruct H as (Hin & Hs & Hall).
  rewrite Forall_forall in Hall. repeat split.
  - destruct Hin as [-> | Hin]; [left; reflexivity |].
    apply in_map_iff in Hin as (q & <- & Hq).
    destruct (fold_left_best e q (initial e)) as ([Heq | Hin] & _ & _).
    + left. exact Heq.
    + right. apply in_concat. exists q. split; assumption.
  - exact Hs.
  - apply Forall_forall. intros v Hv.
    apply in_concat in Hv as (q & Hq & Hv).
    destruct (fold_left_best e q (initial e)) as (_ & _ & Hbound).
    rewrite Forall_forall in Hbound.
    eapply no_better_trans; [apply Hbound, Hv |].
    apply Hall. apply (in_map (on_subrange e)). exact Hq.
Qed.

(** The collective. *)

Lemma collective_extremum (e : Extremum) (l : list Number) (r : Number) :
  collective e l r -> is_extremum e l r.
Proof.
  induction 1 as [x | l1 l2 l x y _ [Hx Hl1] _ [Hy Hl2] Hperm].
  - split; [left; reflexivity |].
    constructor; [apply no_better_refl | constructor].
  - split.
    + apply (Permutation_in _ Hperm). apply in_or_app.
      destruct (update_choice e x y) as [-> | ->]; auto.
    + apply (Permutation_Forall Hperm). apply Forall_app. split.
      * revert Hl1. apply Forall_impl. intros v Hv.
        eapply no_better_trans; [exact Hv | apply update_no_better_l].
      * revert Hl2. apply Forall_impl. intros v Hv.
        eapply no_better_trans; [exact Hv | apply update_no_better_r].
Qed.

Lemma collective_exists (e : Extremum) (l : list Number) :
  l <> [] -> exists r, collective e l r.
Proof.
  induction l as [| x l IH]; [congruence | intros _].
  destruct l as [| y l].
  - exists x. constructor.
  - destruct (IH ltac:(discriminate)) as [r Hr].
    exists (update e x r).
    apply (collective_merge e [x] (y :: l)); [constructor | exact Hr |].
    apply Permutation_refl.
Qed.

(** The plain extremum. *)

Lemma extremum_is_extremum (e : Extremum) (l : list Number) (r : Number) :
  extremum e l = Some r -> is_extremum e l r.
Proof.
  revert r. induction l as [| x l IH]; intros r; simpl; [discriminate |].
  destruct (extremum e l) as [m |] eqn:Hm.
  - intros H. injection H as <-. destruct (IH m eq_refl) as [Hin Hall].
    split.
    + destruct (update_choice e x m) as [-> | ->];
        [left; reflexivity | right; exact Hin].
    + constructor; [apply update_no_better_l |].
      revert Hall. apply Forall_impl. intros v Hv.
      eapply no_better_trans; [exact Hv | apply update_no_better_r].
  - intros H. injection H as <-.
    destruct l as [| y l];
      [| simpl in Hm; destruct (extremum e l); discriminate].
    split; [left; reflexivity |].
    constructor; [apply no_better_refl | constructor].
Qed.

Lemma is_extremum_unique (e : Extremum) (l : list Number) (r r' : Number) :
  is_extremum e l r -> is_extremum e l r' -> r = r'.
Proof.
  intros [Hin Hall] [Hin' Hall']. rewrite Forall_forall in Hall, Hall'.
  apply (no_better_antisym e); auto.
Qed.

Lemma is_extremum_extremum (e : Extremum) (l : list Number) (r : Number) :
  is_extremum e l r -> extremum e l = Some r.
Proof.
  intros H. destruct (extremum e l) as [m |] eqn:Hm.
  - f_equal. eapply is_extremum_unique; [| exact H].
    apply extremum_is_extremum, Hm.
  - destruct l; [destruct H as [[] _] | simpl in Hm].
    destruct (extremum e l); discriminate.
Qed.

(** All ranks together. *)

Lemma contributions_cover (e : Extremum) (ranks : list (list (list Number)))
    (contributions : list Number) :
  Forall2 (rank_result e) ranks contributions ->
  Forall (fun c => (c = initial e \/ In c (concat (concat ranks)))
                   /\ no_better e (initial e) c) contributions
  /\ Forall (fun v => exists c, In c contributions /\ no_better e v c)
       (concat (concat ranks)).
Proof.
  induction 1 as [| subranges c ranks contributions Hc _ [IH1 IH2]]; simpl.
  - split; constructor.
  - apply rank_result_values in Hc. destruct Hc as (Hin & Hs & Hall).
    split.
    + constructor.
      * split; [| exact Hs]. destruct Hin as [-> | Hin]; [left | right].
        -- reflexivity.
        -- rewrite concat_app. apply in_or_app. left. exact Hin.
      * revert IH1. apply Forall_impl. intros c' [[-> | Hin'] Hs'].
        -- split; [left; reflexivity | exact Hs'].
        -- split; [right | exact Hs'].
           rewrite concat_app. apply in_or_app. right. exact Hin'.
    + rewrite concat_app. apply Forall_app. split.
      * revert Hall. apply Forall_impl. intros v Hv.
        exists c. split; [left; reflexivity | exact Hv].
      * revert IH2. apply Forall_impl. intros v (c' & Hc' & Hv).
        exists c'. split; [right; exact Hc' | exact Hv].
Qed.

Lemma reduction_extremum (e : Extremum) (ranks : list (list (list Number)))
    (values : list Number) (r : Number) :
  Permutation (concat (concat ranks)) values ->
  values <> [] ->
  Forall (no_better e (initial e)) values ->
  reduction e ranks r -> is_extremum e values r.
Proof.
  intros Hperm Hne Hinit (contributions & Hranks & Hcoll).
  apply collective_extremum in Hcoll as [Hin Hall].
  apply contributions_cover in Hranks as [Hc Hv].
  rewrite Forall_forall in Hall, Hc, Hv, Hinit.
  assert (Hbound : forall v, In v values -> no_better e v r).
  { intros v Hin'. apply Permutation_sym in Hperm.
    destruct (Hv v (Permutation_in _ Hperm Hin')) as (c & Hc' & Hvc).
    eapply no_better_trans; [exact Hvc | apply Hall, Hc']. }
  split; [| apply Forall_forall, Hbound].
  destruct (Hc r Hin) as [[-> | Hr] _].
  - destruct values as [| v values]; [congruence |].
    assert (v = initial e) as <-.
    { apply (no_better_antisym e);
        [apply Hbound | apply Hinit]; left; reflexivity. }
    left. reflexivity.
  - exact (Permutation_in _ Hperm Hr).
Qed.

Lemma reduction_exists (e : Extremum) (ranks : list (list (list Number))) :
  ranks <> [] -> exists r, reduction e ranks r.
Proof.
  intros Hne.
  assert (H : exists contributions,
             Forall2 (rank_result e) ranks contributions).
  { clear Hne. induction ranks as [| subranges ranks [cs IH]].
    - exists []. constructor.
    - destruct (rank_result_exists e subranges) as [c Hc].
      exists (c :: cs). constructor; assumption. }
  destruct H as [contributions H].
  destruct (collective_exists e contributions) as [r Hr].
  - intros ->. inversion H. congruence.
  - exists r, contributions. split; assumption.
Qed.

End ReductionFacts.

(** C8, amended: binary maximum and minimum are commutative and
    associative, and for at least one node value (all of them
    non-negative for an upper bound, whose accumulators start at 0)
    the reduction -- the private fold of every thread,
    the compare-and-exchange merges under any interleaving, the
    collective over the ranks along any tree -- has a result, and every
    result is the plain maximum (minimum) of the values, however the
    values are distributed over ranks and threads and in whatever order
    they are visited. *)
Theorem reduction_is_plain_extremum
    (e : Reduction.Extremum) (ranks : list (list (list Reduction.Number)))
    (values : list Reduction.Number) :
  Permutation (concat (concat ranks)) values ->
  values <> [] ->
  (e = Reduction.upper ->
   Forall (fun v => Reduction.less v (Reduction.finite 0) = false) values) ->
  (forall x y, Reduction.max x y = Reduction.max y x)
  /\ (forall x y z,
        Reduction.max x (Reduction.max y z)
        = Reduction.max (Reduction.max x y) z)
  /\ (forall x y, Reduction.min x y = Reduction.min y x)
  /\ (forall x y z,
        Reduction.min x (Reduction.min y z)
        = Reduction.min (Reduction.min x y) z)
  /\ (exists r, Reduction.reduction e ranks r)
  /\ (forall r, Reduction.reduction e ranks r ->
                Reduction.extremum e values = Some r).
Proof.
  intros Hperm Hne Hpos.
  split; [exact (ReductionFacts.update_comm Reduction.upper) |].
  split; [exact (ReductionFacts.update_assoc Reduction.upper) |].
  split; [exact (ReductionFacts.update_comm Reduction.lower) |].
  split; [exact (ReductionFacts.update_assoc Reduction.lower) |].
  split.
  - apply ReductionFacts.reduction_exists. intros ->.
    simpl in Hperm. apply Permutation_nil in Hperm. congruence.
  - intros r Hr. apply ReductionFacts.is_extremum_extremum.
    apply (ReductionFacts.reduction_extremum e ranks); try assumption.
    destruct e.
    + exact (Hpos eq_refl).
    + apply Forall_forall. intros v _. reflexivity.
Qed.

Lemma sample_values_nonnegative :
  Forall (fun v => Reduction.less v (Reduction.finite 0) = false)
    [Reduction.finite 1; Reduction.finite 3; Reduction.finite 2].
Proof.
  repeat constructor; simpl; unfold Rltb;
    destruct (Rlt_dec _ 0); (reflexivity || lra).
Qed.

Lemma reduction_is_plain_extremum_witness :
  let values :=
    [Reduction.finite 1; Reduction.finite 3; Reduction.finite 2] in
  let ranks :=
    [[[Reduction.finite 1]; [Reduction.finite 3]]; [[Reduction.finite 2]]] in
  (exists r, Reduction.reduction Reduction.upper ranks r)
  /\ (forall r, Reduction.reduction Reduction.upper ranks r ->
                Reduction.extremum Reduction.upper values = Some r).
Proof.
  exact (proj2 (proj2 (proj2 (proj2
           (reduction_is_plain_extremum Reduction.upper
              [[[Reduction.finite 1]; [Reduction.finite 3]];
               [[Reduction.finite 2]]]
              [Reduction.finite 1; Reduction.finite 3; Reduction.finite 2]
              (Permutation_refl _)
              (fun H => eq_ind [] (fun l => match l with
                                            | [] => True
                                            | _ :: _ => False
                                            end) I _ (eq_sym H))
              (fun _ => sample_values_nonnegative)))))).
Defined.

(** * Further properties of the code *)

(** ** The Riemann solver *)

Module RiemannSolverProperties.
Import RiemannSolver.

Lemma c_range (gamma_Z : R) : sqrt 2 / 2 <= c gamma_Z <= 1.
Proof.
  split.
  - destruct (Rle_dec gamma_Z 3) as [H | H].
    + apply Rle_trans with (c 3).
      * rewrite (CorrectionCoefficient.c_in_words 3). unfold SpecWords.c.
        destruct (Rle_dec 3 (5 / 3)); [lra |].
        destruct (Rle_dec 3 3); lra.
      * apply CorrectionCoefficient.c_nonincreasing, H.
    + rewrite CorrectionCoefficient.c_in_words. unfold SpecWords.c.
      destruct (Rle_dec gamma_Z (5 / 3)); [lra |].
      destruct (Rle_dec 3 gamma_Z); lra.
  - destruct (Rle_dec gamma_Z (5 / 3)) as [H | H].
    + rewrite CorrectionCoefficient.c_in_words. unfold SpecWords.c.
      destruct (Rle_dec gamma_Z (5 / 3)); lra.
    + apply Rle_trans with (c (5 / 3)).
      * apply CorrectionCoefficient.c_nonincreasing. lra.
      * rewrite (CorrectionCoefficient.c_in_words (5 / 3)).
        unfold SpecWords.c. destruct (Rle_dec (5 / 3) (5 / 3)); lra.
Qed.

Lemma inflation_at_least_one (p gamma p_star : R) :
  0 < p -> 0 < gamma ->
  1 <= sqrt (1 + 1 / 2 * (gamma + 1) / gamma
                 * positive_part ((p_star - p) / p)).
Proof.
  intros Hp Hg. rewrite <- sqrt_1 at 1. apply sqrt_le_1_alt.
  assert (0 <= 1 / 2 * (gamma + 1) / gamma)
    by (apply Rlt_le, Rdiv_lt_0_compat; lra).
  assert (0 <= positive_part ((p_star - p) / p))
    by (unfold positive_part; apply Rmax_l).
  assert (0 <= 1 / 2 * (gamma + 1) / gamma
               * positive_part ((p_star - p) / p))
    by (apply Rmult_le_pos; assumption).
  lra.
Qed.

Lemma speeds_bracket (s : primitive_type) (p_star : R) :
  0 < p s -> 0 < gamma s -> 0 <= a s ->
  lambda1_minus s p_star <= u s - a s
  /\ u s + a s <= lambda3_plus s p_star.
Proof.
  destruct s as [rho u p gamma a]. simpl. intros Hp Hg Ha.
  unfold lambda1_minus, lambda3_plus.
  pose proof (inflation_at_least_one p gamma p_star Hp Hg) as H.
  assert (a * 1 <= a * sqrt (1 + 1 / 2 * (gamma + 1) / gamma
                                 * positive_part ((p_star - p) / p)))
    by (apply Rmult_le_compat_l; assumption).
  split; lra.
Qed.

Lemma speeds_acoustic (s : primitive_type) (p_star : R) :
  0 < p s -> p_star <= p s ->
  lambda1_minus s p_star = u s - a s
  /\ lambda3_plus s p_star = u s + a s.
Proof.
  destruct s as [rho u p gamma a]. simpl. intros Hp Hle.
  unfold lambda1_minus, lambda3_plus.
  rewrite MirrorSymmetry.positive_part_below by assumption.
  rewrite Rmult_0_r, Rplus_0_r, sqrt_1. split; ring.
Qed.

Lemma compute_lambda_acoustic (i j : primitive_type) (q : R) :
  0 < p i -> 0 < p j -> q <= p i -> q <= p j ->
  compute_lambda i j q
  = Rmax (Rmax 0 (u j + a j)) (Rmax 0 (a i - u i)).
Proof.
  intros Hpi Hpj Hqi Hqj. unfold compute_lambda.
  destruct (speeds_acoustic i q Hpi Hqi) as [-> _].
  destruct (speeds_acoustic j q Hpj Hqj) as [_ ->].
  rewrite RiemannSolverFacts.std_max_Rmax.
  unfold positive_part, negative_part.
  replace (- (u i - a i)) with (a i - u i) by ring. reflexivity.
Qed.

Lemma phi_of_p_max_velocity_gap (b_interp : R) (i j : primitive_type) :
  u j - u i <= phi_of_p_max b_interp i j.
Proof.
  destruct i as [rho_i u_i p_i gamma_i a_i], j as [rho_j u_j p_j gamma_j a_j].
  unfold phi_of_p_max. simpl.
  assert (Hpos : forall x y, 0 <= x -> 0 <= x / sqrt y).
  { intros x y Hx. unfold Rdiv. apply Rmult_le_pos; [exact Hx |].
    destruct (Req_dec (sqrt y) 0) as [-> | Hne].
    - rewrite Rinv_0. lra.
    - apply Rlt_le, Rinv_0_lt_compat.
      pose proof (sqrt_pos y). lra. }
  assert (Hi : 0 <= std_max p_i p_j - p_i) by (unmask; lra).
  assert (Hj : 0 <= std_max p_i p_j - p_j) by (unmask; lra).
  pose proof (Hpos _ (1 / 2 * rho_i / (1 - b_interp * rho_i)
                      * ((gamma_i + 1) * std_max p_i p_j
                         + (gamma_i - 1) * p_i)) Hi).
  pose proof (Hpos _ (1 / 2 * rho_j / (1 - b_interp * rho_j)
                      * ((gamma_j + 1) * std_max p_i p_j
                         + (gamma_j - 1) * p_j)) Hj).
  lra.
Qed.

Lemma compute_capped (b_interp : R) (i j : primitive_type) :
  admissible i -> admissible j ->
  0 <= phi_of_p_max b_interp i j ->
  compute b_interp i j <= compute_lambda i j (std_max (p i) (p j)).
Proof.
  intros Hi Hj Hphi.
  rewrite RiemannSolverFacts.compute_selects.
  apply Bounds.compute_lambda_monotone; try assumption.
  unfold SpecWords.p_2.
  destruct (Rlt_dec (phi_of_p_max b_interp i j) 0); [lra |].
  rewrite RiemannSolverFacts.std_max_Rmax. apply Rmin_l.
Qed.

End RiemannSolverProperties.

(** The checked evaluation returns nothing but the value of the
    unchecked one. *)

Module CheckedSound.

Ltac invert_binds :=
  repeat match goal with
    | H : Checked.bind _ _ = Some _ |- _ =>
        apply Definedness.bind_inv in H; destruct H as (? & ? & H)
    | H : Checked.div _ _ = Some _ |- _ =>
        apply Definedness.div_inv in H; destruct H as [? ->]
    | H : Checked.sqrt _ = Some _ |- _ =>
        apply Definedness.sqrt_inv in H; destruct H as [? ->]
    | H : Checked.vec_pow _ _ = Some _ |- _ =>
        apply Definedness.vec_pow_inv in H; destruct H as [? ->]
    | H : Some _ = Some _ |- _ => injection H as <-
    end.

Lemma alpha_sound (b_interp rho gamma a v : R) :
  Checked.alpha b_interp rho gamma a = Some v ->
  v = RiemannSolver.alpha b_interp rho gamma a.
Proof. unfold Checked.alpha. intros H. invert_binds. reflexivity. Qed.

Lemma c_sound (gamma_Z v : R) :
  Checked.c gamma_Z = Some v -> v = RiemannSolver.c gamma_Z.
Proof. unfold Checked.c. intros H. invert_binds. reflexivity. Qed.

Lemma p_star_RS_aeos_sound (b_interp : R) (i j : primitive_type) (v : R) :
  Checked.p_star_RS_aeos b_interp i j = Some v ->
  v = RiemannSolver.p_star_RS_aeos b_interp i j.
Proof.
  destruct i as [rho_i u_i p_i gamma_i a_i], j as [rho_j u_j p_j gamma_j a_j].
  unfold Checked.p_star_RS_aeos. intros H.
  apply Definedness.bind_inv in H as (ali & Hali & H).
  apply Definedness.bind_inv in H as (alj & Halj & H).
  apply alpha_sound in Hali, Halj. subst ali alj.
  apply Definedness.bind_inv in H as (cg & Hcg & H).
  apply c_sound in Hcg. subst cg.
  invert_binds. reflexivity.
Qed.

Lemma p_star_SS_aeos_sound (b_interp : R) (i j : primitive_type) (v : R) :
  Checked.p_star_SS_aeos b_interp i j = Some v ->
  v = RiemannSolver.p_star_SS_aeos b_interp i j.
Proof.
  destruct i as [rho_i u_i p_i gamma_i a_i], j as [rho_j u_j p_j gamma_j a_j].
  unfold Checked.p_star_SS_aeos. intros H.
  apply Definedness.bind_inv in H as (ci & Hci & H).
  apply Definedness.bind_inv in H as (ali & Hali & H).
  apply Definedness.bind_inv in H as (cj & Hcj & H).
  apply Definedness.bind_inv in H as (alj & Halj & H).
  apply alpha_sound in Hali, Halj. apply c_sound in Hci, Hcj.
  subst ali alj ci cj.
  apply Definedness.bind_inv in H as (e & He & H).
  apply Definedness.div_inv in He as [_ ->].
  apply Definedness.bind_inv in H as (ei & Hei & H).
  apply Definedness.div_inv in Hei as [_ ->].
  apply Definedness.bind_inv in H as (pi & Hpi & H).
  apply Definedness.vec_pow_inv in Hpi as [_ ->].
  apply Definedness.bind_inv in H as (pj & Hpj & H).
  apply Definedness.vec_pow_inv in Hpj as [_ ->].
  apply Definedness.bind_inv in H as (base & Hbase & H).
  apply Definedness.div_inv in Hbase as [_ ->].
  apply Definedness.vec_pow_inv in H as [_ ->].
  reflexivity.
Qed.

Lemma phi_of_p_max_sound (b_interp : R) (i j : primitive_type) (v : R) :
  Checked.phi_of_p_max b_interp i j = Some v ->
  v = RiemannSolver.phi_of_p_max b_interp i j.
Proof.
  destruct i as [rho_i u_i p_i gamma_i a_i], j as [rho_j u_j p_j gamma_j a_j].
  unfold Checked.phi_of_p_max. intros H. invert_binds. reflexivity.
Qed.

Lemma lambda1_minus_sound (s : primitive_type) (p_star v : R) :
  Checked.lambda1_minus s p_star = Some v ->
  v = RiemannSolver.lambda1_minus s p_star.
Proof.
  destruct s as [rho u p gamma a].
  unfold Checked.lambda1_minus. intros H. invert_binds. reflexivity.
Qed.

Lemma lambda3_plus_sound (s : primitive_type) (p_star v : R) :
  Checked.lambda3_plus s p_star = Some v ->
  v = RiemannSolver.lambda3_plus s p_star.
Proof.
  destruct s as [rho u p gamma a].
  unfold Checked.lambda3_plus. intros H. invert_binds. reflexivity.
Qed.

Lemma compute_lambda_sound (i j : primitive_type) (p_star v : R) :
  Checked.compute_lambda i j p_star = Some v ->
  v = RiemannSolver.compute_lambda i j p_star.
Proof.
  unfold Checked.compute_lambda. intros H.
  apply Definedness.bind_inv in H as (n1 & H1 & H).
  apply Definedness.bind_inv in H as (n3 & H3 & H).
  apply lambda1_minus_sound in H1. apply lambda3_plus_sound in H3.
  subst n1 n3. injection H as <-. reflexivity.
Qed.

Lemma compute_sound (b_interp : R) (i j : primitive_type) (v : R) :
  Checked.compute b_interp i j = Some v ->
  v = RiemannSolver.compute b_interp i j.
Proof.
  intros H.
  assert (H' : exists phi ss rs,
             Checked.phi_of_p_max b_interp i j = Some phi
             /\ Checked.p_star_SS_aeos b_interp i j = Some ss
             /\ Checked.p_star_RS_aeos b_interp i j = Some rs
             /\ Checked.compute_lambda i j
                  (compare_and_apply_mask less_than phi 0 ss
                     (std_min (std_max (p i) (p j)) rs)) = Some v).
  { destruct i as [rho_i u_i p_i gamma_i a_i],
      j as [rho_j u_j p_j gamma_j a_j].
    unfold Checked.compute in H.
    apply Definedness.bind_inv in H as (phi & Hphi & H).
    apply Definedness.bind_inv in H as (ss & Hss & H).
    apply Definedness.bind_inv in H as (rs & Hrs & H).
    exists phi, ss, rs. repeat split; assumption. }
  destruct H' as (phi & ss & rs & Hphi & Hss & Hrs & Hv).
  apply phi_of_p_max_sound in Hphi. apply p_star_SS_aeos_sound in Hss.
  apply p_star_RS_aeos_sound in Hrs. apply compute_lambda_sound in Hv.
  subst phi ss rs v.
  destruct i as [rho_i u_i p_i gamma_i a_i], j as [rho_j u_j p_j gamma_j a_j].
  reflexivity.
Qed.

End CheckedSound.

(** ** Equal pressures, identical states *)

Module EqualStates.
Import RiemannSolver.

Lemma vec_pow_one (b : R) : vec_pow 1 b = 1.
Proof. unfold vec_pow, Rpower. rewrite ln_1, Rmult_0_r. apply exp_0. Qed.

Lemma vec_pow_inverse_exponent (x e : R) :
  0 < x -> e <> 0 -> vec_pow (vec_pow x e) (1 / e) = x.
Proof.
  intros Hx He. unfold vec_pow. rewrite Rpower_mult.
  replace (e * (1 / e)) with 1 by (field; exact He).
  apply Rpower_1, Hx.
Qed.

Lemma std_min_same (x : R) : std_min x x = x.
Proof. unmask; reflexivity. Qed.

Lemma std_max_same (x : R) : std_max x x = x.
Proof. unmask; reflexivity. Qed.

Lemma p_star_SS_aeos_equal (b_interp rho_i rho_j u p gamma_i gamma_j a_i a_j
    : R) :
  0 < p -> 0 < a_i -> 0 < a_j -> 1 < gamma_i -> 1 < gamma_j ->
  0 < 1 - b_interp * rho_i -> 0 < 1 - b_interp * rho_j ->
  p_star_SS_aeos b_interp (primitive rho_i u p gamma_i a_i)
    (primitive rho_j u p gamma_j a_j) = p.
Proof.
  intros Hp Hai Haj Hgi Hgj Hci Hcj.
  pose proof (Definedness.c_positive gamma_i ltac:(lra)) as Hcgi.
  pose proof (Definedness.c_positive gamma_j ltac:(lra)) as Hcgj.
  pose proof (Definedness.alpha_positive b_interp rho_i gamma_i a_i
                Hai Hgi Hci) as Hali.
  pose proof (Definedness.alpha_positive b_interp rho_j gamma_j a_j
                Haj Hgj Hcj) as Halj.
  unfold p_star_SS_aeos.
  set (A := c gamma_i * alpha b_interp rho_i gamma_i a_i).
  set (B := c gamma_j * alpha b_interp rho_j gamma_j a_j).
  assert (HA : 0 < A) by (apply Rmult_lt_0_compat; assumption).
  assert (HB : 0 < B) by (apply Rmult_lt_0_compat; assumption).
  assert (Hm : 1 < std_min gamma_i gamma_j) by (unmask; lra).
  set (e := (std_min gamma_i gamma_j - 1) / (2 * std_min gamma_i gamma_j)).
  assert (He : 0 < e) by (apply Rdiv_lt_0_compat; lra).
  pose proof (Definedness.vec_pow_positive p e) as Hpe.
  assert (Hinv : vec_pow p (- e) = / vec_pow p e)
    by (unfold vec_pow; apply Rpower_Ropp).
  rewrite Hinv.
  replace ((A + B - (u - u)) / (A * / vec_pow p e + B * / vec_pow p e))
    with (vec_pow p e) by (field; lra).
  apply vec_pow_inverse_exponent; lra.
Qed.

Lemma p_star_RS_base_equal (b_interp rho_i rho_j u p gamma_i gamma_j a_i a_j
    : R) :
  p <> 0 ->
  p_star_RS_base b_interp (primitive rho_i u p gamma_i a_i)
    (primitive rho_j u p gamma_j a_j) = 1.
Proof.
  intros Hp. unfold p_star_RS_base. simpl.
  rewrite std_min_same, std_max_same.
  replace (p / p) with 1 by (field; exact Hp).
  rewrite vec_pow_one.
  unfold Rdiv. ring.
Qed.

Lemma p_star_RS_aeos_equal (b_interp rho_i rho_j u p gamma_i gamma_j a_i a_j
    : R) :
  p <> 0 ->
  p_star_RS_aeos b_interp (primitive rho_i u p gamma_i a_i)
    (primitive rho_j u p gamma_j a_j) = p.
Proof.
  intros Hp. unfold p_star_RS_aeos.
  rewrite std_min_same, std_max_same.
  replace (p / p) with 1 by (field; exact Hp).
  rewrite vec_pow_one.
  match goal with
  | |- p * vec_pow ?base _ = p =>
      replace base with 1 by (unfold Rdiv; ring)
  end.
  rewrite vec_pow_one. ring.
Qed.

Lemma phi_of_p_max_equal (b_interp rho_i rho_j u p gamma_i gamma_j a_i a_j
    : R) :
  phi_of_p_max b_interp (primitive rho_i u p gamma_i a_i)
    (primitive rho_j u p gamma_j a_j) = 0.
Proof.
  unfold phi_of_p_max. rewrite std_max_same.
  unfold Rdiv. ring.
Qed.

Lemma compute_equal_pressure (b_interp rho_i rho_j u p gamma_i gamma_j a_i a_j
    : R) :
  0 < p ->
  compute b_interp (primitive rho_i u p gamma_i a_i)
    (primitive rho_j u p gamma_j a_j)
  = Rmax (Rmax 0 (u + a_j)) (Rmax 0 (a_i - u)).
Proof.
  intros Hp.
  rewrite RiemannSolverFacts.compute_selects.
  set (i := primitive rho_i u p gamma_i a_i).
  set (j := primitive rho_j u p gamma_j a_j).
  assert (Hbelow : SpecWords.p_2 b_interp i j <= p).
  { unfold SpecWords.p_2, i, j.
    rewrite phi_of_p_max_equal. destruct (Rlt_dec 0 0); [lra |].
    eapply Rle_trans; [apply Rmin_l |]. simpl.
    rewrite Rmax_left; lra. }
  apply (RiemannSolverProperties.compute_lambda_acoustic i j);
    simpl; assumption.
Qed.

Lemma Rmax_acoustic (u a : R) :
  0 <= a -> Rmax (Rmax 0 (u + a)) (Rmax 0 (a - u)) = Rabs u + a.
Proof.
  intros Ha. destruct (Rle_dec 0 u) as [Hu | Hu].
  - rewrite (Rabs_pos_eq u Hu), (Rmax_right 0 (u + a)) by lra.
    apply Rmax_left. apply Rmax_lub; lra.
  - rewrite (Rabs_left u) by lra.
    rewrite (Rmax_right 0 (a - u)) by lra.
    rewrite Rmax_right; [lra |]. apply Rmax_lub; lra.
Qed.

Lemma identical_states_well_defined (b_interp : R) (s : primitive_type) :
  admissible s -> gamma s <> 1 -> 0 < 1 - b_interp * rho s ->
  well_defined b_interp s s.
Proof.
  destruct s as [rho u p gamma a]. unfold admissible. simpl.
  intros (Hr & Hp & Hg & Ha) Hne Hcov.
  pose proof (Definedness.c_positive gamma ltac:(lra)) as Hcg.
  pose proof (Definedness.alpha_positive b_interp rho gamma a
                Ha ltac:(lra) Hcov) as Hal.
  unfold well_defined. simpl.
  rewrite p_star_RS_base_equal by lra.
  unfold p_star_SS_numerator. simpl.
  assert (0 < c gamma * alpha b_interp rho gamma a)
    by (apply Rmult_lt_0_compat; assumption).
  repeat split; try assumption; lra.
Qed.

End EqualStates.

(** X1: the correction coefficient lies between [sqrt 2 / 2] and 1 for
    every [gamma] and is non-increasing on the whole real line. *)
Theorem c_between_half_sqrt_2_and_one :
  (forall gamma, sqrt 2 / 2 <= RiemannSolver.c gamma <= 1)
  /\ (forall x y, x <= y -> RiemannSolver.c y <= RiemannSolver.c x).
Proof.
  split.
  - exact RiemannSolverProperties.c_range.
  - exact CorrectionCoefficient.c_nonincreasing.
Qed.

Lemma c_between_half_sqrt_2_and_one_witness :
  sqrt 2 / 2 <= RiemannSolver.c 2 <= 1
  /\ RiemannSolver.c 4 <= RiemannSolver.c 2.
Proof.
  split.
  - exact (proj1 c_between_half_sqrt_2_and_one 2).
  - apply (proj2 c_between_half_sqrt_2_and_one 2 4). lra.
Defined.

(** X2: for a state with positive pressure, positive [gamma] and
    non-negative sound speed, [lambda1_minus] is at most [u - a] and
    [lambda3_plus] at least [u + a], whatever the star pressure; for a
    star pressure not above the pressure of the state they are exactly
    [u - a] and [u + a]. *)
Theorem characteristic_speeds_bracket_acoustic
    (s : primitive_type) (p_star : R) :
  0 < p s -> 0 < gamma s -> 0 <= a s ->
  RiemannSolver.lambda1_minus s p_star <= u s - a s
  /\ u s + a s <= RiemannSolver.lambda3_plus s p_star
  /\ (p_star <= p s ->
      RiemannSolver.lambda1_minus s p_star = u s - a s
      /\ RiemannSolver.lambda3_plus s p_star = u s + a s).
Proof.
  intros Hp Hg Ha.
  destruct (RiemannSolverProperties.speeds_bracket s p_star Hp Hg Ha)
    as [H1 H3].
  split; [exact H1 | split; [exact H3 |]].
  exact (RiemannSolverProperties.speeds_acoustic s p_star Hp).
Qed.

Lemma characteristic_speeds_bracket_acoustic_witness :
  let s := primitive 1 2 1 (7 / 5) 1 in
  RiemannSolver.lambda1_minus s 3 <= 2 - 1
  /\ 2 + 1 <= RiemannSolver.lambda3_plus s 3
  /\ RiemannSolver.lambda3_plus s (1 / 2) = 2 + 1.
Proof.
  destruct (characteristic_speeds_bracket_acoustic
              (primitive 1 2 1 (7 / 5) 1) 3) as (H1 & H3 & _);
    [simpl; lra | simpl; lra | simpl; lra |].
  destruct (characteristic_speeds_bracket_acoustic
              (primitive 1 2 1 (7 / 5) 1) (1 / 2)) as (_ & _ & H);
    [simpl; lra | simpl; lra | simpl; lra |].
  split; [exact H1 | split; [exact H3 |]].
  apply H. simpl. lra.
Defined.

(** X3: for admissible states [compute_lambda] is non-decreasing in the
    star pressure: a larger star pressure gives a more pessimistic
    bound. *)
Theorem compute_lambda_monotone_in_star_pressure
    (i j : primitive_type) (q q' : R) :
  admissible i -> admissible j -> q <= q' ->
  RiemannSolver.compute_lambda i j q <= RiemannSolver.compute_lambda i j q'.
Proof. exact (Bounds.compute_lambda_monotone i j q q'). Qed.

Lemma compute_lambda_monotone_in_star_pressure_witness :
  let i := primitive 1 0 1 (7 / 5) 1 in
  let j := primitive (1 / 8) 0 (1 / 10) (7 / 5) 1 in
  RiemannSolver.compute_lambda i j (1 / 2)
  <= RiemannSolver.compute_lambda i j 2.
Proof.
  apply (compute_lambda_monotone_in_star_pressure
           (primitive 1 0 1 (7 / 5) 1)
           (primitive (1 / 8) 0 (1 / 10) (7 / 5) 1));
    unfold admissible; simpl; lra.
Defined.

(** X4: for admissible states and any star pressure not above either
    pressure, [compute_lambda] is the larger of [max (0, u_j + a_j)] and
    [max (0, a_i - u_i)], independent of the star pressure. *)
Theorem compute_lambda_below_both_pressures
    (i j : primitive_type) (q : R) :
  admissible i -> admissible j -> q <= p i -> q <= p j ->
  RiemannSolver.compute_lambda i j q
  = Rmax (Rmax 0 (u j + a j)) (Rmax 0 (a i - u i)).
Proof.
  intros (_ & Hpi & _) (_ & Hpj & _).
  apply RiemannSolverProperties.compute_lambda_acoustic; assumption.
Qed.

Lemma compute_lambda_below_both_pressures_witness :
  let i := primitive 1 0 1 (7 / 5) 1 in
  let j := primitive (1 / 8) 0 (1 / 10) (7 / 5) 1 in
  RiemannSolver.compute_lambda i j (1 / 20)
  = Rmax (Rmax 0 (0 + 1)) (Rmax 0 (1 - 0)).
Proof.
  apply (compute_lambda_below_both_pressures
           (primitive 1 0 1 (7 / 5) 1)
           (primitive (1 / 8) 0 (1 / 10) (7 / 5) 1));
    unfold admissible; simpl; lra.
Defined.

(** X5: whenever [compute] is defined on two admissible states, its
    value is non-negative and at least the two acoustic speeds
    [u_j + a_j] and [a_i - u_i]. *)
Theorem compute_at_least_acoustic_speeds
    (b_interp : R) (i j : primitive_type) (v : R) :
  admissible i -> admissible j ->
  Checked.compute b_interp i j = Some v ->
  0 <= v /\ u j + a j <= v /\ a i - u i <= v.
Proof.
  intros Hi Hj Hv. apply CheckedSound.compute_sound in Hv. subst v.
  destruct (Bounds.compute_at_least_acoustic b_interp i j Hi Hj) as [H1 H2].
  split; [| split; assumption].
  rewrite RiemannSolverFacts.compute_selects.
  apply RiemannSolverFacts.compute_lambda_nonnegative.
Qed.

(** X6: the velocity gap [u_j - u_i] is a lower bound of [phi_of_p_max]
    whenever that is defined; so for two admissible states that do not
    approach each other ([u_i <= u_j]) a defined [compute] takes the
    capped rarefaction-shock branch and is at most [compute_lambda] at
    the larger of the two pressures. *)
Theorem compute_capped_for_separating_states
    (b_interp : R) (i j : primitive_type) (phi v : R) :
  admissible i -> admissible j ->
  Checked.phi_of_p_max b_interp i j = Some phi ->
  Checked.compute b_interp i j = Some v ->
  u j - u i <= phi
  /\ (u i <= u j ->
      v <= RiemannSolver.compute_lambda i j (Rmax (p i) (p j))).
Proof.
  intros Hi Hj Hphi Hv.
  apply CheckedSound.phi_of_p_max_sound in Hphi.
  apply CheckedSound.compute_sound in Hv. subst phi v.
  pose proof (RiemannSolverProperties.phi_of_p_max_velocity_gap
                b_interp i j) as Hgap.
  split; [exact Hgap |].
  intros Hu. rewrite <- RiemannSolverFacts.std_max_Rmax.
  apply RiemannSolverProperties.compute_capped; try assumption. lra.
Qed.

(** X7: two admissible states with the same pressure and the same
    velocity ([gamma] above one and positive covolume factor on both
    sides): [phi_of_p_max] is zero and both estimates of the star
    pressure return the common pressure. *)
Theorem estimates_at_equal_pressure_and_velocity
    (b_interp : R) (i j : primitive_type) :
  admissible i -> admissible j ->
  gamma i <> 1 -> gamma j <> 1 ->
  0 < 1 - b_interp * rho i -> 0 < 1 - b_interp * rho j ->
  p i = p j -> u i = u j ->
  Checked.phi_of_p_max b_interp i j = Some 0
  /\ Checked.p_star_SS_aeos b_interp i j = Some (p i)
  /\ Checked.p_star_RS_aeos b_interp i j = Some (p i).
Proof.
  destruct i as [rho_i u_i p_i gamma_i a_i], j as [rho_j u_j p_j gamma_j a_j].
  cbn [rho u p gamma a]. intros Hi Hj Hni Hnj Hci Hcj Hp Hu. subst u_j p_j.
  set (i := primitive rho_i u_i p_i gamma_i a_i) in *.
  set (j := primitive rho_j u_i p_i gamma_j a_j) in *.
  assert (Hpi : 0 < p_i) by (destruct Hi as (_ & H & _); exact H).
  assert (Hgi : 1 <= gamma_i) by (destruct Hi as (_ & _ & H & _); exact H).
  assert (Hgj : 1 <= gamma_j) by (destruct Hj as (_ & _ & H & _); exact H).
  assert (Hai : 0 < a_i) by (destruct Hi as (_ & _ & _ & H); exact H).
  assert (Haj : 0 < a_j) by (destruct Hj as (_ & _ & _ & H); exact H).
  assert (Hss : 0 < p_star_SS_numerator b_interp i j).
  { unfold p_star_SS_numerator, i, j. simpl.
    pose proof (Definedness.c_positive gamma_i ltac:(lra)).
    pose proof (Definedness.c_positive gamma_j ltac:(lra)).
    pose proof (Definedness.alpha_positive b_interp rho_i gamma_i a_i
                  Hai ltac:(lra) Hci).
    pose proof (Definedness.alpha_positive b_interp rho_j gamma_j a_j
                  Haj ltac:(lra) Hcj).
    assert (0 < RiemannSolver.c gamma_i
                * RiemannSolver.alpha b_interp rho_i gamma_i a_i)
      by (apply Rmult_lt_0_compat; assumption).
    assert (0 < RiemannSolver.c gamma_j
                * RiemannSolver.alpha b_interp rho_j gamma_j a_j)
      by (apply Rmult_lt_0_compat; assumption).
    lra. }
  assert (Hrs : 0 < p_star_RS_base b_interp i j).
  { unfold i, j. rewrite EqualStates.p_star_RS_base_equal; lra. }
  rewrite (Definedness.phi_of_p_max_some b_interp i j Hi Hj Hci Hcj).
  rewrite (Definedness.p_star_SS_aeos_some b_interp i j
             Hi Hj Hni Hnj Hci Hcj Hss).
  rewrite (Definedness.p_star_RS_aeos_some b_interp i j
             Hi Hj Hni Hnj Hci Hcj Hrs).
  unfold i, j.
  rewrite EqualStates.phi_of_p_max_equal.
  rewrite EqualStates.p_star_SS_aeos_equal by (try assumption; lra).
  rewrite EqualStates.p_star_RS_aeos_equal by lra.
  repeat split.
Qed.

Lemma estimates_at_equal_pressure_and_velocity_witness :
  let i := primitive 1 (1 / 2) 1 (7 / 5) 1 in
  let j := primitive 2 (1 / 2) 1 (5 / 3) 3 in
  Checked.p_star_SS_aeos 0 i j = Some 1
  /\ Checked.p_star_RS_aeos 0 i j = Some 1.
Proof.
  exact (proj2 (estimates_at_equal_pressure_and_velocity 0
                  (primitive 1 (1 / 2) 1 (7 / 5) 1)
                  (primitive 2 (1 / 2) 1 (5 / 3) 3)
                  ltac:(unfold admissible; simpl; lra)
                  ltac:(unfold admissible; simpl; lra)
                  ltac:(simpl; lra) ltac:(simpl; lra)
                  ltac:(simpl; lra) ltac:(simpl; lra)
                  eq_refl eq_refl)).
Defined.

(** X8: for two identical admissible states ([gamma] different from
    one, positive covolume factor) [compute] is defined and returns
    [|u| + a]. *)
Theorem compute_of_identical_states
    (b_interp : R) (s : primitive_type) :
  admissible s -> gamma s <> 1 -> 0 < 1 - b_interp * rho s ->
  Checked.compute b_interp s s = Some (Rabs (u s) + a s).
Proof.
  intros Hs Hne Hcov.
  rewrite (Definedness.compute_some b_interp s s Hs Hs
             (EqualStates.identical_states_well_defined b_interp s
                Hs Hne Hcov)).
  destruct s as [rho_s u_s p_s gamma_s a_s].
  destruct Hs as (_ & Hp & _ & Ha). cbn [p a] in Hp, Ha. cbn [u a].
  rewrite EqualStates.compute_equal_pressure by assumption.
  rewrite EqualStates.Rmax_acoustic by lra. reflexivity.
Qed.

Lemma compute_of_identical_states_witness :
  Checked.compute 0 (primitive 1 (- 2) 1 (7 / 5) 1)
    (primitive 1 (- 2) 1 (7 / 5) 1)
  = Some (Rabs (- 2) + 1).
Proof.
  apply (compute_of_identical_states 0 (primitive 1 (- 2) 1 (7 / 5) 1));
    unfold admissible; simpl; lra.
Defined.

Lemma reference_states_evaluate :
  let s := primitive 1 0 1 (3 / 2) 1 in
  admissible s
  /\ Checked.phi_of_p_max 0 s s = Some (RiemannSolver.phi_of_p_max 0 s s)
  /\ Checked.compute 0 s s = Some (RiemannSolver.compute 0 s s).
Proof.
  destruct reference_states_well_defined as [Hs Hw].
  split; [exact Hs | split].
  - apply Definedness.phi_of_p_max_some; try exact Hs; simpl; lra.
  - apply Definedness.compute_some; assumption.
Qed.

Lemma compute_at_least_acoustic_speeds_witness :
  let s := primitive 1 0 1 (3 / 2) 1 in
  0 <= RiemannSolver.compute 0 s s
  /\ 0 + 1 <= RiemannSolver.compute 0 s s
  /\ 1 - 0 <= RiemannSolver.compute 0 s s.
Proof.
  exact (compute_at_least_acoustic_speeds 0 _ _ _
           (proj1 reference_states_evaluate)
           (proj1 reference_states_evaluate)
           (proj2 (proj2 reference_states_evaluate))).
Defined.

Lemma compute_capped_for_separating_states_witness :
  let s := primitive 1 0 1 (3 / 2) 1 in
  RiemannSolver.compute 0 s s
  <= RiemannSolver.compute_lambda s s (Rmax 1 1).
Proof.
  apply (proj2 (compute_capped_for_separating_states 0 _ _ _ _
                  (proj1 reference_states_evaluate)
                  (proj1 reference_states_evaluate)
                  (proj1 (proj2 reference_states_evaluate))
                  (proj2 (proj2 reference_states_evaluate)))).
  simpl. lra.
Defined.

(** ** Equations of state *)

(** X9: for the polytropic gas with [gamma] different from one and a
    non-zero density the two member functions are mutually inverse:
    the pressure of the energy of a pressure is that pressure, and the
    volumetric energy of the pressure of a volumetric energy is that
    energy. *)
Theorem polytropic_gas_round_trips
    (eos : EquationOfStateLibrary.PolytropicGas.t) (rho x : R) :
  rho <> 0 -> EquationOfStateLibrary.PolytropicGas.gamma_ eos <> 1 ->
  EquationOfStateLibrary.PolytropicGas.pressure_oracle eos rho
    (rho * EquationOfStateLibrary.PolytropicGas.sie_from_rho_p eos rho x)
  = x
  /\ rho * EquationOfStateLibrary.PolytropicGas.sie_from_rho_p eos rho
             (EquationOfStateLibrary.PolytropicGas.pressure_oracle
                eos rho x)
     = x.
Proof.
  intros Hrho Hgamma. split.
  - apply EquationOfStateFacts.polytropic_pressure_of_sie; assumption.
  - apply EquationOfStateFacts.polytropic_sie_of_pressure; assumption.
Qed.

Lemma polytropic_gas_round_trips_witness :
  let eos := EquationOfStateLibrary.PolytropicGas.default in
  EquationOfStateLibrary.PolytropicGas.pressure_oracle eos 2
    (2 * EquationOfStateLibrary.PolytropicGas.sie_from_rho_p eos 2 3)
  = 3.
Proof.
  apply (proj1 (polytropic_gas_round_trips
                  EquationOfStateLibrary.PolytropicGas.default 2 3
                  ltac:(lra) ltac:(simpl; lra))).
Defined.

(** X10: for the Noble-Abel stiffened gas with [gamma] different from
    one and [1 - b rho] different from zero, the pressure of the energy
    of a pressure [p] is [rho^2 (p + gamma pinf) - gamma pinf]; it is [p]
    again exactly when [rho^2 = 1] or [p + gamma pinf = 0]. *)
Theorem nasg_round_trip_scales_with_density_squared
    (eos : EquationOfStateLibrary.NobleAbleStiffenedGas.t) (rho p : R) :
  let gamma := EquationOfStateLibrary.NobleAbleStiffenedGas.gamma_ eos in
  let pinf := EquationOfStateLibrary.NobleAbleStiffenedGas.pinf_ eos in
  let round_trip :=
    EquationOfStateLibrary.NobleAbleStiffenedGas.pressure_oracle eos rho
      (rho * EquationOfStateLibrary.NobleAbleStiffenedGas.sie_from_rho_p
               eos rho p) in
  gamma <> 1 ->
  1 - EquationOfStateLibrary.NobleAbleStiffenedGas.b_ eos * rho <> 0 ->
  round_trip = rho * rho * (p + gamma * pinf) - gamma * pinf
  /\ (round_trip = p <-> rho * rho = 1 \/ p + gamma * pinf = 0).
Proof.
  intros gamma pinf round_trip Hgamma Hcov.
  assert (H : round_trip = rho * rho * (p + gamma * pinf) - gamma * pinf)
    by (apply EquationOfStateFacts.nasg_pressure_of_sie; assumption).
  split; [exact H |]. rewrite H. split.
  - intros Heq.
    assert (Hz : (rho * rho - 1) * (p + gamma * pinf) = 0) by lra.
    apply Rmult_integral in Hz. destruct Hz; [left | right]; lra.
  - intros [Hr | Hp].
    + rewrite Hr. lra.
    + replace (rho * rho * (p + gamma * pinf)) with 0
        by (rewrite Hp; ring).
      lra.
Qed.

Lemma nasg_round_trip_scales_with_density_squared_witness :
  let eos := EquationOfStateLibrary.NobleAbleStiffenedGas.Build
               (7 / 5) (1 / 10) 1 2 in
  EquationOfStateLibrary.NobleAbleStiffenedGas.pressure_oracle eos 3
    (3 * EquationOfStateLibrary.NobleAbleStiffenedGas.sie_from_rho_p
           eos 3 1)
  = 3 * 3 * (1 + 7 / 5 * 2) - 7 / 5 * 2.
Proof.
  apply (proj1 (nasg_round_trip_scales_with_density_squared
                  (EquationOfStateLibrary.NobleAbleStiffenedGas.Build
                     (7 / 5) (1 / 10) 1 2) 3 1
                  ltac:(simpl; lra) ltac:(simpl; lra))).
Defined.

(** X11: with [b = q = pinf = 0] the specific internal energy of the
    Noble-Abel stiffened gas is [rho^2] times the one of the polytropic
    gas with the same [gamma], for every non-zero density. *)
Theorem nasg_sie_is_density_squared_times_polytropic (gamma rho p : R) :
  rho <> 0 ->
  EquationOfStateLibrary.NobleAbleStiffenedGas.sie_from_rho_p
    (EquationOfStateLibrary.NobleAbleStiffenedGas.Build gamma 0 0 0) rho p
  = rho * rho
    * EquationOfStateLibrary.PolytropicGas.sie_from_rho_p
        (EquationOfStateLibrary.PolytropicGas.Build gamma) rho p.
Proof.
  intros Hrho.
  unfold EquationOfStateLibrary.NobleAbleStiffenedGas.sie_from_rho_p,
    EquationOfStateLibrary.PolytropicGas.sie_from_rho_p.
  simpl. unfold Rdiv. rewrite Rinv_mult.
  replace (rho * rho * (p * (/ rho * / (gamma - 1))))
    with (p * / (gamma - 1) * rho * (rho * / rho)) by ring.
  rewrite Rinv_r by exact Hrho. ring.
Qed.

Lemma nasg_sie_is_density_squared_times_polytropic_witness :
  EquationOfStateLibrary.NobleAbleStiffenedGas.sie_from_rho_p
    (EquationOfStateLibrary.NobleAbleStiffenedGas.Build (7 / 5) 0 0 0) 2 1
  = 2 * 2
    * EquationOfStateLibrary.PolytropicGas.sie_from_rho_p
        (EquationOfStateLibrary.PolytropicGas.Build (7 / 5)) 2 1.
Proof.
  apply (nasg_sie_is_density_squared_times_polytropic (7 / 5) 2 1). lra.
Defined.

(** X12: for the Noble-Abel stiffened gas with [gamma] above one and
    [1 - b rho] positive, the pressure oracle is strictly increasing in
    the volumetric internal energy, and [p + gamma pinf] is positive
    exactly when the volumetric internal energy exceeds [q rho]. *)
Theorem nasg_pressure_oracle_increasing
    (eos : EquationOfStateLibrary.NobleAbleStiffenedGas.t) (rho : R) :
  let gamma := EquationOfStateLibrary.NobleAbleStiffenedGas.gamma_ eos in
  let pinf := EquationOfStateLibrary.NobleAbleStiffenedGas.pinf_ eos in
  let q := EquationOfStateLibrary.NobleAbleStiffenedGas.q_ eos in
  let pressure :=
    EquationOfStateLibrary.NobleAbleStiffenedGas.pressure_oracle eos rho in
  1 < gamma ->
  0 < 1 - EquationOfStateLibrary.NobleAbleStiffenedGas.b_ eos * rho ->
  (forall e e', e < e' -> pressure e < pressure e')
  /\ (forall e, 0 < pressure e + gamma * pinf <-> q * rho < e).
Proof.
  intros gamma pinf q pressure Hgamma Hcov.
  set (slope := (gamma - 1)
                / (1 - EquationOfStateLibrary.NobleAbleStiffenedGas.b_ eos
                       * rho)).
  assert (Hform : forall e,
             pressure e = slope * (e - q * rho) - gamma * pinf).
  { intros e. unfold slope, pressure,
      EquationOfStateLibrary.NobleAbleStiffenedGas.pressure_oracle.
    cbv zeta. fold gamma pinf q. field. lra. }
  assert (Hslope : 0 < slope)
    by (unfold slope; apply Rdiv_lt_0_compat; lra).
  split.
  - intros e e' He. rewrite !Hform.
    apply Rplus_lt_compat_r. apply Rmult_lt_compat_l; lra.
  - intros e. rewrite Hform. split.
    + intros H.
      destruct (Rlt_dec (q * rho) e) as [Hlt | Hge]; [exact Hlt | exfalso].
      assert (Hnn : 0 <= slope * (q * rho - e))
        by (apply Rmult_le_pos; lra).
      replace (slope * (e - q * rho)) with (- (slope * (q * rho - e))) in H
        by ring.
      lra.
    + intros H.
      assert (0 < slope * (e - q * rho))
        by (apply Rmult_lt_0_compat; lra).
      lra.
Qed.

Lemma nasg_pressure_oracle_increasing_witness :
  let eos := EquationOfStateLibrary.NobleAbleStiffenedGas.Build
               (7 / 5) (1 / 10) 1 2 in
  EquationOfStateLibrary.NobleAbleStiffenedGas.pressure_oracle eos 3 4
  < EquationOfStateLibrary.NobleAbleStiffenedGas.pressure_oracle eos 3 5.
Proof.
  apply (proj1 (nasg_pressure_oracle_increasing
                  (EquationOfStateLibrary.NobleAbleStiffenedGas.Build
                     (7 / 5) (1 / 10) 1 2) 3
                  ltac:(simpl; lra) ltac:(simpl; lra)) 4 5).
  lra.
Defined.

(** ** Butcher tableaux *)

(** X13: each of the three documented tableaux is explicit (every stage
    uses earlier stages only), has the node of every stage equal to the
    sum of its coefficients, and satisfies the four conditions for
    order three. *)
Theorem tableaux_explicit_consistent_third_order
    (scheme : TimeSteppingScheme) :
  explicit_from 0 (stage_coefficients (butcher_tableau scheme)) = true
  /\ row_sums_match (butcher_tableau scheme) = true
  /\ third_order (butcher_tableau scheme) = true
  /\ length (nodes (butcher_tableau scheme)) = number_of_stages scheme
  /\ length (stage_coefficients (butcher_tableau scheme))
     = number_of_stages scheme.
Proof. destruct scheme; repeat split. Qed.

(** ** The compare-and-exchange merge *)

Module MergeProperties.
Import Reduction.

Lemma step_shared (e : Extremum) (c c' : configuration) :
  step e c c' ->
  no_better e (shared c) (shared c')
  /\ map value (threads c') = map value (threads c).
Proof.
  intros Hstep. destruct Hstep; simpl;
    (split;
     [first [apply ReductionFacts.no_better_refl
            | apply ReductionFacts.improves_no_better; assumption]
     | rewrite !map_app; reflexivity]).
Qed.

Lemma run_shared (e : Extremum) (c c' : configuration) :
  run e c c' ->
  no_better e (shared c) (shared c')
  /\ map value (threads c') = map value (threads c).
Proof.
  induction 1 as [c | c c' c'' Hstep _ [IH1 IH2]].
  - split; [apply ReductionFacts.no_better_refl | reflexivity].
  - destruct (step_shared e c c' Hstep) as [H1 H2]. split.
    + eapply ReductionFacts.no_better_trans; eassumption.
    + rewrite IH2. exact H2.
Qed.

(** From any configuration the threads that have not left the loop can
    be scheduled one after the other until all have. *)
Lemma finish_from (e : Extremum) (pending : list thread) :
  forall (s : Number) (before : list thread),
    Forall (fun t => at_ t = done) before ->
    exists c,
      run e {| shared := s; threads := before ++ pending |} c
      /\ finished c.
Proof.
  induction pending as [| [v pos] pending IH]; intros s before Hbefore.
  - eexists. split; [apply run_stop |].
    unfold finished. simpl. rewrite app_nil_r. exact Hbefore.
  - assert (Hdone : Forall (fun t => at_ t = done)
                      (before ++ [{| value := v; at_ := done |}])).
    { apply Forall_app. split; [exact Hbefore |].
      constructor; [reflexivity | constructor]. }
    assert (Hloop : forall s',
               exists c,
                 run e {| shared := s';
                          threads := before
                                     ++ {| value := v; at_ := in_loop s' |}
                                     :: pending |} c
                 /\ finished c).
    { intros s'. destruct (improves e s' v) eqn:Hguard.
      - destruct (IH v _ Hdone) as (c & Hrun & Hfin).
        exists c. split; [| exact Hfin].
        eapply run_step; [apply step_exchange, Hguard |].
        rewrite <- app_assoc in Hrun. exact Hrun.
      - destruct (IH s' _ Hdone) as (c & Hrun & Hfin).
        exists c. split; [| exact Hfin].
        eapply run_step; [apply step_leave, Hguard |].
        rewrite <- app_assoc in Hrun. exact Hrun. }
    destruct pos as [| temp |].
    + destruct (Hloop s) as (c & Hrun & Hfin).
      exists c. split; [| exact Hfin].
      eapply run_step; [apply step_load | exact Hrun].
    + destruct (improves e temp v) eqn:Hguard.
      * destruct (Hloop s) as (c & Hrun & Hfin).
        exists c. split; [| exact Hfin].
        eapply run_step; [apply step_retry, Hguard | exact Hrun].
      * destruct (IH s _ Hdone) as (c & Hrun & Hfin).
        exists c. split; [| exact Hfin].
        eapply run_step; [apply step_leave, Hguard |].
        rewrite <- app_assoc in Hrun. exact Hrun.
    + destruct (IH s _ Hdone) as (c & Hrun & Hfin).
      exists c. split; [| exact Hfin].
      rewrite <- app_assoc in Hrun. exact Hrun.
Qed.

Lemma best_of_permutation (e : Extremum) (s : Number) (l l' : list Number)
    (r : Number) :
  Permutation l l' -> best_of e s l r -> best_of e s l' r.
Proof.
  intros Hperm (Hin & Hs & Hall). repeat split.
  - destruct Hin as [-> | Hin]; [left; reflexivity | right].
    exact (Permutation_in _ Hperm Hin).
  - exact Hs.
  - exact (Permutation_Forall Hperm Hall).
Qed.

Lemma reduction_best (e : Extremum) (ranks : list (list (list Number)))
    (r : Number) :
  reduction e ranks r ->
  best_of e (initial e) (concat (concat ranks)) r.
Proof.
  intros (contributions & Hranks & Hcoll).
  apply ReductionFacts.collective_extremum in Hcoll as [Hin Hall].
  apply ReductionFacts.contributions_cover in Hranks as [Hc Hv].
  rewrite Forall_forall in Hall, Hc, Hv.
  destruct (Hc r Hin) as [Hr Hinit].
  repeat split; try assumption.
  apply Forall_forall. intros v Hv'.
  destruct (Hv v Hv') as (c & Hc' & Hvc).
  eapply ReductionFacts.no_better_trans; [exact Hvc | apply Hall, Hc'].
Qed.

End MergeProperties.

(** C8, as stated, fails: for the single node value [-2] the accumulators
    of the maximum start at 0 and nothing larger is ever merged, so the
    reduction has the result 0 and no other, while the plain maximum of
    the values is [-2]. *)
Lemma reduction_of_negative_value_is_zero :
  let ranks := [[[Reduction.finite (-2)]]] in
  Reduction.reduction Reduction.upper ranks (Reduction.finite 0)
  /\ (forall r, Reduction.reduction Reduction.upper ranks r ->
                r = Reduction.finite 0)
  /\ Reduction.extremum Reduction.upper (concat (concat ranks))
     = Some (Reduction.finite (-2))
  /\ Reduction.finite 0 <> Reduction.finite (-2).
Proof.
  cbv zeta.
  assert (Huniq : forall r,
             Reduction.reduction Reduction.upper
               [[[Reduction.finite (-2)]]] r ->
             r = Reduction.finite 0).
  { intros r Hr. apply MergeProperties.reduction_best in Hr.
    destruct Hr as ([-> | Hin] & Hs & _); [reflexivity |].
    simpl in Hin. destruct Hin as [<- | []].
    unfold Reduction.no_better in Hs. simpl in Hs. unfold Rltb in Hs.
    destruct (Rlt_dec (-2) 0); [discriminate Hs | lra]. }
  split; [| split; [exact Huniq | split]].
  - destruct (ReductionFacts.reduction_exists Reduction.upper
                [[[Reduction.finite (-2)]]] ltac:(discriminate))
      as [r Hr].
    rewrite <- (Huniq r Hr). exact Hr.
  - reflexivity.
  - intros H. injection H as H. lra.
Qed.

(** X14: along any interleaving of the compare-and-exchange loops the
    shared atomic never gets worse (never smaller for a maximum, never
    larger for a minimum), and the private values of the threads are
    left as they are. *)
Theorem atomic_never_gets_worse
    (e : Reduction.Extremum) (c c' : Reduction.configuration) :
  Reduction.run e c c' ->
  Reduction.no_better e (Reduction.shared c) (Reduction.shared c')
  /\ map Reduction.value (Reduction.threads c')
     = map Reduction.value (Reduction.threads c).
Proof. exact (MergeProperties.run_shared e c c'). Qed.

Lemma atomic_never_gets_worse_witness :
  let c := Reduction.start Reduction.upper [Reduction.finite 2] in
  let c' := {| Reduction.shared := Reduction.finite 0;
               Reduction.threads :=
                 [{| Reduction.value := Reduction.finite 2;
                     Reduction.at_ := Reduction.in_loop (Reduction.finite 0)
                  |}] |} in
  Reduction.no_better Reduction.upper (Reduction.shared c)
    (Reduction.shared c').
Proof.
  apply (proj1 (atomic_never_gets_worse Reduction.upper
                  (Reduction.start Reduction.upper [Reduction.finite 2]) _
                  (Reduction.run_step Reduction.upper _ _ _
                     (Reduction.step_load Reduction.upper
                        (Reduction.finite 0) [] (Reduction.finite 2) [])
                     (Reduction.run_stop Reduction.upper _)))).
Defined.

(** X15: from every configuration of the merge, whatever the threads
    have done so far, a configuration in which all threads have left the
    loop can be reached: no thread can block another. *)
Theorem merge_can_always_finish
    (e : Reduction.Extremum) (c : Reduction.configuration) :
  exists c', Reduction.run e c c' /\ Reduction.finished c'.
Proof.
  destruct c as [s threads].
  exact (MergeProperties.finish_from e threads s [] (Forall_nil _)).
Qed.

(** X16: whatever the node values (negative ones, none at all), every
    result of the reduction is the best of the initial value (0 for a
    maximum, infinity for a minimum) and of all node values: it is the
    initial value or one of the values, no worse than the initial value
    and no worse than any value. *)
Theorem reduction_is_best_of_initial_and_values
    (e : Reduction.Extremum) (ranks : list (list (list Reduction.Number)))
    (r : Reduction.Number) :
  Reduction.reduction e ranks r ->
  (r = Reduction.initial e \/ In r (concat (concat ranks)))
  /\ Reduction.no_better e (Reduction.initial e) r
  /\ Forall (fun v => Reduction.no_better e v r) (concat (concat ranks)).
Proof. exact (MergeProperties.reduction_best e ranks r). Qed.

Lemma reduction_is_best_of_initial_and_values_witness :
  exists r,
    Reduction.reduction Reduction.upper [[[]]] r
    /\ (r = Reduction.finite 0 \/ In r []).
Proof.
  destruct (ReductionFacts.reduction_exists Reduction.upper [[[]]]
              ltac:(discriminate)) as [r Hr].
  exists r. split; [exact Hr |].
  exact (proj1 (reduction_is_best_of_initial_and_values
                  Reduction.upper [[[]]] r Hr)).
Defined.

(** X17: the private extremum of a thread does not depend on the order
    in which the thread visits its nodes. *)
Theorem on_subrange_order_independent
    (e : Reduction.Extremum) (quantities quantities' : list Reduction.Number) :
  Permutation quantities quantities' ->
  Reduction.on_subrange e quantities = Reduction.on_subrange e quantities'.
Proof.
  intros Hperm. unfold Reduction.on_subrange.
  apply (ReductionFacts.best_of_unique e (Reduction.initial e) quantities).
  - apply ReductionFacts.fold_left_best.
  - apply (MergeProperties.best_of_permutation e _ quantities').
    + apply Permutation_sym, Hperm.
    + apply ReductionFacts.fold_left_best.
Qed.

Lemma on_subrange_order_independent_witness :
  Reduction.on_subrange Reduction.upper
    [Reduction.finite 1; Reduction.finite 3]
  = Reduction.on_subrange Reduction.upper
      [Reduction.finite 3; Reduction.finite 1].
Proof.
  apply (on_subrange_order_independent Reduction.upper
           [Reduction.finite 1; Reduction.finite 3]
           [Reduction.finite 3; Reduction.finite 1]).
  apply perm_swap.
Defined.

(** ** The schlieren quantity *)

Module TensorFacts.
Import Tensor.

Lemma dot_self_nonnegative (x : t) : 0 <= dot x x.
Proof.
  induction x as [| a x IH]; simpl; [lra |].
  pose proof (Rle_0_sqr a) as H. unfold Rsqr in H. lra.
Qed.

Lemma norm_nonnegative (x : t) : 0 <= norm x.
Proof. apply sqrt_pos. Qed.

Lemma dot_zero_l (n : nat) (y : t) : dot (zero n) y = 0.
Proof.
  revert y. induction n as [| n IH]; intros [| b y]; simpl; try reflexivity.
  rewrite IH. ring.
Qed.

Lemma norm_zero (n : nat) : norm (zero n) = 0.
Proof. unfold norm. rewrite dot_zero_l. apply sqrt_0. Qed.

Lemma dot_scale_l (k : R) (x y : t) : dot (scale k x) y = k * dot x y.
Proof.
  revert y. induction x as [| a x IH]; intros [| b y]; simpl;
    try ring.
  rewrite IH. ring.
Qed.

Lemma dot_sub_l (x x' y : t) :
  length x = length x' -> dot (sub x x') y = dot x y - dot x' y.
Proof.
  revert x' y. induction x as [| a x IH]; intros [| a' x'] y Hlen;
    simpl in Hlen; try discriminate.
  - simpl. ring.
  - destruct y as [| b y]; simpl; [ring |].
    unfold sub in IH. rewrite IH by congruence. ring.
Qed.

Lemma length_scale (k : R) (x : t) : length (scale k x) = length x.
Proof. apply length_map. Qed.

End TensorFacts.

Module SchlierenFacts.
Import Postprocessor.

Lemma schlieren_nonnegative (dim : nat) (n : node) :
  0 < lumped_mass n -> 0 <= schlieren dim n.
Proof.
  intros Hm. unfold schlieren. unfold Rdiv.
  apply Rmult_le_pos; [apply TensorFacts.norm_nonnegative |].
  apply Rlt_le, Rinv_0_lt_compat, Hm.
Qed.

Lemma fold_visit (dim : nat) (subrange : list node) :
  forall x y,
    fold_left (visit dim) subrange (x, y)
    = (fold_left (Reduction.update Reduction.upper)
         (quantities_on_subrange dim subrange) x,
       fold_left (Reduction.update Reduction.lower)
         (quantities_on_subrange dim subrange) y).
Proof.
  induction subrange as [| n subrange IH]; intros x y; simpl.
  - reflexivity.
  - unfold quantities_on_subrange in *. cbn [filter].
    unfold visit at 2. cbn [fst snd].
    destruct (Nat.eqb (row_length n) 1); cbn [negb map fold_left].
    + apply IH.
    + rewrite IH. reflexivity.
Qed.

Lemma quantities_nonnegative (dim : nat) (subrange : list node) :
  Forall (fun n => 0 < lumped_mass n) subrange ->
  Forall (fun v => Reduction.less v (Reduction.finite 0) = false)
    (quantities_on_subrange dim subrange).
Proof.
  intros Hm. unfold quantities_on_subrange.
  apply Forall_map. apply Forall_forall. intros n Hn.
  apply filter_In in Hn as [Hn _].
  rewrite Forall_forall in Hm. specialize (Hm n Hn).
  simpl. unfold Rltb.
  pose proof (schlieren_nonnegative dim n Hm).
  destruct (Rlt_dec (schlieren dim n) 0); [lra | reflexivity].
Qed.

Lemma quantities_app (dim : nat) (l l' : list node) :
  quantities_on_subrange dim (l ++ l')
  = quantities_on_subrange dim l ++ quantities_on_subrange dim l'.
Proof.
  unfold quantities_on_subrange. rewrite filter_app, map_app. reflexivity.
Qed.

Lemma quantities_concat (dim : nat) (subranges : list (list node)) :
  concat (map (quantities_on_subrange dim) subranges)
  = quantities_on_subrange dim (concat subranges).
Proof.
  induction subranges as [| s subranges IH]; simpl; [reflexivity |].
  rewrite quantities_app, IH. reflexivity.
Qed.

Lemma quantities_flatten (dim : nat) (ranks : list (list (list node))) :
  concat (concat (map (map (quantities_on_subrange dim)) ranks))
  = quantities_on_subrange dim (concat (concat ranks)).
Proof.
  induction ranks as [| subranges ranks IH]; simpl; [reflexivity |].
  rewrite !concat_app, quantities_app, IH, quantities_concat. reflexivity.
Qed.

Lemma fix_up_slip_tangential (normal grad_rho_i : Tensor.t) :
  length grad_rho_i = length normal ->
  Tensor.dot (fix_up_boundary (Some (normal, true)) grad_rho_i) normal
  = Tensor.dot grad_rho_i normal * (1 - Tensor.dot normal normal).
Proof.
  intros Hlen. simpl.
  rewrite TensorFacts.dot_sub_l
    by (rewrite TensorFacts.length_scale; exact Hlen).
  rewrite TensorFacts.dot_scale_l. ring.
Qed.

End SchlierenFacts.

(** X18: the loop of step 2 over the nodes of a subrange leaves in the
    private maximum and minimum the folds of the schlieren quantities of
    the nodes that are not constrained (constrained nodes, with
    [row_length == 1], change neither); with positive lumped masses none
    of these quantities is negative. *)
Theorem step_2_folds_unconstrained_quantities
    (dim : nat) (subrange : list Postprocessor.node) :
  Forall (fun n => 0 < Postprocessor.lumped_mass n) subrange ->
  Postprocessor.visit_subrange dim subrange
  = (Reduction.on_subrange Reduction.upper
       (Postprocessor.quantities_on_subrange dim subrange),
     Reduction.on_subrange Reduction.lower
       (Postprocessor.quantities_on_subrange dim subrange))
  /\ Forall (fun v => Reduction.less v (Reduction.finite 0) = false)
       (Postprocessor.quantities_on_subrange dim subrange).
Proof.
  intros Hm. split.
  - apply SchlierenFacts.fold_visit.
  - apply SchlierenFacts.quantities_nonnegative, Hm.
Qed.

(** X19: for nodes with positive lumped masses, at least one of them not
    constrained, every result of the reduction of the schlieren
    quantities is their plain maximum (minimum), however the nodes are
    distributed over ranks and threads. *)
Theorem schlieren_reduction_is_plain_extremum
    (e : Reduction.Extremum) (dim : nat)
    (ranks : list (list (list Postprocessor.node))) (r : Reduction.Number) :
  Forall (fun n => 0 < Postprocessor.lumped_mass n) (concat (concat ranks)) ->
  Postprocessor.quantities_on_subrange dim (concat (concat ranks)) <> [] ->
  Reduction.reduction e
    (map (map (Postprocessor.quantities_on_subrange dim)) ranks) r ->
  Reduction.extremum e
    (Postprocessor.quantities_on_subrange dim (concat (concat ranks)))
  = Some r.
Proof.
  intros Hm Hne Hr.
  pose proof (SchlierenFacts.quantities_flatten dim ranks) as Hflat.
  apply ReductionFacts.is_extremum_extremum.
  apply (ReductionFacts.reduction_extremum e
           (map (map (Postprocessor.quantities_on_subrange dim)) ranks));
    try assumption.
  - rewrite Hflat. apply Permutation_refl.
  - pose proof (SchlierenFacts.quantities_nonnegative dim _ Hm) as Hpos.
    destruct e.
    + exact Hpos.
    + apply Forall_forall. intros v _. reflexivity.
Qed.

Lemma sample_node_admissible :
  let n := {| Postprocessor.off_diagonal := [([1], 2)];
              Postprocessor.boundary := None;
              Postprocessor.lumped_mass := 1 |} in
  let constrained := {| Postprocessor.off_diagonal := [];
                        Postprocessor.boundary := None;
                        Postprocessor.lumped_mass := 1 |} in
  Forall (fun n => 0 < Postprocessor.lumped_mass n) [n; constrained]
  /\ Postprocessor.quantities_on_subrange 1 [n; constrained] <> [].
Proof.
  split.
  - repeat constructor; simpl; lra.
  - unfold Postprocessor.quantities_on_subrange. simpl. discriminate.
Qed.

Lemma step_2_folds_unconstrained_quantities_witness :
  let n := {| Postprocessor.off_diagonal := [([1], 2)];
              Postprocessor.boundary := None;
              Postprocessor.lumped_mass := 1 |} in
  let constrained := {| Postprocessor.off_diagonal := [];
                        Postprocessor.boundary := None;
                        Postprocessor.lumped_mass := 1 |} in
  Postprocessor.visit_subrange 1 [n; constrained]
  = (Reduction.on_subrange Reduction.upper
       (Postprocessor.quantities_on_subrange 1 [n; constrained]),
     Reduction.on_subrange Reduction.lower
       (Postprocessor.quantities_on_subrange 1 [n; constrained])).
Proof.
  exact (proj1 (step_2_folds_unconstrained_quantities 1 _
                  (proj1 sample_node_admissible))).
Defined.

Lemma schlieren_reduction_is_plain_extremum_witness :
  let n := {| Postprocessor.off_diagonal := [([1], 2)];
              Postprocessor.boundary := None;
              Postprocessor.lumped_mass := 1 |} in
  let constrained := {| Postprocessor.off_diagonal := [];
                        Postprocessor.boundary := None;
                        Postprocessor.lumped_mass := 1 |} in
  exists r,
    Reduction.extremum Reduction.upper
      (Postprocessor.quantities_on_subrange 1 [n; constrained]) = Some r.
Proof.
  destruct (ReductionFacts.reduction_exists Reduction.upper
              (map (map (Postprocessor.quantities_on_subrange 1))
                 [[[{| Postprocessor.off_diagonal := [([1], 2)];
                       Postprocessor.boundary := None;
                       Postprocessor.lumped_mass := 1 |};
                    {| Postprocessor.off_diagonal := [];
                       Postprocessor.boundary := None;
                       Postprocessor.lumped_mass := 1 |}]]])
              ltac:(discriminate)) as [r Hr].
  exists r.
  exact (schlieren_reduction_is_plain_extremum Reduction.upper 1
           [[[_; _]]] r
           (proj1 sample_node_admissible)
           (proj2 sample_node_admissible) Hr).
Defined.

Module BoundaryFacts.
Import Postprocessor.

Lemma length_zip_with (f : R -> R -> R) (x y : Tensor.t) :
  length x = length y -> length (Tensor.zip_with f x y) = length x.
Proof.
  revert y. induction x as [| a x IH]; intros [| b y] H; simpl in *;
    try discriminate; [reflexivity |].
  rewrite IH by congruence. reflexivity.
Qed.

Lemma length_accumulate (dim : nat) (columns : list (Tensor.t * R)) :
  Forall (fun column => length (fst column) = dim) columns ->
  length (accumulate_gradient dim columns) = dim.
Proof.
  unfold accumulate_gradient.
  assert (H : forall grad,
             length grad = dim ->
             Forall (fun column => length (fst column) = dim) columns ->
             length (fold_left
                       (fun grad_rho_i '(c_ij, rho_j) =>
                          Tensor.add grad_rho_i (Tensor.times c_ij rho_j))
                       columns grad) = dim).
  { induction columns as [| [c_ij rho_j] columns IH];
      intros grad Hgrad Hall; simpl.
    - exact Hgrad.
    - inversion Hall as [| column rest Hc Hrest]. subst column rest.
      simpl in Hc.
      apply IH; [| exact Hrest].
      unfold Tensor.add. rewrite length_zip_with.
      + exact Hgrad.
      + unfold Tensor.times. rewrite length_map. congruence. }
  intros Hall. apply H; [| exact Hall].
  unfold Tensor.zero. apply repeat_length.
Qed.

End BoundaryFacts.

(** X20: at a node of a slip boundary whose normal has unit length the
    fixed-up gradient has no normal component (all tensors of dimension
    [dim]); at a node of any other boundary the schlieren quantity is
    zero. *)
Theorem boundary_fix_up (dim : nat) (n : Postprocessor.node)
    (normal : Tensor.t) :
  (Postprocessor.boundary n = Some (normal, true) ->
   Forall (fun column => length (fst column) = dim)
     (Postprocessor.off_diagonal n) ->
   length normal = dim ->
   Tensor.dot normal normal = 1 ->
   Tensor.dot
     (Postprocessor.fix_up_boundary (Postprocessor.boundary n)
        (Postprocessor.accumulate_gradient dim
           (Postprocessor.off_diagonal n)))
     normal = 0)
  /\ (Postprocessor.boundary n = Some (normal, false) ->
      Postprocessor.schlieren dim n = 0).
Proof.
  split.
  - intros Hb Hcols Hlen Hunit. rewrite Hb.
    rewrite SchlierenFacts.fix_up_slip_tangential
      by (rewrite BoundaryFacts.length_accumulate; congruence).
    rewrite Hunit. ring.
  - intros Hb. unfold Postprocessor.schlieren. rewrite Hb. simpl.
    rewrite TensorFacts.norm_zero. unfold Rdiv. ring.
Qed.

Lemma boundary_fix_up_witness :
  let n := {| Postprocessor.off_diagonal := [([1; 2], 3)];
              Postprocessor.boundary := Some ([1; 0], true);
              Postprocessor.lumped_mass := 1 |} in
  Tensor.dot
    (Postprocessor.fix_up_boundary (Postprocessor.boundary n)
       (Postprocessor.accumulate_gradient 2 (Postprocessor.off_diagonal n)))
    [1; 0] = 0.
Proof.
  apply (proj1 (boundary_fix_up 2
                  {| Postprocessor.off_diagonal := [([1; 2], 3)];
                     Postprocessor.boundary := Some ([1; 0], true);
                     Postprocessor.lumped_mass := 1 |} [1; 0])).
  - reflexivity.
  - repeat constructor.
  - reflexivity.
  - simpl. ring.
Defined.

(** ** Step 3: the exponential scale *)

Module NormalizeFacts.
Import Postprocessor.

Lemma exp_monotone (x y : R) : x <= y -> exp x <= exp y.
Proof.
  intros [H | ->]; [left; apply exp_increasing, H | apply Rle_refl].
Qed.

Lemma exponent_monotone (beta r r' r_min r_max : R) :
  0 <= beta -> r_min < r_max -> r <= r' ->
  - beta * (r' - r_min) / (r_max - r_min)
  <= - beta * (r - r_min) / (r_max - r_min).
Proof.
  intros Hb Hm Hr. unfold Rdiv.
  apply Rmult_le_compat_r; [apply Rlt_le, Rinv_0_lt_compat; lra |].
  assert (beta * (r - r_min) <= beta * (r' - r_min))
    by (apply Rmult_le_compat_l; lra).
  lra.
Qed.

Lemma normalize_monotone (beta r r' r_min r_max : R) :
  0 <= beta -> r_min < r_max -> r <= r' ->
  normalize beta r r_min r_max <= normalize beta r' r_min r_max.
Proof.
  intros Hb Hm Hr. unfold normalize.
  pose proof (exp_monotone _ _
                (exponent_monotone beta r r' r_min r_max Hb Hm Hr)).
  lra.
Qed.

Lemma normalize_at_min (beta r_min r_max : R) :
  normalize beta r_min r_min r_max = 0.
Proof.
  unfold normalize.
  replace (- beta * (r_min - r_min) / (r_max - r_min)) with 0
    by (unfold Rdiv; ring).
  rewrite exp_0. ring.
Qed.

Lemma normalize_at_max (beta r_min r_max : R) :
  r_min < r_max -> normalize beta r_max r_min r_max = 1 - exp (- beta).
Proof.
  intros Hm. unfold normalize.
  replace (- beta * (r_max - r_min) / (r_max - r_min)) with (- beta)
    by (field; lra).
  reflexivity.
Qed.

End NormalizeFacts.

(** X21: for a non-negative beta and [r_i_min < r_i_max], step 3 is
    non-decreasing in the node value, maps the minimum to 0 and the
    maximum to [1 - exp (- beta)], and so maps every value between the
    two into the interval from 0 to [1 - exp (- beta)], below 1. *)
Theorem normalize_scales_into_unit_interval
    (beta r_i_min r_i_max : R) :
  0 <= beta -> r_i_min < r_i_max ->
  (forall r r', r <= r' ->
     Postprocessor.normalize beta r r_i_min r_i_max
     <= Postprocessor.normalize beta r' r_i_min r_i_max)
  /\ Postprocessor.normalize beta r_i_min r_i_min r_i_max = 0
  /\ Postprocessor.normalize beta r_i_max r_i_min r_i_max
     = 1 - exp (- beta)
  /\ (forall r, r_i_min <= r <= r_i_max ->
        0 <= Postprocessor.normalize beta r r_i_min r_i_max
        <= 1 - exp (- beta)
        /\ Postprocessor.normalize beta r r_i_min r_i_max < 1).
Proof.
  intros Hb Hm.
  split; [intros r r'; apply NormalizeFacts.normalize_monotone; assumption |].
  split; [apply NormalizeFacts.normalize_at_min |].
  split; [apply NormalizeFacts.normalize_at_max, Hm |].
  intros r [Hl Hu].
  pose proof (NormalizeFacts.normalize_monotone beta r_i_min r
                r_i_min r_i_max Hb Hm Hl) as H1.
  pose proof (NormalizeFacts.normalize_monotone beta r r_i_max
                r_i_min r_i_max Hb Hm Hu) as H2.
  rewrite NormalizeFacts.normalize_at_min in H1.
  rewrite NormalizeFacts.normalize_at_max in H2 by exact Hm.
  pose proof (exp_pos (- beta)).
  repeat split; lra.
Qed.

Lemma normalize_scales_into_unit_interval_witness :
  0 <= Postprocessor.normalize 10 2 1 3 <= 1 - exp (- 10).
Proof.
  apply (proj2 (proj2 (proj2 (normalize_scales_into_unit_interval 10 1 3
                                ltac:(lra) ltac:(lra)))) 2).
  lra.
Defined.

(** X22: when all unconstrained nodes have the same schlieren value,
    every result of the reduction of step 2 for the maximum and every
    result for the minimum is that value, however the nodes are
    distributed over ranks and threads, and step 3 then divides by
    [r_i_max - r_i_min = 0] at every node: the exponential scale of a
    constant field is undefined. *)
Theorem constant_field_is_not_scaled
    (dim : nat) (ranks : list (list (list Postprocessor.node))) (v : R)
    (r_i_max r_i_min : Reduction.Number) :
  Forall (fun n => 0 < Postprocessor.lumped_mass n) (concat (concat ranks)) ->
  Postprocessor.quantities_on_subrange dim (concat (concat ranks)) <> [] ->
  Forall (fun n => Postprocessor.row_length n <> 1%nat ->
                   Postprocessor.schlieren dim n = v)
    (concat (concat ranks)) ->
  Reduction.reduction Reduction.upper
    (map (map (Postprocessor.quantities_on_subrange dim)) ranks) r_i_max ->
  Reduction.reduction Reduction.lower
    (map (map (Postprocessor.quantities_on_subrange dim)) ranks) r_i_min ->
  r_i_max = Reduction.finite v
  /\ r_i_min = Reduction.finite v
  /\ (forall beta r_i maximum minimum,
        r_i_max = Reduction.finite maximum ->
        r_i_min = Reduction.finite minimum ->
        Postprocessor.normalize_checked beta r_i minimum maximum = None).
Proof.
  intros Hm Hne Hconst Hmax Hmin.
  set (quantities :=
         Postprocessor.quantities_on_subrange dim (concat (concat ranks)))
    in *.
  assert (Hall : Forall (fun x => x = Reduction.finite v) quantities).
  { apply Forall_forall. intros x Hx.
    unfold quantities, Postprocessor.quantities_on_subrange in Hx.
    apply in_map_iff in Hx as (n & <- & Hn).
    apply filter_In in Hn as [Hn Hrow].
    rewrite Forall_forall in Hconst. f_equal. apply (Hconst n Hn).
    intros Heq. rewrite Heq in Hrow. discriminate Hrow. }
  assert (Hresult : forall e r,
             Reduction.reduction e
               (map (map (Postprocessor.quantities_on_subrange dim)) ranks)
               r ->
             r = Reduction.finite v).
  { intros e r Hr.
    apply (ReductionFacts.is_extremum_unique e quantities).
    - apply (ReductionFacts.reduction_extremum e
               (map (map (Postprocessor.quantities_on_subrange dim)) ranks));
        try assumption.
      + rewrite SchlierenFacts.quantities_flatten. apply Permutation_refl.
      + pose proof (SchlierenFacts.quantities_nonnegative dim _ Hm)
          as Hpos.
        destruct e.
        * exact Hpos.
        * apply Forall_forall. intros x _. reflexivity.
    - split.
      + destruct quantities as [| x rest]; [congruence |].
        inversion Hall as [| ? ? Hx _]. subst x. left. reflexivity.
      + revert Hall. apply Forall_impl. intros x ->.
        apply ReductionFacts.no_better_refl. }
  pose proof (Hresult _ _ Hmax) as Emax.
  pose proof (Hresult _ _ Hmin) as Emin.
  split; [exact Emax | split; [exact Emin |]].
  intros beta r_i maximum minimum Hmaximum Hminimum.
  rewrite Emax in Hmaximum. rewrite Emin in Hminimum.
  injection Hmaximum as <-. injection Hminimum as <-.
  unfold Postprocessor.normalize_checked, Checked.div.
  destruct (Req_dec_T (v - v) 0) as [_ | Hne']; [reflexivity | lra].
Qed.

Lemma sample_constant_field :
  let n := {| Postprocessor.off_diagonal := [([1], 2)];
              Postprocessor.boundary := None;
              Postprocessor.lumped_mass := 1 |} in
  let constrained := {| Postprocessor.off_diagonal := [];
                        Postprocessor.boundary := None;
                        Postprocessor.lumped_mass := 1 |} in
  Forall (fun n => 0 < Postprocessor.lumped_mass n)
    (concat (concat [[[n]; [constrained]]; [[n]]]))
  /\ Postprocessor.quantities_on_subrange 1
       (concat (concat [[[n]; [constrained]]; [[n]]])) <> []
  /\ Forall (fun n' => Postprocessor.row_length n' <> 1%nat ->
                       Postprocessor.schlieren 1 n'
                       = Postprocessor.schlieren 1 n)
       (concat (concat [[[n]; [constrained]]; [[n]]])).
Proof.
  cbv zeta. split; [| split].
  - repeat constructor; simpl; lra.
  - unfold Postprocessor.quantities_on_subrange. simpl. discriminate.
  - repeat constructor; try reflexivity.
    intros H. exfalso. apply H. reflexivity.
Qed.

Lemma constant_field_is_not_scaled_witness :
  let n := {| Postprocessor.off_diagonal := [([1], 2)];
              Postprocessor.boundary := None;
              Postprocessor.lumped_mass := 1 |} in
  let constrained := {| Postprocessor.off_diagonal := [];
                        Postprocessor.boundary := None;
                        Postprocessor.lumped_mass := 1 |} in
  exists r_i_max r_i_min,
    Reduction.reduction Reduction.upper
      (map (map (Postprocessor.quantities_on_subrange 1))
         [[[n]; [constrained]]; [[n]]]) r_i_max
    /\ Reduction.reduction Reduction.lower
         (map (map (Postprocessor.quantities_on_subrange 1))
            [[[n]; [constrained]]; [[n]]]) r_i_min
    /\ r_i_max = Reduction.finite (Postprocessor.schlieren 1 n)
    /\ r_i_min = Reduction.finite (Postprocessor.schlieren 1 n).
Proof.
  cbv zeta.
  destruct (ReductionFacts.reduction_exists Reduction.upper
              (map (map (Postprocessor.quantities_on_subrange 1))
                 [[[{| Postprocessor.off_diagonal := [([1], 2)];
                       Postprocessor.boundary := None;
                       Postprocessor.lumped_mass := 1 |}];
                    [{| Postprocessor.off_diagonal := [];
                        Postprocessor.boundary := None;
                        Postprocessor.lumped_mass := 1 |}]];
                  [[{| Postprocessor.off_diagonal := [([1], 2)];
                       Postprocessor.boundary := None;
                       Postprocessor.lumped_mass := 1 |}]]])
              ltac:(discriminate)) as [r_i_max Hmax].
  destruct (ReductionFacts.reduction_exists Reduction.lower
              (map (map (Postprocessor.quantities_on_subrange 1))
                 [[[{| Postprocessor.off_diagonal := [([1], 2)];
                       Postprocessor.boundary := None;
                       Postprocessor.lumped_mass := 1 |}];
                    [{| Postprocessor.off_diagonal := [];
                        Postprocessor.boundary := None;
                        Postprocessor.lumped_mass := 1 |}]];
                  [[{| Postprocessor.off_diagonal := [([1], 2)];
                       Postprocessor.boundary := None;
                       Postprocessor.lumped_mass := 1 |}]]])
              ltac:(discriminate)) as [r_i_min Hmin].
  exists r_i_max, r_i_min.
  split; [exact Hmax | split; [exact Hmin |]].
  pose proof (constant_field_is_not_scaled 1 _ _ r_i_max r_i_min
                (proj1 sample_constant_field)
                (proj1 (proj2 sample_constant_field))
                (proj2 (proj2 sample_constant_field)) Hmax Hmin)
    as (Emax & Emin & _).
  split; assumption.
Defined.

(** ** The output filter of [write_out_vtu] *)

Module CellSelectionFacts.
Import Postprocessor.

Lemma Rltb_true (x y : R) : Rltb x y = true <-> x < y.
Proof.
  unfold Rltb. destruct (Rlt_dec x y); split; intros H;
    try reflexivity; try assumption; try discriminate; contradiction.
Qed.

(** The plane crosses the cell: some vertex lies above the lower face of
    the slab and some vertex below its upper face. *)
Lemma scan_vertices_spec (pl : plane) (vs : list Tensor.t) :
  forall above below,
    ~ (0 < above /\ 0 < below)%nat ->
    (scan_vertices pl vs above below = true
     <-> ((0 < above)%nat \/ exists v, In v vs /\ above_lower_face pl v)
         /\ ((0 < below)%nat \/ exists v, In v vs /\ below_upper_face pl v)).
Proof.
  unfold above_lower_face, below_upper_face.
  induction vs as [| v vs IH]; intros above below Hnot; simpl.
  - split; [discriminate |].
    intros [[Ha | (v & [] & _)] [Hb | (v' & [] & _)]]. tauto.
  - destruct (Rltb (- tolerance pl) (distance pl v)) eqn:HA;
      destruct (Rltb (distance pl v) (tolerance pl)) eqn:HB;
      try (apply Rltb_true in HA); try (apply Rltb_true in HB);
      try (assert (HA' : ~ - tolerance pl < distance pl v)
             by (intros H; apply Rltb_true in H; congruence));
      try (assert (HB' : ~ distance pl v < tolerance pl)
             by (intros H; apply Rltb_true in H; congruence)).
    + simpl. split; [intros _ | reflexivity].
      split; right; exists v; split; auto.
    + destruct (Nat.ltb 0 below) eqn:Hb; simpl.
      * apply Nat.ltb_lt in Hb. split; [intros _ | reflexivity].
        split; [right; exists v; auto | left; exact Hb].
      * apply Nat.ltb_ge in Hb. rewrite IH by lia. split.
        -- intros [_ [Hb' | (v' & Hin & Hv')]]; [lia |].
           split; [right; exists v; auto | right; exists v'; auto].
        -- intros [_ [Hb' | (v' & [<- | Hin] & Hv')]];
             [lia | contradiction |].
           split; [left; lia | right; exists v'; auto].
    + destruct (Nat.ltb 0 above) eqn:Ha; simpl.
      * apply Nat.ltb_lt in Ha. split; [intros _ | reflexivity].
        split; [left; exact Ha | right; exists v; auto].
      * apply Nat.ltb_ge in Ha. rewrite IH by lia. split.
        -- intros [[Ha' | (v' & Hin & Hv')] _]; [lia |].
           split; [right; exists v'; auto | right; exists v; auto].
        -- intros [[Ha' | (v' & [<- | Hin] & Hv')] _];
             [lia | contradiction |].
           split; [right; exists v'; auto | left; lia].
    + assert (Hstop : Nat.ltb 0 above && Nat.ltb 0 below = false).
      { apply andb_false_iff.
        destruct (Nat.ltb 0 above) eqn:Ha; [right | left; reflexivity].
        apply Nat.ltb_lt in Ha. apply Nat.ltb_ge. lia. }
      rewrite Hstop, IH by exact Hnot.
      assert (Hshift : forall P : Tensor.t -> Prop,
                 ~ P v ->
                 ((exists v', In v' vs /\ P v')
                  <-> (exists v', (v = v' \/ In v' vs) /\ P v'))).
      { intros P HP. split.
        - intros (v' & Hin & Hv'). exists v'. auto.
        - intros (v' & [<- | Hin] & Hv'); [contradiction |].
          exists v'. auto. }
      rewrite (Hshift (fun v' => - tolerance pl < distance pl v') HA').
      rewrite (Hshift (fun v' => distance pl v' < tolerance pl) HB').
      reflexivity.
Qed.

Lemma scan_vertices_crosses (pl : plane) (c : cell) :
  scan_vertices pl (vertices c) 0 0 = true <-> crosses pl c.
Proof.
  rewrite scan_vertices_spec by lia. unfold crosses. split.
  - intros [[Ha | Ha] [Hb | Hb]]; try lia. split; assumption.
  - intros [Ha Hb]. split; right; assumption.
Qed.

Lemma scan_planes_spec (planes : list plane) (c : cell) :
  scan_planes planes c = true
  <-> exists pl, In pl planes /\ crosses pl c.
Proof.
  induction planes as [| pl planes IH]; simpl.
  - split; [discriminate | intros (pl & [] & _)].
  - destruct (scan_vertices pl (vertices c) 0 0) eqn:Hs.
    + split; [intros _ | reflexivity].
      exists pl. split; [left; reflexivity |].
      apply scan_vertices_crosses, Hs.
    + rewrite IH. split.
      * intros (pl' & Hin & Hc). exists pl'. auto.
      * intros (pl' & [<- | Hin] & Hc).
        -- apply scan_vertices_crosses in Hc. congruence.
        -- exists pl'. auto.
Qed.

Lemma cell_selection_spec (planes : list plane) (c : cell) :
  cell_selection planes c = true
  <-> is_active c = true /\ is_artificial c = false
      /\ (planes = [] \/ exists pl, In pl planes /\ crosses pl c).
Proof.
  unfold cell_selection.
  destruct (is_active c), (is_artificial c); simpl;
    try (split; [discriminate | intros (H1 & H2 & _); discriminate]).
  destruct planes as [| pl planes].
  - simpl. split; [intros _; auto | reflexivity].
  - cbn [length Nat.eqb]. rewrite scan_planes_spec. split.
    + intros H. auto.
    + intros (_ & _ & [H | H]); [discriminate | exact H].
Qed.

End CellSelectionFacts.

(** X23: the output filter selects a cell exactly when the cell is
    active and not artificial and either no plane is configured or, for
    some configured plane, one vertex of the cell has signed distance
    above [- tolerance] and one vertex (the same or another) has signed
    distance below [tolerance]. *)
Theorem cell_selection_characterised
    (planes : list Postprocessor.plane) (c : Postprocessor.cell) :
  Postprocessor.cell_selection planes c = true
  <-> Postprocessor.is_active c = true
      /\ Postprocessor.is_artificial c = false
      /\ (planes = []
          \/ exists pl, In pl planes
               /\ (exists v, In v (Postprocessor.vertices c)
                     /\ - Postprocessor.tolerance pl
                        < Postprocessor.distance pl v)
               /\ (exists v, In v (Postprocessor.vertices c)
                     /\ Postprocessor.distance pl v
                        < Postprocessor.tolerance pl)).
Proof. exact (CellSelectionFacts.cell_selection_spec planes c). Qed.

Lemma cell_selection_characterised_witness :
  let pl := {| Postprocessor.origin := [1 / 2];
               Postprocessor.normal := [1];
               Postprocessor.tolerance := 1 / 10 |} in
  let c := {| Postprocessor.is_active := true;
              Postprocessor.is_artificial := false;
              Postprocessor.vertices := [[0]; [1]] |} in
  Postprocessor.cell_selection [pl] c = true.
Proof.
  apply (proj2 (cell_selection_characterised
                  [{| Postprocessor.origin := [1 / 2];
                      Postprocessor.normal := [1];
                      Postprocessor.tolerance := 1 / 10 |}]
                  {| Postprocessor.is_active := true;
                     Postprocessor.is_artificial := false;
                     Postprocessor.vertices := [[0]; [1]] |})).
  split; [reflexivity | split; [reflexivity | right]].
  eexists. split; [left; reflexivity | split].
  - exists [1]. split; [right; left; reflexivity |].
    unfold Postprocessor.distance. simpl. lra.
  - exists [0]. split; [left; reflexivity |].
    unfold Postprocessor.distance. simpl. lra.
Defined.

(** X24: with at least one plane configured, a cell all of whose
    vertices lie on one side of every plane, at signed distance at least
    the tolerance, is not selected; an active, non-artificial cell with
    one vertex strictly inside the slab of some plane is selected. *)
Theorem cell_selection_by_slab
    (planes : list Postprocessor.plane) (c : Postprocessor.cell) :
  (planes <> [] ->
   (forall pl, In pl planes ->
      (forall v, In v (Postprocessor.vertices c) ->
         Postprocessor.tolerance pl <= Postprocessor.distance pl v)
      \/ (forall v, In v (Postprocessor.vertices c) ->
            Postprocessor.distance pl v <= - Postprocessor.tolerance pl)) ->
   Postprocessor.cell_selection planes c = false)
  /\ (forall pl v,
        Postprocessor.is_active c = true ->
        Postprocessor.is_artificial c = false ->
        In pl planes -> In v (Postprocessor.vertices c) ->
        - Postprocessor.tolerance pl < Postprocessor.distance pl v
          < Postprocessor.tolerance pl ->
        Postprocessor.cell_selection planes c = true).
Proof.
  split.
  - intros Hne Hside.
    destruct (Postprocessor.cell_selection planes c) eqn:Hsel;
      [exfalso | reflexivity].
    apply CellSelectionFacts.cell_selection_spec in Hsel
      as (_ & _ & [Hempty | (pl & Hin & (v & Hv & Ha) & (v' & Hv' & Hb))]).
    + contradiction.
    + unfold Postprocessor.above_lower_face in Ha.
      unfold Postprocessor.below_upper_face in Hb.
      destruct (Hside pl Hin) as [H | H].
      * specialize (H v' Hv'). lra.
      * specialize (H v Hv). lra.
  - intros pl v Hact Hart Hin Hv [Ha Hb].
    apply CellSelectionFacts.cell_selection_spec.
    split; [exact Hact | split; [exact Hart | right]].
    exists pl. split; [exact Hin |].
    split; exists v; split; assumption.
Qed.

Lemma cell_selection_by_slab_witness :
  let pl := {| Postprocessor.origin := [1 / 2];
               Postprocessor.normal := [1];
               Postprocessor.tolerance := 1 / 10 |} in
  let far := {| Postprocessor.is_active := true;
                Postprocessor.is_artificial := false;
                Postprocessor.vertices := [[1]; [2]] |} in
  Postprocessor.cell_selection [pl] far = false.
Proof.
  apply (proj1 (cell_selection_by_slab
                  [{| Postprocessor.origin := [1 / 2];
                      Postprocessor.normal := [1];
                      Postprocessor.tolerance := 1 / 10 |}]
                  {| Postprocessor.is_active := true;
                     Postprocessor.is_artificial := false;
                     Postprocessor.vertices := [[1]; [2]] |})).
  - discriminate.
  - intros pl [<- | []]. left.
    intros v [<- | [<- | []]]; unfold Postprocessor.distance; simpl; lra.
Defined.

(** ** Reduction and exponential scale together *)

Module ScaleFacts.
Import Reduction.

Lemma no_better_upper_finite (x y : R) :
  no_better upper (finite x) (finite y) <-> x <= y.
Proof.
  unfold no_better. simpl. unfold Rltb.
  destruct (Rlt_dec y x); split; intros H;
    try reflexivity; try discriminate; lra.
Qed.

Lemma no_better_lower_finite (x y : R) :
  no_better lower (finite x) (finite y) <-> y <= x.
Proof.
  unfold no_better. simpl. unfold Rltb.
  destruct (Rlt_dec x y); split; intros H;
    try reflexivity; try discriminate; lra.
Qed.

Lemma between_extrema (values : list Number) (r r_min r_max : R) :
  extremum upper values = Some (finite r_max) ->
  extremum lower values = Some (finite r_min) ->
  In (finite r) values -> r_min <= r <= r_max.
Proof.
  intros Hmax Hmin Hin.
  apply ReductionFacts.extremum_is_extremum in Hmax as [_ Hmax].
  apply ReductionFacts.extremum_is_extremum in Hmin as [_ Hmin].
  rewrite Forall_forall in Hmax, Hmin.
  split.
  - apply no_better_lower_finite, Hmin, Hin.
  - apply no_better_upper_finite, Hmax, Hin.
Qed.

End ScaleFacts.


Lemma sample_extrema :
  Reduction.extremum Reduction.upper
    [Reduction.finite 1; Reduction.finite 3] = Some (Reduction.finite 3)
  /\ Reduction.extremum Reduction.lower
       [Reduction.finite 1; Reduction.finite 3] = Some (Reduction.finite 1).
Proof.
  simpl. unfold Reduction.max, Reduction.min. simpl. unfold Rltb.
  destruct (Rlt_dec 1 3); [| lra].
  destruct (Rlt_dec 3 1); [lra |]. split; reflexivity.
Qed.


(** X26: whenever [compute] is defined on two admissible states, the
    star pressure it selects is positive, and the result is
    [compute_lambda] at that star pressure. *)
Theorem selected_star_pressure_positive
    (b_interp : R) (i j : primitive_type) (v : R) :
  admissible i -> admissible j ->
  Checked.compute b_interp i j = Some v ->
  0 < SpecWords.p_2 b_interp i j
  /\ v = RiemannSolver.compute_lambda i j (SpecWords.p_2 b_interp i j).
Proof.
  intros Hi Hj Hv. split.
  - unfold SpecWords.p_2.
    destruct (Rlt_dec (RiemannSolver.phi_of_p_max b_interp i j) 0).
    + destruct i as [rho_i u_i p_i gamma_i a_i],
        j as [rho_j u_j p_j gamma_j a_j].
      unfold RiemannSolver.p_star_SS_aeos.
      apply Definedness.vec_pow_positive.
    + destruct Hi as (_ & Hpi & _), Hj as (_ & Hpj & _).
      apply Rmin_glb_lt.
      * apply Rmax_case; assumption.
      * destruct i as [rho_i u_i p_i gamma_i a_i],
          j as [rho_j u_j p_j gamma_j a_j].
        unfold RiemannSolver.p_star_RS_aeos. cbn [p] in Hpi, Hpj.
        apply Rmult_lt_0_compat.
        -- apply Definedness.std_min_positive; assumption.
        -- apply Definedness.vec_pow_positive.
  - apply CheckedSound.compute_sound in Hv. subst v.
    apply RiemannSolverFacts.compute_selects.
Qed.

Lemma selected_star_pressure_positive_witness :
  let s := primitive 1 0 1 (3 / 2) 1 in
  0 < SpecWords.p_2 0 s s.
Proof.
  exact (proj1 (selected_star_pressure_positive 0 _ _ _
                  (proj1 reference_states_evaluate)
                  (proj1 reference_states_evaluate)
                  (proj2 (proj2 reference_states_evaluate)))).
Defined.

(** ** Two expansion waves *)

Module SeparatingStates.
Import RiemannSolver.

Lemma vec_pow_at_most_one (x e : R) :
  0 < x -> x <= 1 -> 0 <= e -> vec_pow x e <= 1.
Proof.
  intros Hx Hx1 He. unfold vec_pow, Rpower.
  rewrite <- exp_0. apply NormalizeFacts.exp_monotone.
  assert (Hln : ln x <= 0).
  { rewrite <- ln_1. destruct Hx1 as [Hlt | ->]; [| apply Rle_refl].
    left. apply ln_increasing; assumption. }
  assert (0 <= e * - ln x) by (apply Rmult_le_pos; lra).
  lra.
Qed.

Lemma p_star_RS_aeos_from_base (b_interp : R) (i j : primitive_type) :
  p_star_RS_aeos b_interp i j
  = std_min (p i) (p j)
    * vec_pow (p_star_RS_base b_interp i j)
        (2 * compare_and_apply_mask less_than (p i) (p j)
               (gamma i) (gamma j)
         / (compare_and_apply_mask less_than (p i) (p j)
              (gamma i) (gamma j) - 1)).
Proof.
  destruct i as [rho_i u_i p_i gamma_i a_i], j as [rho_j u_j p_j gamma_j a_j].
  reflexivity.
Qed.

(** The numerator of the base, for the side of the larger pressure
    [alpha_max], [gamma_max] and the side of the smaller one. *)
Lemma base_at_most_one (alpha_max alpha_min c_min gamma_max ratio gap : R) :
  0 < alpha_max -> 0 < alpha_min -> 0 < c_min -> 1 <= gamma_max ->
  0 < ratio -> ratio <= 1 ->
  (alpha_max * (1 - vec_pow ratio ((gamma_max - 1) / (2 * gamma_max))) - gap)
  / (c_min * alpha_min) + 1 <= 1 ->
  0 <= gap.
Proof.
  intros Hamax Hamin Hc Hg Hr Hr1 Hbase.
  assert (Hden : 0 < c_min * alpha_min) by (apply Rmult_lt_0_compat; lra).
  assert (He : 0 <= (gamma_max - 1) / (2 * gamma_max)).
  { unfold Rdiv. apply Rmult_le_pos; [lra |].
    apply Rlt_le, Rinv_0_lt_compat. lra. }
  pose proof (vec_pow_at_most_one ratio _ Hr Hr1 He) as Hpow.
  set (power := vec_pow ratio ((gamma_max - 1) / (2 * gamma_max))) in *.
  assert (Hnum : alpha_max * (1 - power) - gap <= 0).
  { destruct (Rle_dec (alpha_max * (1 - power) - gap) 0) as [H | H];
      [exact H | exfalso].
    assert (0 < (alpha_max * (1 - power) - gap) / (c_min * alpha_min))
      by (apply Rdiv_lt_0_compat; lra).
    lra. }
  assert (0 <= alpha_max * (1 - power)) by (apply Rmult_le_pos; lra).
  lra.
Qed.

Lemma separating (b_interp : R) (i j : primitive_type) :
  admissible i -> admissible j -> well_defined b_interp i j ->
  p_star_RS_base b_interp i j <= 1 ->
  u i <= u j
  /\ p_star_RS_aeos b_interp i j <= std_min (p i) (p j).
Proof.
  intros Hi Hj (Hni & Hnj & Hci & Hcj & _ & Hbase) Hle.
  split.
  - destruct i as [rho_i u_i p_i gamma_i a_i],
      j as [rho_j u_j p_j gamma_j a_j].
    destruct Hi as (_ & Hpi & Hgi & Hai), Hj as (_ & Hpj & Hgj & Haj).
    cbn [rho u p gamma a] in *.
    pose proof (Definedness.c_positive gamma_i ltac:(lra)).
    pose proof (Definedness.c_positive gamma_j ltac:(lra)).
    pose proof (Definedness.alpha_positive b_interp rho_i gamma_i a_i
                  Hai ltac:(lra) Hci).
    pose proof (Definedness.alpha_positive b_interp rho_j gamma_j a_j
                  Haj ltac:(lra) Hcj).
    assert (Hr : 0 < std_min p_i p_j / std_max p_i p_j).
    { apply Rdiv_lt_0_compat;
        [apply Definedness.std_min_positive
        | apply Definedness.std_max_positive]; assumption. }
    assert (Hr1 : std_min p_i p_j / std_max p_i p_j <= 1).
    { apply Rmult_le_reg_r with (std_max p_i p_j).
      - apply Definedness.std_max_positive; assumption.
      - unfold Rdiv. rewrite Rmult_assoc, Rinv_l.
        + unmask; lra.
        + apply Rgt_not_eq, Definedness.std_max_positive; assumption. }
    unfold p_star_RS_base in Hle. cbn [rho u p gamma a] in Hle.
    unfold compare_and_apply_mask, compare, Rltb, Rleb in Hle.
    destruct (Rlt_dec p_i p_j); destruct (Rle_dec p_j p_i); try lra.
    + assert (0 <= u_j - u_i)
        by (apply (base_at_most_one
                     (alpha b_interp rho_j gamma_j a_j)
                     (alpha b_interp rho_i gamma_i a_i)
                     (c gamma_i) gamma_j
                     (std_min p_i p_j / std_max p_i p_j) (u_j - u_i));
            assumption).
      lra.
    + assert (0 <= u_j - u_i)
        by (apply (base_at_most_one
                     (alpha b_interp rho_i gamma_i a_i)
                     (alpha b_interp rho_j gamma_j a_j)
                     (c gamma_j) gamma_i
                     (std_min p_i p_j / std_max p_i p_j) (u_j - u_i));
            assumption).
      lra.
  - rewrite p_star_RS_aeos_from_base.
    assert (Hmin : 0 < std_min (p i) (p j)).
    { destruct Hi as (_ & Hpi & _), Hj as (_ & Hpj & _).
      apply Definedness.std_min_positive; assumption. }
    assert (Hexp : 0 <= 2 * compare_and_apply_mask less_than (p i) (p j)
                           (gamma i) (gamma j)
                      / (compare_and_apply_mask less_than (p i) (p j)
                           (gamma i) (gamma j) - 1)).
    { destruct Hi as (_ & _ & Hgi & _), Hj as (_ & _ & Hgj & _).
      unfold compare_and_apply_mask.
      destruct (compare less_than (p i) (p j));
        apply Rlt_le, Rdiv_lt_0_compat; lra. }
    pose proof (vec_pow_at_most_one _ _ Hbase Hle Hexp) as Hpow.
    rewrite <- (Rmult_1_r (std_min (p i) (p j))) at 2.
    apply Rmult_le_compat_l; lra.
Qed.

End SeparatingStates.

(** X27: two expansion waves.  When [compute] is defined on two
    admissible states and the base of the last power of the
    rarefaction-shock estimate is at most one, the states do not
    approach each other, the estimate is not above the smaller pressure,
    and [compute] returns exactly the larger of [max (0, u_j + a_j)] and
    [max (0, a_i - u_i)]. *)
Theorem compute_for_two_expansion_waves
    (b_interp : R) (i j : primitive_type) (v : R) :
  admissible i -> admissible j ->
  Checked.compute b_interp i j = Some v ->
  p_star_RS_base b_interp i j <= 1 ->
  u i <= u j
  /\ RiemannSolver.p_star_RS_aeos b_interp i j <= Rmin (p i) (p j)
  /\ v = Rmax (Rmax 0 (u j + a j)) (Rmax 0 (a i - u i)).
Proof.
  intros Hi Hj Hv Hle.
  pose proof (Definedness.compute_inv b_interp i j v Hi Hj Hv) as Hw.
  destruct (SeparatingStates.separating b_interp i j Hi Hj Hw Hle)
    as [Hu Hrs].
  rewrite RiemannSolverFacts.std_min_Rmin in Hrs.
  split; [exact Hu | split; [exact Hrs |]].
  apply CheckedSound.compute_sound in Hv. subst v.
  rewrite RiemannSolverFacts.compute_selects.
  assert (Hp2 : SpecWords.p_2 b_interp i j <= Rmin (p i) (p j)).
  { unfold SpecWords.p_2.
    pose proof (RiemannSolverProperties.phi_of_p_max_velocity_gap
                  b_interp i j).
    destruct (Rlt_dec (RiemannSolver.phi_of_p_max b_interp i j) 0);
      [lra |].
    eapply Rle_trans; [apply Rmin_r | exact Hrs]. }
  destruct Hi as (_ & Hpi & _), Hj as (_ & Hpj & _).
  apply RiemannSolverProperties.compute_lambda_acoustic; try assumption.
  - eapply Rle_trans; [exact Hp2 | apply Rmin_l].
  - eapply Rle_trans; [exact Hp2 | apply Rmin_r].
Qed.

Lemma compute_for_two_expansion_waves_witness :
  let s := primitive 1 0 1 (3 / 2) 1 in
  RiemannSolver.compute 0 s s
  = Rmax (Rmax 0 (0 + 1)) (Rmax 0 (1 - 0)).
Proof.
  apply (proj2 (proj2 (compute_for_two_expansion_waves 0 _ _ _
                         (proj1 reference_states_evaluate)
                         (proj1 reference_states_evaluate)
                         (proj2 (proj2 reference_states_evaluate))
                         ltac:(rewrite EqualStates.p_star_RS_base_equal;
                               lra)))).
Defined.
